(** * InstFS: the SFZ-to-JSON converter (scripts/sfz_to_json.py)

    A shallow embedding of the SFZ parser of the repository: the value
    parser [parse_value], the opcode tokenizer [extract_opcodes], the line
    processor and the recursive file parser of class [SFZParser], its
    [normalize] method and the [main] entry point, followed by the
    properties of the specification that were checked against them.

    Modelling conventions.
    - A Python [str] is a [list ascii]; a character stands for a code
      point below 256, and the classifiers [is_space] and [is_word] follow
      Python's [str.isspace] and the [\w] class of [re] on that range.
    - Indices are [Z], as in the source ([str.find] answers [-1]), and
      slices clamp their bounds as Python does.
    - A [dict] used as a map is a [gmap], so the order of its keys is not
      kept; the table of macros, whose iteration order the source depends
      on, is an association list.
    - A float is kept as the decimal number it was read from.
    - The parser object is a record that every method takes and returns;
      the two loops that Python bounds by the data, the loop of the
      tokenizer and the recursion of [parse_file] through the inclusions,
      take a fuel, and theorems give the fuel that is enough.
    - The disk is a finite map from resolved paths to files, and the
      operations of [pathlib] are parameters of it, with the exceptions
      they raise: [resolve] on a path it cannot read (a NUL in it), the
      test of existence on a path it cannot examine (a name that is too
      long), [open] on a file it cannot read or write. The limit of the
      interpreter on the depth of recursion is not modelled, and the
      standard output is taken to accept every message. *)

From Stdlib Require Import Ascii String ZArith Lia Bool.
From Stdlib Require DecimalString DecimalZ DecimalPos.
From stdpp Require Import gmap strings list fin_maps.

Local Open Scope Z_scope.

Abbreviation pystr := (list ascii).
Abbreviation txt := list_ascii_of_string.

(** ** Characters *)

Definition code (c : ascii) : Z := Z.of_N (N_of_ascii c).

(** [str.isspace] on code points below 256: TAB..CR, FS..US, space, NEL and
    the no-break space. *)
Definition is_space (c : ascii) : bool :=
  let n := code c in
  ((9 <=? n) && (n <=? 13)) || ((28 <=? n) && (n <=? 32))
  || (n =? 133) || (n =? 160).

Definition is_digit (c : ascii) : bool :=
  let n := code c in (48 <=? n) && (n <=? 57).

(** The class [\w] of [re] on [str] patterns: alphanumeric code points and
    the underscore. *)
Definition is_word (c : ascii) : bool :=
  let n := code c in
  is_digit c || ((65 <=? n) && (n <=? 90)) || ((97 <=? n) && (n <=? 122))
  || (n =? 95)
  || (n =? 170) || (n =? 178) || (n =? 179) || (n =? 181) || (n =? 185)
  || (n =? 186) || (n =? 188) || (n =? 189) || (n =? 190)
  || ((192 <=? n) && (n <=? 214)) || ((216 <=? n) && (n <=? 246))
  || ((248 <=? n) && (n <=? 255)).

Definition chr_eqb (a b : ascii) : bool := Ascii.eqb a b.

Definition quote : ascii := "034"%char.
Definition backslash : ascii := "092"%char.
Definition newline : ascii := "010"%char.

(** ** Operations of [str] *)

Module Str.

Definition len (s : pystr) : Z := Z.of_nat (length s).

(** Bound of a slice: negative bounds count from the end, and every bound
    is clamped to the string. *)
Definition clamp (n i : Z) : Z :=
  if i <? 0 then Z.max 0 (n + i) else Z.min i n.

(** [s[a:b]] *)
Definition slice (s : pystr) (a b : Z) : pystr :=
  let lo := clamp (len s) a in
  let hi := clamp (len s) b in
  take (Z.to_nat (hi - lo)) (drop (Z.to_nat lo) s).

(** [s[a:]] *)
Definition slice_from (s : pystr) (a : Z) : pystr :=
  drop (Z.to_nat (clamp (len s) a)) s.

Fixpoint find_at (c : ascii) (s : pystr) (i : Z) : Z :=
  match s with
  | [] => -1
  | a :: s' => if chr_eqb a c then i else find_at c s' (i + 1)
  end.

(** [s.find(c, start)] for a one-character [c] *)
Definition find (c : ascii) (s : pystr) (start : Z) : Z :=
  let lo := clamp (len s) start in
  find_at c (drop (Z.to_nat lo) s) lo.

Fixpoint rfind_at (c : ascii) (s : pystr) (i last : Z) : Z :=
  match s with
  | [] => last
  | a :: s' => rfind_at c s' (i + 1) (if chr_eqb a c then i else last)
  end.

(** [s.rfind(c, start, stop)] for a one-character [c] *)
Definition rfind (c : ascii) (s : pystr) (start stop : Z) : Z :=
  rfind_at c (slice s start stop) (clamp (len s) start) (-1).

Fixpoint startswith (s p : pystr) {struct p} : bool :=
  match p, s with
  | [], _ => true
  | _ :: _, [] => false
  | b :: p', a :: s' => chr_eqb a b && startswith s' p'
  end.

Definition endswith (s p : pystr) : bool := startswith (rev s) (rev p).

(** [p in s] *)
Fixpoint contains (p s : pystr) : bool :=
  startswith s p ||
  match s with
  | [] => false
  | _ :: s' => contains p s'
  end.

Fixpoint lstrip_by (p : ascii -> bool) (s : pystr) : pystr :=
  match s with
  | [] => []
  | a :: s' => if p a then lstrip_by p s' else s
  end.

Fixpoint rstrip_by (p : ascii -> bool) (s : pystr) : pystr :=
  match s with
  | [] => []
  | a :: s' =>
      match rstrip_by p s' with
      | [] => if p a then [] else [a]
      | r => a :: r
      end
  end.

Definition strip_by (p : ascii -> bool) (s : pystr) : pystr :=
  rstrip_by p (lstrip_by p s).

(** [s.strip()] *)
Definition strip (s : pystr) : pystr := strip_by is_space s.

(** [s.replace(old, new)]: the occurrences of [old] are found from left
    to right and do not overlap. [skip] counts the characters of an
    occurrence that is being passed over. *)
Fixpoint replace_from (old new s : pystr) (skip : nat) : pystr :=
  match s with
  | [] => []
  | a :: s' =>
      match skip with
      | S k => replace_from old new s' k
      | O =>
          if startswith s old
          then new ++ replace_from old new s' (Nat.pred (length old))
          else a :: replace_from old new s' O
      end
  end.

Definition replace (s old new : pystr) : pystr :=
  match old with
  | [] => new ++ flat_map (fun a => a :: new) s
  | _ :: _ => replace_from old new s O
  end.

(** [s.split(sep)[0]]: what precedes the first occurrence of [sep] *)
Fixpoint split_head (s sep : pystr) : pystr :=
  if startswith s sep then []
  else match s with
       | [] => []
       | a :: s' => a :: split_head s' sep
       end.

End Str.

(** ** The fragment of [re] the source uses

    The three patterns of the source are sequences of single characters
    and of greedy [+] repetitions of a character class. [Plus] tries the
    longest repetition first and gives characters back one at a time, as
    the backtracking matcher of [re] does. A match answers the text taken
    by each item of the pattern. *)

Module Re.

Inductive item : Type :=
| One (p : ascii -> bool)
| Plus (p : ascii -> bool).

Definition lit (c : ascii) : item := One (chr_eqb c).

Fixpoint plus_match {R : Type} (p : ascii -> bool) (k : pystr -> option R)
    (s : pystr) : option (pystr * R) :=
  match s with
  | [] => None
  | a :: s' =>
      if p a then
        match plus_match p k s' with
        | Some (m, r) => Some (a :: m, r)
        | None =>
            match k s' with
            | Some r => Some ([a], r)
            | None => None
            end
        end
      else None
  end.

(** [re.match]: the pattern matched at the start of [s]. *)
Fixpoint match_ (r : list item) (s : pystr) : option (list pystr) :=
  match r with
  | [] => Some []
  | One p :: r' =>
      match s with
      | [] => None
      | a :: s' =>
          if p a then option_map (cons [a]) (match_ r' s') else None
      end
  | Plus p :: r' =>
      option_map (fun mr => fst mr :: snd mr) (plus_match p (match_ r') s)
  end.

(** [re.search]: the leftmost position at which the pattern matches,
    and the match there. *)
Fixpoint search_at (r : list item) (s : pystr) (pos : Z)
    : option (Z * list pystr) :=
  match match_ r s with
  | Some m => Some (pos, m)
  | None =>
      match s with
      | [] => None
      | _ :: s' => search_at r s' (pos + 1)
      end
  end.

Definition search (r : list item) (s : pystr) : option (Z * list pystr) :=
  search_at r s 0.

Definition lits (s : string) : list item := map lit (txt s).

(** [group n] of a match, where the group is the [n]-th item. *)
Definition piece (m : list pystr) (n : nat) : pystr :=
  default [] (m !! n).

End Re.

(** ** Utility functions of the script *)

(** The pattern [\s+\w+=] *)
Definition next_key_re : list Re.item :=
  [Re.Plus is_space; Re.Plus is_word; Re.lit "="%char].

(** The loop of [extract_opcodes]. Every turn moves [i] forward; [fuel]
    bounds the number of turns. *)
Fixpoint extract_loop (fuel : nat) (line : pystr) (i : Z)
    : option (list (pystr * pystr)) :=
  let length := Str.len line in
  if i <? length then
    match fuel with
    | O => None
    | S fuel' =>
        let eq := Str.find "="%char line i in
        if eq =? -1 then Some []
        else
          let key_start := Str.rfind " "%char line 0 eq in
          let key := Str.strip (Str.slice line (key_start + 1) eq) in
          match Re.search next_key_re (Str.slice_from line (eq + 1)) with
          | Some (start, _) =>
              let value_end := eq + 1 + start in
              let value := Str.slice line (eq + 1) value_end in
              option_map (cons (key, Str.strip value))
                         (extract_loop fuel' line value_end)
          | None =>
              let value := Str.slice_from line (eq + 1) in
              option_map (cons (key, Str.strip value))
                         (extract_loop fuel' line length)
          end
    end
  else Some [].

Definition extract_opcodes (line : pystr) : list (pystr * pystr) :=
  default [] (extract_loop (S (length line)) line 0).

(** ** Values

    A float is the double nearest to [f_digits * 10 ^ f_exp], with the sign
    [f_neg]; only its sign, and whether it is zero, are ever looked at. *)

Record pyfloat : Type := MkFloat { f_neg : bool; f_digits : Z; f_exp : Z }.

Inductive pyvalue : Type :=
| VInt (n : Z)
| VFloat (f : pyfloat)
| VStr (s : pystr).

(** The double nearest to a decimal is zero when the decimal is at most
    half of the least positive double, [2 ^ -1074]. *)
Definition float_is_zero (f : pyfloat) : bool :=
  if f_exp f <? 0
  then f_digits f * 2 ^ 1075 <=? 10 ^ (- f_exp f)
  else f_digits f =? 0.

(** Truth value of an object, as [if] and [and] take it. *)
Definition truthy (v : pyvalue) : bool :=
  match v with
  | VInt n => negb (n =? 0)
  | VFloat f => negb (float_is_zero f)
  | VStr s => negb (Str.len s =? 0)
  end.

(** ** [int] and [float] on a string *)

Module Num.

(** The blanks that [int] and [float] skip around a number: the blanks of
    C, and the two blanks above 127, which are read as spaces. *)
Definition blank (c : ascii) : bool :=
  let n := code c in
  ((9 <=? n) && (n <=? 13)) || (n =? 32) || (n =? 133) || (n =? 160).

Definition digit_value (c : ascii) : Z := code c - 48.

Fixpoint digits_value (s : pystr) (acc : Z) : Z :=
  match s with
  | [] => acc
  | a :: s' => digits_value s' (10 * acc + digit_value a)
  end.

Fixpoint span_digits (s : pystr) : pystr * pystr :=
  match s with
  | [] => ([], [])
  | a :: s' =>
      if is_digit a
      then let '(d, r) := span_digits s' in (a :: d, r)
      else ([], s)
  end.

(** An underscore is allowed between two digits only; they are dropped
    before the number is read. [prev] is the character before [s]. *)
Fixpoint drop_underscores (prev : ascii) (s : pystr) : option pystr :=
  match s with
  | [] => if chr_eqb prev "_" then None else Some []
  | a :: s' =>
      if chr_eqb a "_"
      then if is_digit prev then drop_underscores a s' else None
      else if chr_eqb prev "_" && negb (is_digit a) then None
           else option_map (cons a) (drop_underscores a s')
  end.

Definition take_sign (s : pystr) : bool * pystr :=
  match s with
  | a :: s' =>
      if chr_eqb a "-" then (true, s')
      else if chr_eqb a "+" then (false, s')
      else (false, s)
  | [] => (false, [])
  end.

Definition signed (neg : bool) (n : Z) : Z := if neg then - n else n.

Definition is_nil (s : pystr) : bool :=
  match s with [] => true | _ :: _ => false end.

(** The most digits [int] reads: the default of
    [sys.int_max_str_digits]. *)
Definition max_str_digits : nat := 4300.

(** [int(s)], in base ten. The digits are counted without the blanks, the
    sign and the underscores, the leading zeros with the others; above
    the limit [int] raises [ValueError] as it does on a text that is not a
    number. *)
Definition py_int (s : pystr) : option Z :=
  let s := Str.strip_by blank s in
  let '(neg, s) := take_sign s in
  match drop_underscores "000" s with
  | None => None
  | Some d =>
      if is_nil d || negb (forallb is_digit d) then None
      else if (max_str_digits <? length d)%nat then None
      else Some (signed neg (digits_value d 0))
  end.

(** [float(s)] on a decimal number; [inf] and [nan], which [float] reads
    too, hold no dot and never reach it in this program. *)
Definition py_float (s : pystr) : option pyfloat :=
  let s := Str.strip_by blank s in
  match drop_underscores "000" s with
  | None => None
  | Some s =>
      let '(neg, s) := take_sign s in
      let '(ip, s) := span_digits s in
      let '(fp, s) :=
        match s with
        | a :: s' => if chr_eqb a "." then span_digits s' else ([], s)
        | [] => ([], s)
        end in
      if is_nil ip && is_nil fp then None
      else
        let m := digits_value (ip ++ fp) 0 in
        let e := - Str.len fp in
        match s with
        | [] => Some (MkFloat neg m e)
        | a :: s' =>
            if chr_eqb a "e" || chr_eqb a "E" then
              let '(eneg, s'') := take_sign s' in
              let '(ed, rest) := span_digits s'' in
              if is_nil ed || negb (is_nil rest) then None
              else Some (MkFloat neg m (signed eneg (digits_value ed 0) + e))
            else None
        end
  end.

End Num.

(** [parse_value]: the bare [except] turns every failure of [float] and of
    [int] into the string itself. *)
Definition parse_value (value : pystr) : pyvalue :=
  let value := Str.strip value in
  let value :=
    if Str.startswith value [quote] && Str.endswith value [quote]
    then Str.slice value 1 (-1)
    else value in
  if Str.contains (txt ".") value then
    match Num.py_float value with
    | Some f => VFloat f
    | None => VStr value
    end
  else
    match Num.py_int value with
    | Some n => VInt n
    | None => VStr value
    end.

(** ** The parser object *)

Abbreviation dict := (gmap pystr pyvalue).

(** A group: the object with the two keys [opcodes] and [regions]. *)
Record group : Type := MkGroup {
  opcodes : dict;
  regions : list dict
}.

Inductive section_name : Type :=
| SecControl | SecGlobal | SecGroup | SecRegion.

(** What the parser does to the outside: the files it opens for reading
    and the two error messages it prints. The messages printed under
    [verbose] are left out. *)
Inductive event : Type :=
| Opened (path : pystr)
| FileNotFound (path : pystr)
| IncludeNotFound (path : pystr).

(** The fields of [SFZParser]. [current_group] and [current_region] are
    references to objects that sit in the list of groups of [data]: they
    are kept as the position of the group in that list, and as the
    positions of a group and of a region in it, so that an assignment
    through either reference changes the object the document holds. *)
Record parser : Type := MkParser {
  data_control : dict;
  data_global : dict;
  data_groups : list group;
  defines : list (pystr * pystr);
  current_section : option section_name;
  current_group : option nat;
  current_region : option (nat * nat);
  processed_files : gset pystr;
  trace : list event
}.

(** [SFZParser.__init__] *)
Definition new_parser : parser :=
  MkParser ∅ ∅ [] [] None None None ∅ [].

Definition set_control (f : dict -> dict) (st : parser) : parser :=
  MkParser (f (data_control st)) (data_global st) (data_groups st)
    (defines st) (current_section st) (current_group st)
    (current_region st) (processed_files st) (trace st).

Definition set_global (f : dict -> dict) (st : parser) : parser :=
  MkParser (data_control st) (f (data_global st)) (data_groups st)
    (defines st) (current_section st) (current_group st)
    (current_region st) (processed_files st) (trace st).

Definition set_groups (f : list group -> list group) (st : parser) : parser :=
  MkParser (data_control st) (data_global st) (f (data_groups st))
    (defines st) (current_section st) (current_group st)
    (current_region st) (processed_files st) (trace st).

Definition set_defines (d : list (pystr * pystr)) (st : parser) : parser :=
  MkParser (data_control st) (data_global st) (data_groups st)
    d (current_section st) (current_group st)
    (current_region st) (processed_files st) (trace st).

Definition set_section (s : section_name) (st : parser) : parser :=
  MkParser (data_control st) (data_global st) (data_groups st)
    (defines st) (Some s) (current_group st)
    (current_region st) (processed_files st) (trace st).

Definition set_current_group (g : option nat) (st : parser) : parser :=
  MkParser (data_control st) (data_global st) (data_groups st)
    (defines st) (current_section st) g
    (current_region st) (processed_files st) (trace st).

Definition set_current_region (r : option (nat * nat)) (st : parser)
    : parser :=
  MkParser (data_control st) (data_global st) (data_groups st)
    (defines st) (current_section st) (current_group st)
    r (processed_files st) (trace st).

Definition add_processed (p : pystr) (st : parser) : parser :=
  MkParser (data_control st) (data_global st) (data_groups st)
    (defines st) (current_section st) (current_group st)
    (current_region st) ({[p]} ∪ processed_files st) (trace st).

Definition emit (e : event) (st : parser) : parser :=
  MkParser (data_control st) (data_global st) (data_groups st)
    (defines st) (current_section st) (current_group st)
    (current_region st) (processed_files st) (trace st ++ [e]).

(** The region a reference [(g, r)] points to. *)
Definition region_at (st : parser) (g r : nat) : option dict :=
  match data_groups st !! g with
  | Some grp => regions grp !! r
  | None => None
  end.

Definition set_opcode (key : pystr) (v : pyvalue) (grp : group) : group :=
  MkGroup (<[key := v]> (opcodes grp)) (regions grp).

Definition set_region_opcode (r : nat) (key : pystr) (v : pyvalue)
    (grp : group) : group :=
  MkGroup (opcodes grp) (alter (insert key v) r (regions grp)).

Definition append_region (region : dict) (grp : group) : group :=
  MkGroup (opcodes grp) (regions grp ++ [region]).

(** [d[key] = value] on the table of macros: a key that is there keeps its
    place, a new key goes last. *)
Fixpoint dict_set (d : list (pystr * pystr)) (key val : pystr)
    : list (pystr * pystr) :=
  match d with
  | [] => [(key, val)]
  | (k, v) :: d' =>
      if decide (k = key) then (key, val) :: d'
      else (k, v) :: dict_set d' key val
  end.

(** The loop over [self.defines.items()] that replaces each [$macro] in
    turn. *)
Definition substitute (defs : list (pystr * pystr)) (value : pystr) : pystr :=
  fold_left
    (fun value mv => Str.replace value ("$"%char :: fst mv) (snd mv))
    defs value.

(** The two steps every value goes through before it is stored. *)
Definition resolve_value (defs : list (pystr * pystr)) (value : pystr)
    : pyvalue :=
  parse_value (substitute defs value).

(** [target.update(source)] *)
Definition dict_update (target source : dict) : dict := source ∪ target.

(** ** Files

    The file system: the files that exist, by resolved path, each with the
    lines that iterating over it gives, or unreadable (a directory, a file
    without permission) so that [open] raises; the operations of [pathlib]
    the script uses; and the exceptions they raise. [resolve] raises on a
    path it cannot read, [ValueError] when the path holds a NUL. The test
    of existence answers yes on a file of the disk; on any other path it
    answers no, or raises when it cannot examine the path, [OSError] when
    a name of the path is too long. [with_suffix] has no answer, and
    raises [ValueError], on a path with an empty name. Opening a file for
    writing, or writing to it, raises [OSError] when the directory is not
    there or the file cannot be written. *)

Inductive exn : Type := OSError | TypeError | AttributeError | ValueError.

Inductive node : Type :=
| Lines (ls : list pystr)
| Unreadable.

Record filesystem : Type := MkFs {
  files : gmap pystr node;
  resolve : pystr -> pystr;              (* Path(p).resolve() *)
  joinpath : pystr -> pystr -> pystr;    (* base / p *)
  parent : pystr -> pystr;               (* p.parent *)
  resolve_error : pystr -> option exn;   (* what Path(p).resolve() raises *)
  exists_error : pystr -> option exn;    (* what p.exists() raises *)
  with_suffix : pystr -> option pystr;   (* Path(p).with_suffix(".json") *)
  write_error : pystr -> option exn      (* what open(p, "w") raises *)
}.

Inductive outcome (A : Type) : Type :=
| Done (a : A)
| Raised (e : exn) (a : A)
| OutOfFuel.
Arguments Done {A} a.
Arguments Raised {A} e a.
Arguments OutOfFuel {A}.

(** ** The line processor *)

Definition any_char (c : ascii) : bool := negb (chr_eqb c newline).
Definition not_quote (c : ascii) : bool := negb (chr_eqb c quote).

(** The pattern [#define\s+\$(\w+)\s+(.+)]; its groups are items 9 and
    11. *)
Definition define_re : list Re.item :=
  Re.lits "#define" ++
  [Re.Plus is_space; Re.lit "$"; Re.Plus is_word; Re.Plus is_space;
   Re.Plus any_char].

(** The pattern of a quoted path: a quote, one or more characters that
    are not quotes, a quote; the group is item 1. *)
Definition include_re : list Re.item :=
  [Re.lit quote; Re.Plus not_quote; Re.lit quote].

Definition is_empty_dict (d : dict) : bool := bool_decide (d = ∅).

(** The four branches that end the loop over the opcodes of a line. A
    group object is never an empty [dict], so [self.current_group] is true
    as soon as it is not [None]; a region is an empty [dict] until it has
    an opcode, and [self.current_region] is false until then. *)
Definition store_opcode (st : parser) (key : pystr) (v : pyvalue) : parser :=
  match current_section st with
  | Some SecControl => set_control (insert key v) st
  | Some SecGlobal => set_global (insert key v) st
  | Some SecGroup =>
      match current_group st with
      | Some g => set_groups (alter (set_opcode key v) g) st
      | None => st
      end
  | Some SecRegion =>
      match current_region st with
      | Some (g, r) =>
          match region_at st g r with
          | Some region =>
              if is_empty_dict region then st
              else set_groups (alter (set_region_opcode r key v) g) st
          | None => st
          end
      | None => st
      end
  | None => st
  end.

(** [self.current_region[key] = value], without a test. *)
Definition store_in_region (st : parser) (key : pystr) (v : pyvalue)
    : parser :=
  match current_region st with
  | Some (g, r) => set_groups (alter (set_region_opcode r key v) g) st
  | None => st
  end.

Definition store_all (store : parser -> pystr -> pyvalue -> parser)
    (st : parser) (toks : list (pystr * pystr)) : parser :=
  fold_left
    (fun st kv => store st (fst kv) (resolve_value (defines st) (snd kv)))
    toks st.

Definition new_group : group := MkGroup ∅ [].

(** [<master>] and [<group>] *)
Definition open_group (st : parser) : parser :=
  let st := set_section SecGroup st in
  let st := set_current_group (Some (length (data_groups st))) st in
  let st := set_groups (fun gs => gs ++ [new_group]) st in
  set_current_region None st.

(** [<region>], up to [self.current_region = region]. *)
Definition open_region (st : parser) : parser :=
  let st := set_section SecRegion st in
  let st :=
    match current_group st with
    | None =>
        let st := set_current_group (Some (length (data_groups st))) st in
        set_groups (fun gs => gs ++ [new_group]) st
    | Some _ => st
    end in
  match current_group st with
  | Some g =>
      let grp := default new_group (data_groups st !! g) in
      let region := dict_update (dict_update ∅ (data_global st))
                                (opcodes grp) in
      let st := set_current_region (Some (g, length (regions grp))) st in
      set_groups (alter (append_region region) g) st
  | None => st
  end.

(** The removal of an inline comment. *)
Definition remove_inline_comment (line : pystr) : pystr :=
  if Str.contains (txt "//") line
  then Str.strip (Str.split_head line (txt "//"))
  else line.

Section Parser.

Variable fs : filesystem.

Definition process_line (parse_file : parser -> pystr -> outcome parser)
    (st : parser) (line base_path : pystr) : outcome parser :=
  if Num.is_nil line then Done st
  else if Str.startswith line (txt "//") then Done st
  else
    let line := remove_inline_comment line in
    if Str.startswith line (txt "#define") then
      match Re.match_ define_re line with
      | Some m =>
          let key := Re.piece m 9 in
          let value := Re.piece m 11 in
          Done (set_defines (dict_set (defines st) key (Str.strip value)) st)
      | None => Done st
      end
    else if Str.startswith line (txt "#include") then
      match Re.search include_re line with
      | Some (_, m) =>
          let include_path := Re.piece m 1 in
          let include_path := substitute (defines st) include_path in
          let include_path :=
            Str.replace include_path [backslash] (txt "/") in
          match resolve_error fs (joinpath fs base_path include_path) with
          | Some e => Raised e st
          | None =>
              let include_file :=
                resolve fs (joinpath fs base_path include_path) in
              match files fs !! include_file with
              | Some _ => parse_file st include_file
              | None =>
                  match exists_error fs include_file with
                  | Some e => Raised e st
                  | None => Done (emit (IncludeNotFound include_file) st)
                  end
              end
          end
      | None => Done st
      end
    else if Str.startswith line (txt "<control>") then
      Done (set_section SecControl st)
    else if Str.startswith line (txt "<global>") then
      Done (set_section SecGlobal st)
    else if Str.startswith line (txt "<master>") then
      Done (open_group st)
    else if Str.startswith line (txt "<group>") then
      Done (open_group st)
    else if Str.startswith line (txt "<region>") then
      let st := open_region st in
      let rest_of_line := Str.strip (Str.slice_from line 8) in
      if negb (Num.is_nil rest_of_line)
         && Str.contains (txt "=") rest_of_line
      then Done (store_all store_in_region st (extract_opcodes rest_of_line))
      else Done st
    else if Str.contains (txt "=") line then
      Done (store_all store_opcode st (extract_opcodes line))
    else Done st.

(** [for raw_line in f: self.process_line(raw_line.strip(), ...)] *)
Fixpoint for_lines (step : parser -> pystr -> outcome parser)
    (st : parser) (ls : list pystr) : outcome parser :=
  match ls with
  | [] => Done st
  | raw_line :: ls' =>
      match step st (Str.strip raw_line) with
      | Done st' => for_lines step st' ls'
      | r => r
      end
  end.

(** [parse_file]. [fuel] bounds the depth of the inclusions. *)
Fixpoint parse_file (fuel : nat) (st : parser) (filepath : pystr)
    : outcome parser :=
  match fuel with
  | O => OutOfFuel
  | S fuel' =>
      match resolve_error fs filepath with
      | Some e => Raised e st
      | None =>
          let filepath := resolve fs filepath in
          if decide (filepath ∈ processed_files st) then Done st
          else
            match files fs !! filepath with
            | None =>
                match exists_error fs filepath with
                | Some e => Raised e st
                | None => Done (emit (FileNotFound filepath) st)
                end
            | Some nd =>
                let st := add_processed filepath st in
                match nd with
                | Unreadable => Raised OSError st
                | Lines ls =>
                    for_lines
                      (fun st line =>
                         process_line (parse_file fuel') st line
                                      (parent fs filepath))
                      (emit (Opened filepath) st) ls
                end
            end
      end
  end.

End Parser.

(** ** [normalize] and [main] *)

Record envelope : Type := MkEnvelope {
  attack : pyvalue;
  decay : pyvalue;
  sustain : pyvalue;
  release : pyvalue
}.

(** The object [norm] built for a region; [sample] is [None] when the
    region has no sample. *)
Record descriptor : Type := MkDescriptor {
  sample : option pyvalue;
  key_range : pyvalue * pyvalue;
  vel_range : pyvalue * pyvalue;
  root_key : pyvalue;
  tune : pyvalue;
  volume : pyvalue;
  loop_mode : pyvalue;
  amp_env : envelope
}.

Record document : Type := MkDocument {
  doc_control : dict;
  doc_regions : list descriptor
}.

Inductive result (A : Type) : Type :=
| Ok (a : A)
| Err (e : exn).
Arguments Ok {A} a.
Arguments Err {A} e.

(** [d.get(key, default)] *)
Definition get (d : dict) (key : string) (dflt : pyvalue) : pyvalue :=
  default dflt (d !! txt key).

Definition float_0 : pyvalue := VFloat (MkFloat false 0 0).
Definition float_1 : pyvalue := VFloat (MkFloat false 1 0).

Section Normalize.

Variable fs : filesystem.

(** The sample of a region. Joining a path with a number, and making a
    path of a number, raise [TypeError]; a number has no [replace]. *)
Definition normalize_sample (default_path : pyvalue) (region : dict)
    : result (option pyvalue) :=
  match region !! txt "sample" with
  | None => Ok None
  | Some smp =>
      if truthy smp && truthy default_path then
        match default_path, smp with
        | VStr dp, VStr s =>
            Ok (Some (VStr (Str.replace (joinpath fs dp s)
                                        [backslash] (txt "/"))))
        | _, _ => Err TypeError
        end
      else if truthy smp then
        match smp with
        | VStr s => Ok (Some (VStr (Str.replace s [backslash] (txt "/"))))
        | _ => Err AttributeError
        end
      else Ok (Some smp)
  end.

Definition normalize_region (default_path : pyvalue) (region : dict)
    : result descriptor :=
  match normalize_sample default_path region with
  | Err e => Err e
  | Ok smp =>
      Ok (MkDescriptor
            smp
            (get region "lokey" (VInt 0), get region "hikey" (VInt 127))
            (get region "lovel" (VInt 0), get region "hivel" (VInt 127))
            (get region "pitch_keycenter" (get region "lokey" (VInt 60)))
            (get region "tune" (VInt 0))
            (get region "volume" (VInt 0))
            (get region "loop_mode" (VStr (txt "one_shot")))
            (MkEnvelope
               (get region "ampeg_attack" float_0)
               (get region "ampeg_decay" float_0)
               (get region "ampeg_sustain" float_1)
               (get region "ampeg_release" float_0)))
  end.

(** The body of the two nested loops, over the regions in the order the
    loops meet them; the first exception ends them. *)
Fixpoint normalize_all (default_path : pyvalue) (rs : list dict)
    : result (list descriptor) :=
  match rs with
  | [] => Ok []
  | region :: rs' =>
      match normalize_region default_path region with
      | Err e => Err e
      | Ok norm =>
          match normalize_all default_path rs' with
          | Err e => Err e
          | Ok ns => Ok (norm :: ns)
          end
      end
  end.

(** The regions of the document, group after group. *)
Definition all_regions (st : parser) : list dict :=
  flat_map regions (data_groups st).

Definition normalize (st : parser) : result document :=
  let default_path := get (data_control st) "default_path" (VStr []) in
  match normalize_all default_path (all_regions st) with
  | Err e => Err e
  | Ok ns => Ok (MkDocument (data_control st) ns)
  end.

(** What a run of the script comes to: the usage text, the document it
    writes, with the file it writes it to and what it did on the way, or
    an exception nobody catches. *)
Inductive run : Type :=
| Usage
| Written (output_file : pystr) (doc : document) (tr : list event)
| Uncaught (e : exn)
| Unfinished.

(** [main], with [argv] for [sys.argv]. *)
Definition main (fuel : nat) (argv : list pystr) : run :=
  match argv with
  | _ :: sfz_file :: _ =>
      match parse_file fs fuel new_parser sfz_file with
      | Done st =>
          match normalize st with
          | Ok normalized =>
              match with_suffix fs sfz_file with
              | None => Uncaught ValueError
              | Some output_file =>
                  match write_error fs output_file with
                  | Some e => Uncaught e
                  | None => Written output_file normalized (trace st)
                  end
              end
          | Err e => Uncaught e
          end
      | Raised e _ => Uncaught e
      | OutOfFuel => Unfinished
      end
  | _ => Usage
  end.

End Normalize.

(** The name of the output for a name that has a suffix of three
    letters, as the names of the examples have. *)
Definition json_name (p : pystr) : pystr :=
  take (length p - 3) p ++ txt "json".

(** A file system for the examples: a flat directory in which every path
    is its own resolved form, no operation raises and every file can be
    written. *)
Definition flat_fs (fl : list (string * list pystr)) : filesystem :=
  MkFs (list_to_map (map (fun nf => (txt (fst nf), Lines (snd nf))) fl))
       (fun p => p) (fun _ p => p) (fun _ => [])
       (fun _ => None) (fun _ => None) (fun p => Some (json_name p))
       (fun _ => None).

Definition lines_fs (ls : list string) : filesystem :=
  flat_fs [("a.sfz", map txt ls)].

(** An inclusion line: the directive and the path between quotes. *)
Definition include_of (path : pystr) : pystr :=
  txt "#include " ++ [quote] ++ path ++ [quote].

Definition include_line (name : string) : pystr := include_of (txt name).

(** The path an inclusion of [path] gives to [resolve], for a line of a
    file of the directory [base_path]. *)
Definition include_joined (fs : filesystem) (st : parser)
    (base_path path : pystr) : pystr :=
  joinpath fs base_path
    (Str.replace (substitute (defines st) path) [backslash] (txt "/")).

(** The file an inclusion of [path] names, for a line of a file of the
    directory [base_path]: what [include_file] is in the source. *)
Definition include_target (fs : filesystem) (st : parser)
    (base_path path : pystr) : pystr :=
  resolve fs
    (joinpath fs base_path
       (Str.replace (substitute (defines st) path) [backslash] (txt "/"))).

Definition parsed (ls : list string) : outcome parser :=
  parse_file (lines_fs ls) 2 new_parser (txt "a.sfz").

Definition nul : ascii := "000"%char.

(** The same directory with the errors of a POSIX system: [resolve]
    refuses a path that holds a NUL, and the test of existence a name of
    more than 255 characters. *)
Definition posix_fs (fl : list (string * list pystr)) : filesystem :=
  MkFs (files (flat_fs fl)) (fun p => p) (fun _ p => p) (fun _ => [])
       (fun p => if existsb (chr_eqb nul) p then Some ValueError else None)
       (fun p => if (255 <? length p)%nat then Some OSError else None)
       (fun p => Some (json_name p)) (fun _ => None).

(** An empty disk on which no file can be opened for writing: the
    directory of the output is not there. *)
Definition missing_dir_fs : filesystem :=
  MkFs ∅ (fun p => p) (fun _ p => p) (fun _ => [])
       (fun _ => None) (fun _ => None) (fun p => Some (json_name p))
       (fun _ => Some OSError).

(** ** Definitions for the statements

    The projections of the parser and of its trace and the invariants the
    properties speak of, the operations as the specification words them,
    and the inputs of the examples. *)

(** The root key the specification gives a region: [pitch_keycenter] when
    the region has it, else [lokey] when it has it, else 60. *)
Definition spec_root_key (region : dict) : pyvalue :=
  match region !! txt "pitch_keycenter" with
  | Some v => v
  | None =>
      match region !! txt "lokey" with
      | Some v => v
      | None => VInt 60
      end
  end.

Definition not_numbers : list string :=
  ["1__0"; "_1"; "1_"; "+ 5"; "."; "1.5e"; "1e5"; "+-1."; "1._5"; "1_.5";
   "1.5_e3"; "1.5e_3"; "inf."; "0x10"; "C:/samples/kick.wav"].

Definition end_to_end_lines : list string :=
  ["<global>"; "ampeg_release=0.5"; "<group>";
   "<region> sample=a.wav ampeg_release=0.1"; "<region> sample=b.wav"].

Definition three_regions : list string :=
  ["<region> sample=a.wav pitch_keycenter=64 lokey=36";
   "<region> sample=b.wav lokey=48";
   "<region> sample=c.wav"].

Definition state_of (r : outcome parser) : parser :=
  match r with
  | Done st => st
  | Raised _ st => st
  | OutOfFuel => new_parser
  end.

Definition document_of (r : result document) : document :=
  match r with
  | Ok doc => doc
  | Err _ => MkDocument ∅ []
  end.

(** The two ranges [normalize] gives a region, with 0 and 127 for the
    bounds the region does not have. *)
Definition ranges_of (region : dict) (norm : descriptor) : Prop :=
  key_range norm
    = (default (VInt 0) (region !! txt "lokey"),
       default (VInt 127) (region !! txt "hikey"))
  /\ vel_range norm
    = (default (VInt 0) (region !! txt "lovel"),
       default (VInt 127) (region !! txt "hivel"))
  /\ (region !! txt "lokey" = None -> region !! txt "hikey" = None ->
      key_range norm = (VInt 0, VInt 127))
  /\ (region !! txt "lovel" = None -> region !! txt "hivel" = None ->
      vel_range norm = (VInt 0, VInt 127)).

Definition two_ranges : list string :=
  ["<region> sample=a.wav"; "<region> sample=b.wav lokey=36 hivel=100"].

Definition is_number (v : pyvalue) : bool :=
  match v with
  | VInt _ | VFloat _ => true
  | VStr _ => false
  end.

(** The exception the sample of a region can raise under a given default
    path. *)
Definition sample_error (default_path : pyvalue) : exn :=
  if truthy default_path then TypeError else AttributeError.

Definition numeric_sample : list string := ["<region> sample=123"].

Definition numeric_sample_with_path : list string :=
  ["<control>"; "default_path=samples/"; "<region> sample=123"].

Definition zero_sample : list string :=
  ["<region> sample=0"; "<region> sample=0.0"].

Definition dangling_equals : list string := ["<global>"; "=5"].

(** What is left of the text after a marker once the comment is gone. *)
Definition after_marker (rest : pystr) : pystr :=
  if Str.contains (txt "//") rest
  then Str.rstrip_by is_space (Str.split_head rest (txt "//"))
  else rest.

(** The tokenizer as the specification words it: the key of an [=] is the
    run of characters that are not white space and that come right before
    it, and its value is the text from the [=] to the next key, or to the
    end of the line. *)
Definition run_before (s : pystr) : pystr :=
  fold_left (fun run c => if is_space c then [] else run ++ [c]) s [].

Fixpoint spec_loop (fuel : nat) (line : pystr) (i : Z)
    : option (list (pystr * pystr)) :=
  if i <? Str.len line then
    match fuel with
    | O => None
    | S fuel' =>
        let eq := Str.find "="%char line i in
        if eq =? -1 then Some []
        else
          let key := run_before (Str.slice line 0 eq) in
          match Re.search next_key_re (Str.slice_from line (eq + 1)) with
          | Some (start, _) =>
              let next := eq + 1 + start in
              option_map (cons (key, Str.slice line (eq + 1) next))
                         (spec_loop fuel' line next)
          | None =>
              option_map (cons (key, Str.slice_from line (eq + 1)))
                         (spec_loop fuel' line (Str.len line))
          end
    end
  else Some [].

Definition spec_opcodes (line : pystr) : list (pystr * pystr) :=
  default [] (spec_loop (S (length line)) line 0).

Definition strip_value (kv : pystr * pystr) : pystr * pystr :=
  (fst kv, Str.strip (snd kv)).

(** The only white space of a text is the space. *)
Definition space_only (s : pystr) : Prop :=
  Forall (fun c => is_space c = true -> c = " "%char) s.

Definition tab : ascii := "009"%char.

Definition tabbed_line : pystr := txt "a= 1" ++ [tab] ++ txt "b=2".






(** Every state change of the line processor is one of these. *)
Inductive line_effect (fs : filesystem)
    (parse : parser -> pystr -> outcome parser) (st : parser)
    : outcome parser -> Prop :=
| eff_none : line_effect fs parse st (Done st)
| eff_define d : line_effect fs parse st (Done (set_defines d st))
| eff_include file :
    is_Some (files fs !! file) -> line_effect fs parse st (parse st file)
| eff_include_missing file :
    line_effect fs parse st (Done (emit (IncludeNotFound file) st))
| eff_raise e : line_effect fs parse st (Raised e st)
| eff_control : line_effect fs parse st (Done (set_section SecControl st))
| eff_global : line_effect fs parse st (Done (set_section SecGlobal st))
| eff_group : line_effect fs parse st (Done (open_group st))
| eff_region toks :
    line_effect fs parse st
      (Done (store_all store_in_region (open_region st) toks))
| eff_opcodes toks :
    line_effect fs parse st (Done (store_all store_opcode st toks)).

(** The parser an outcome carries satisfies [I]. *)
Definition holds (I : parser -> Prop) (r : outcome parser) : Prop :=
  match r with
  | Done st | Raised _ st => I st
  | OutOfFuel => True
  end.

(** The files opened for reading, in the order they were opened. *)
Fixpoint opened (tr : list event) : list pystr :=
  match tr with
  | [] => []
  | Opened p :: tr' => p :: opened tr'
  | _ :: tr' => opened tr'
  end.

(** No file was opened twice, and every opened file is marked. *)
Definition read_once (st : parser) : Prop :=
  NoDup (opened (trace st))
  /\ forall p, p ∈ opened (trace st) -> p ∈ processed_files st.

(** The files of the disk the parser has not marked yet. *)
Definition unprocessed (fs : filesystem) (st : parser) : nat :=
  size (dom (files fs) ∖ processed_files st).

(** The marks and the trace are the same in both parsers. *)
Definition same_io (st st' : parser) : Prop :=
  processed_files st' = processed_files st /\ trace st' = trace st.

(** The marks only grow. *)
Definition marks_from (st0 st : parser) : Prop :=
  processed_files st0 ⊆ processed_files st.

(** A file that includes itself, a cycle through [c.sfz], and [d.sfz]
    reached twice. *)
Definition cycle_fs : filesystem :=
  flat_fs
    [("a.sfz", [include_line "b.sfz"; include_line "c.sfz";
                include_line "a.sfz"; txt "<region> sample=a.wav"]);
     ("b.sfz", [include_line "d.sfz"; txt "<region> sample=b.wav"]);
     ("c.sfz", [include_line "d.sfz"; include_line "a.sfz";
                txt "<region> sample=c.wav"]);
     ("d.sfz", [txt "<region> sample=d.wav"])].

(** The opcodes of the group that is current, none when no group is. *)
Definition current_opcodes (st : parser) : dict :=
  match current_group st with
  | Some g => default ∅ (opcodes <$> data_groups st !! g)
  | None => ∅
  end.

(** The reference to the current group points into the list of groups. *)
Definition group_in_range (st : parser) : Prop :=
  forall g, current_group st = Some g -> (g < length (data_groups st))%nat.

(** The region at [(g, r)] is [region], and the parser is not in the
    section of that region: it has left it for another section, or it has
    opened another region since. *)
Definition frozen (g r : nat) (region : dict) (st : parser) : Prop :=
  region_at st g r = Some region
  /\ ~ (current_section st = Some SecRegion
        /\ current_region st = Some (g, r)).

(** The same, when the region is not even the one [current_region] refers
    to. *)
Definition detached (g r : nat) (region : dict) (st : parser) : Prop :=
  region_at st g r = Some region /\ current_region st <> Some (g, r).

Definition snapshot_lines : list string :=
  ["<global>"; "volume=-3"; "<group>"; "loop_mode=loop";
   "<region> sample=a.wav"; "<global>"].

Definition snapshot_region : dict :=
  {[ txt "volume" := VInt (-3); txt "loop_mode" := VStr (txt "loop");
     txt "sample" := VStr (txt "a.wav") ]}.

(** ** Definitions for the further properties *)

(** An opcode as it is written, and a line of opcodes with one space
    between two of them. *)
Definition opcode_text (kv : pystr * pystr) : pystr :=
  fst kv ++ "="%char :: snd kv.

Fixpoint opcodes_line (kvs : list (pystr * pystr)) : pystr :=
  match kvs with
  | [] => []
  | kv :: rest =>
      match rest with
      | [] => opcode_text kv
      | _ :: _ => opcode_text kv ++ " "%char :: opcodes_line rest
      end
  end.

(** A key made of word characters, and a value with no [=] and no white
    space at its ends; the value may hold spaces. *)
Definition plain_opcode (kv : pystr * pystr) : Prop :=
  fst kv <> [] /\ Forall (fun c => is_word c = true) (fst kv)
  /\ Forall (fun c => c <> "="%char) (snd kv)
  /\ Str.strip (snd kv) = snd kv.

(** What a line that hands no file to [parse_file] does to the parser. *)
Inductive local_step (fs : filesystem) (st : parser) : parser -> Prop :=
| step_none : local_step fs st st
| step_define key value :
    local_step fs st (set_defines (dict_set (defines st) key value) st)
| step_include_missing file :
    files fs !! file = None ->
    local_step fs st (emit (IncludeNotFound file) st)
| step_control : local_step fs st (set_section SecControl st)
| step_global : local_step fs st (set_section SecGlobal st)
| step_group : local_step fs st (open_group st)
| step_region toks :
    local_step fs st (store_all store_in_region (open_region st) toks)
| step_opcodes toks : local_step fs st (store_all store_opcode st toks).

(** Every mark is the mark of a file that was opened. *)
Definition marks_opened (st : parser) : Prop :=
  forall p, p ∈ processed_files st -> p ∈ opened (trace st).

(** The names of the macros, in the order the substitution takes them. *)
Definition macro_names (st : parser) : list pystr := map fst (defines st).

Definition macro_lines : list string :=
  ["#define $A 1"; "#define $B 2"; "#define $A 3"].

(** A [#define] line as it is written: the directive, white space, the
    name after its [$], white space, the text. *)
Definition define_line (sp1 name sp2 text : pystr) : pystr :=
  txt "#define" ++ sp1 ++ "$"%char :: name ++ sp2 ++ text.

(** The parser after a [<region>] line with nothing to inherit and no
    opcode on the line: the region is an empty [dict]. *)
Definition in_empty_region (st : parser) : Prop :=
  current_section st = Some SecRegion
  /\ exists g r, current_region st = Some (g, r)
                 /\ region_at st g r = Some ∅.

Definition bare_region : list string := ["<region>"].

(** The sample of the region raises nothing in [normalize]: it is absent,
    or false as a condition, or it is a string and then the default path,
    when it is true as a condition, is a string too. *)
Definition sample_is_path (default_path : pyvalue) (region : dict) : Prop :=
  forall v, region !! txt "sample" = Some v -> truthy v = true ->
            is_number v = false
            /\ (truthy default_path = true -> is_number default_path = false).

Definition windows_paths : list string :=
  ["<region> sample=drums\kick.wav lokey=36"; "<region> lokey=40"].

(** The line, as the file gives it, opens a region, or includes a file:
    what the line processor tests, on the line without the white space
    around it and without its comment. *)
Definition is_region_line (raw : pystr) : bool :=
  Str.startswith (remove_inline_comment (Str.strip raw)) (txt "<region>").

Definition is_include_line (raw : pystr) : bool :=
  Str.startswith (remove_inline_comment (Str.strip raw)) (txt "#include").

Fixpoint region_lines (ls : list pystr) : nat :=
  match ls with
  | [] => O
  | raw :: ls' =>
      if is_region_line raw then S (region_lines ls') else region_lines ls'
  end.

Definition kit_lines : list string :=
  ["// a small kit"; "<control>"; "default_path=kit/"; "";
   "<global> volume=-3"; "<group>"; "loop_mode=one_shot";
   "  <region> sample=kick.wav key=36 // the kick";
   "<region> sample=snare.wav"; "key=38"; "<master>";
   "<region>sample=hat.wav"; "#define $X <region>"].

(** The decimal writing of an integer, as [str] gives it: the digits
    without a leading zero, after a [-] when the integer is negative. *)
Definition decimal (n : Z) : pystr :=
  txt (DecimalString.NilZero.string_of_int (Z.to_int n)).

(** The text the last opcode of the line with this key gives, if any. *)
Fixpoint last_value (key : pystr) (toks : list (pystr * pystr))
    : option pystr :=
  match toks with
  | [] => None
  | kv :: rest =>
      match last_value key rest with
      | Some v => Some v
      | None => if decide (fst kv = key) then Some (snd kv) else None
      end
  end.

Definition precedence_lines : list string :=
  ["<global>"; "volume=-3 tune=5"; "<group>"; "volume=-6 pan=10"].

(** What stands before an [=] that has no key: nothing, or a text that
    ends with a space, as in [sample = 5]. *)
Definition keyless (pre : pystr) : Prop :=
  pre = [] \/ exists w, pre = w ++ [" "%char].

(** The same for a line of a file: when there is a text before the [=] it
    starts with a word character. *)
Definition keyless_line (pre : pystr) : Prop :=
  pre = [] \/ exists a w, pre = a :: w ++ [" "%char] /\ is_word a = true.

Definition spaced_equals : list string := ["<global>"; "sample = 5"].




(** * Properties *)

(** ** Evaluations *)

Example extract_opcodes_spaces :
  extract_opcodes (txt "sample=My Piano.wav lovel=0")
  = [(txt "sample", txt "My Piano.wav"); (txt "lovel", txt "0")].
Proof. vm_compute. reflexivity. Qed.

Example parse_value_quoted :
  parse_value (quote :: txt " 12 " ++ [quote]) = VInt 12.
Proof. vm_compute. reflexivity. Qed.

Example parse_value_floats :
  map parse_value (map txt ["1_0.5"; "1.5e3_0"; ".5"; "-1."])
  = map VFloat [MkFloat false 105 (-1); MkFloat false 15 29;
                MkFloat false 5 (-1); MkFloat true 1 0].
Proof. vm_compute. reflexivity. Qed.

Example parse_value_integers :
  map parse_value (map txt ["+5"; "-0"; "0_7"; "00"; "-12"])
  = map VInt [5; 0; 7; 0; -12].
Proof. vm_compute. reflexivity. Qed.

Example parse_value_strings :
  map parse_value (map txt not_numbers) = map VStr (map txt not_numbers).
Proof. vm_compute. reflexivity. Qed.

Example truthy_values :
  map (fun s => truthy (parse_value (txt s)))
      ["1.0e-400"; "0.0"; "-0.0"; "1.0e999"; ".5"; "0"; "3"; "x"]
  = [false; false; false; true; true; false; true; true].
Proof. vm_compute. reflexivity. Qed.

(** The macros are replaced in the order of the table, each in the text
    the macros before it have left. *)
Example substitute_in_order :
  substitute [(txt "A", txt "$B"); (txt "B", txt "x")] (txt "$A/$B")
  = txt "x/x"
  /\ substitute [(txt "B", txt "x"); (txt "A", txt "$B")] (txt "$A/$B")
     = txt "$B/x".
Proof. split; vm_compute; reflexivity. Qed.

(** A region that inherits nothing and has no opcode on its own line is an
    empty [dict], which is false: the opcode lines under it store
    nothing. *)
Example bare_region_stays_empty :
  all_regions (state_of (parsed ["<region>"; "sample=a.wav"])) = [∅]
  /\ all_regions (state_of (parsed ["<region> lokey=1"; "sample=a.wav"]))
     = [{[ txt "lokey" := VInt 1; txt "sample" := VStr (txt "a.wav") ]}].
Proof. split; vm_compute; reflexivity. Qed.

(** The end-to-end example of the specification. *)
Example release_is_inherited :
  map (fun norm => release (amp_env norm))
      (doc_regions
         (document_of
            (normalize (lines_fs end_to_end_lines)
                       (state_of (parsed end_to_end_lines)))))
  = [VFloat (MkFloat false 1 (-1)); VFloat (MkFloat false 5 (-1))].
Proof. vm_compute. reflexivity. Qed.

(** ** The normalizer *)

Section NormalizeFacts.

Variable fs : filesystem.

Lemma normalize_all_Forall2 dp rs ns :
  normalize_all fs dp rs = Ok ns ->
  Forall2 (fun region norm => normalize_region fs dp region = Ok norm) rs ns.
Proof.
  revert ns. induction rs as [|region rs IH]; intros ns H; simpl in H.
  - inversion H. constructor.
  - destruct (normalize_region fs dp region) as [norm|e] eqn:E; [|discriminate].
    destruct (normalize_all fs dp rs) as [ns'|e]; [|discriminate].
    inversion H; subst. constructor; auto.
Qed.

Lemma normalize_regions st doc :
  normalize fs st = Ok doc ->
  Forall2
    (fun region norm =>
       normalize_region fs (get (data_control st) "default_path" (VStr []))
                        region = Ok norm)
    (all_regions st) (doc_regions doc).
Proof.
  unfold normalize. intros H.
  destruct (normalize_all fs _ (all_regions st)) as [ns|e] eqn:E;
    [|discriminate].
  inversion H; subst; simpl. now apply normalize_all_Forall2.
Qed.

Lemma normalize_region_fields dp region norm :
  normalize_region fs dp region = Ok norm ->
  key_range norm
    = (get region "lokey" (VInt 0), get region "hikey" (VInt 127))
  /\ vel_range norm
    = (get region "lovel" (VInt 0), get region "hivel" (VInt 127))
  /\ root_key norm
    = get region "pitch_keycenter" (get region "lokey" (VInt 60)).
Proof.
  unfold normalize_region. intros H.
  destruct (normalize_sample fs dp region); [|discriminate].
  inversion H; subst; simpl. auto.
Qed.

End NormalizeFacts.

(** C6. In the document [normalize] returns, the descriptors stand for the
    regions of the parsed document one for one and in order, and the root
    key of each is the [pitch_keycenter] of its region when the region has
    one, else its [lokey] when it has one, else 60. *)
Theorem root_key_fallback (fs : filesystem) (st : parser) (doc : document) :
  normalize fs st = Ok doc ->
  Forall2 (fun region norm => root_key norm = spec_root_key region)
          (all_regions st) (doc_regions doc).
Proof.
  intros H. apply normalize_regions in H.
  eapply Forall2_impl; [exact H|].
  intros region norm Hn. apply normalize_region_fields in Hn.
  destruct Hn as (_ & _ & ->).
  unfold spec_root_key, get.
  destruct (region !! txt "pitch_keycenter"); simpl; [reflexivity|].
  destruct (region !! txt "lokey"); reflexivity.
Qed.

Lemma root_key_fallback_witness :
  let st := state_of (parsed three_regions) in
  let doc := document_of (normalize (lines_fs three_regions) st) in
  normalize (lines_fs three_regions) st = Ok doc
  /\ map root_key (doc_regions doc) = [VInt 64; VInt 48; VInt 60]
  /\ Forall2 (fun region norm => root_key norm = spec_root_key region)
             (all_regions st) (doc_regions doc).
Proof.
  intros st doc.
  assert (H : normalize (lines_fs three_regions) st = Ok doc)
    by (vm_compute; reflexivity).
  split; [exact H|]. split; [vm_compute; reflexivity|].
  exact (root_key_fallback (lines_fs three_regions) st doc H).
Defined.

(** ** A sample that is a number *)

Section SampleFacts.

Variable fs : filesystem.

Lemma normalize_sample_error dp region e :
  normalize_sample fs dp region = Err e -> e = sample_error dp.
Proof.
  unfold normalize_sample, sample_error.
  destruct (region !! txt "sample") as [smp|]; [|discriminate].
  destruct (truthy smp), (truthy dp); simpl;
    destruct dp, smp; congruence.
Qed.

Lemma normalize_sample_number dp region v :
  region !! txt "sample" = Some v -> is_number v = true ->
  truthy v = true ->
  normalize_sample fs dp region = Err (sample_error dp).
Proof.
  unfold normalize_sample, sample_error. intros -> Hn Ht. rewrite Ht.
  destruct (truthy dp); simpl; destruct dp, v; simpl in *; congruence.
Qed.

Lemma normalize_sample_zero dp region v :
  region !! txt "sample" = Some v -> truthy v = false ->
  normalize_sample fs dp region = Ok (Some v).
Proof.
  unfold normalize_sample. intros -> Ht. rewrite Ht. reflexivity.
Qed.

Lemma normalize_all_number dp rs :
  Exists (fun region =>
            exists v, region !! txt "sample" = Some v
                      /\ is_number v = true /\ truthy v = true) rs ->
  normalize_all fs dp rs = Err (sample_error dp).
Proof.
  induction rs as [|region rs IH]; intros H.
  - inversion H.
  - simpl. unfold normalize_region at 1.
    destruct (normalize_sample fs dp region) as [smp|e] eqn:E.
    + apply Exists_cons in H as [(v & Hs & Hn & Ht)|H].
      * rewrite (normalize_sample_number _ _ _ Hs Hn Ht) in E. discriminate.
      * rewrite (IH H). reflexivity.
    + apply normalize_sample_error in E. now subst.
Qed.

End SampleFacts.

(** C10, as the code has it. When a region of the document has a sample
    that is a number other than zero, [normalize] raises and returns no
    document: [TypeError] when the [default_path] of the control scope is
    true (a string that is not empty, or a number other than zero), and
    [AttributeError] when it is absent or false. *)
Theorem normalize_numeric_sample (fs : filesystem) (st : parser) :
  Exists (fun region =>
            exists v, region !! txt "sample" = Some v
                      /\ is_number v = true /\ truthy v = true)
         (all_regions st) ->
  normalize fs st
  = Err (sample_error (get (data_control st) "default_path" (VStr []))).
Proof.
  intros H. unfold normalize.
  rewrite (normalize_all_number fs _ _ H). reflexivity.
Qed.

Lemma normalize_numeric_sample_witness :
  all_regions (state_of (parsed numeric_sample))
    = [{[ txt "sample" := VInt 123 ]}]
  /\ normalize (lines_fs numeric_sample) (state_of (parsed numeric_sample))
     = Err AttributeError
  /\ normalize (lines_fs numeric_sample_with_path)
               (state_of (parsed numeric_sample_with_path))
     = Err TypeError.
Proof.
  split; [vm_compute; reflexivity|]. split.
  - apply (normalize_numeric_sample (lines_fs numeric_sample)
             (state_of (parsed numeric_sample))).
    apply Exists_exists. exists {[ txt "sample" := VInt 123 ]}.
    split; [vm_compute; left; reflexivity|].
    exists (VInt 123). repeat split; vm_compute; reflexivity.
  - apply (normalize_numeric_sample (lines_fs numeric_sample_with_path)
             (state_of (parsed numeric_sample_with_path))).
    apply Exists_exists. exists {[ txt "sample" := VInt 123 ]}.
    split; [vm_compute; left; reflexivity|].
    exists (VInt 123). repeat split; vm_compute; reflexivity.
Defined.

(** The claim of C10 fails for a sample that is the number zero: the
    region holds the integer 0, or the float 0.0, under [sample], and
    [normalize] returns a descriptor for it. *)
Lemma numeric_sample_zero_is_emitted :
  all_regions (state_of (parsed zero_sample))
  = [{[ txt "sample" := VInt 0 ]};
     {[ txt "sample" := VFloat (MkFloat false 0 (-1)) ]}]
  /\ exists doc,
       normalize (lines_fs zero_sample) (state_of (parsed zero_sample)) = Ok doc
       /\ map sample (doc_regions doc)
          = [Some (VInt 0); Some (VFloat (MkFloat false 0 (-1)))].
Proof.
  split; [vm_compute; reflexivity|].
  eexists. split; vm_compute; reflexivity.
Qed.

(** ** A top-level file that is missing *)

(** C4, as the code has it. When the file given to the script does not
    exist, [parse_file] raises what [resolve] or the test of existence
    raises on the path, if they do, and otherwise prints its message and
    returns without a change to the parser, as a line does for a missing
    inclusion. [main] then goes on: it normalizes the empty parser and
    opens the file of the same name with the suffix [.json] for writing.
    When that succeeds the empty document is written, no control opcode
    and no region; a failure surfaces from this last step only, when the
    output cannot be opened. *)
Theorem missing_input_is_not_fatal (fs : filesystem) (fuel : nat)
    (prog sfz_file : pystr) :
  files fs !! resolve fs sfz_file = None ->
  parse_file fs (S fuel) new_parser sfz_file
  = match resolve_error fs sfz_file with
    | Some e => Raised e new_parser
    | None =>
        match exists_error fs (resolve fs sfz_file) with
        | Some e => Raised e new_parser
        | None => Done (emit (FileNotFound (resolve fs sfz_file)) new_parser)
        end
    end
  /\ main fs (S fuel) [prog; sfz_file]
     = match resolve_error fs sfz_file with
       | Some e => Uncaught e
       | None =>
           match exists_error fs (resolve fs sfz_file) with
           | Some e => Uncaught e
           | None =>
               match with_suffix fs sfz_file with
               | None => Uncaught ValueError
               | Some output_file =>
                   match write_error fs output_file with
                   | Some e => Uncaught e
                   | None =>
                       Written output_file (MkDocument ∅ [])
                               [FileNotFound (resolve fs sfz_file)]
                   end
               end
           end
       end.
Proof.
  intros H.
  assert (Hp : parse_file fs (S fuel) new_parser sfz_file
               = match resolve_error fs sfz_file with
                 | Some e => Raised e new_parser
                 | None =>
                     match exists_error fs (resolve fs sfz_file) with
                     | Some e => Raised e new_parser
                     | None =>
                         Done (emit (FileNotFound (resolve fs sfz_file))
                                    new_parser)
                     end
                 end).
  { simpl. destruct (resolve_error fs sfz_file); [reflexivity|].
    destruct (decide (resolve fs sfz_file ∈ processed_files new_parser))
      as [Hin|_]; [simpl in Hin; set_solver|].
    rewrite H. reflexivity. }
  split; [exact Hp|]. unfold main. rewrite Hp.
  destruct (resolve_error fs sfz_file); [reflexivity|].
  destruct (exists_error fs (resolve fs sfz_file)); reflexivity.
Qed.

Lemma missing_input_is_not_fatal_witness :
  main (flat_fs []) 1 [txt "sfz_to_json.py"; txt "missing.sfz"]
  = Written (txt "missing.json") (MkDocument ∅ [])
            [FileNotFound (txt "missing.sfz")]
  /\ main missing_dir_fs 1 [txt "sfz_to_json.py"; txt "nodir/x.sfz"]
     = Uncaught OSError.
Proof.
  split.
  - apply (missing_input_is_not_fatal (flat_fs []) 0). vm_compute.
    reflexivity.
  - apply (missing_input_is_not_fatal missing_dir_fs 0). vm_compute.
    reflexivity.
Defined.

(** The claim of C4 fails: with no file at all on the disk, in a directory
    that can be written, the run ends with a document written, the empty
    one, and with no exception. *)
Lemma missing_input_writes_empty_document :
  main (flat_fs []) 1 [txt "sfz_to_json.py"; txt "missing.sfz"]
  = Written (txt "missing.json") (MkDocument ∅ [])
            [FileNotFound (txt "missing.sfz")]
  /\ forall e, main (flat_fs []) 1 [txt "sfz_to_json.py"; txt "missing.sfz"]
               <> Uncaught e.
Proof.
  split; [vm_compute; reflexivity|].
  intros e. vm_compute. discriminate.
Qed.

(** ** Facts about the operations of [str] *)

Section StrFacts.

Variable p : ascii -> bool.

Lemma rstrip_by_cons_keep a s :
  p a = false -> Str.rstrip_by p (a :: s) = a :: Str.rstrip_by p s.
Proof. intros H. simpl. rewrite H. destruct (Str.rstrip_by p s); auto. Qed.

Lemma rstrip_by_idemp s :
  Str.rstrip_by p (Str.rstrip_by p s) = Str.rstrip_by p s.
Proof.
  induction s as [|a s IH]; [reflexivity|]. simpl.
  destruct (Str.rstrip_by p s) as [|b r] eqn:E.
  - destruct (p a) eqn:Ea; [reflexivity|]. simpl. now rewrite Ea.
  - change (Str.rstrip_by p (a :: b :: r)) with
      (match Str.rstrip_by p (b :: r) with
       | [] => if p a then [] else [a]
       | r' => a :: r'
       end).
    rewrite IH. reflexivity.
Qed.

Lemma lstrip_by_idemp s :
  Str.lstrip_by p (Str.lstrip_by p s) = Str.lstrip_by p s.
Proof.
  induction s as [|a s IH]; [reflexivity|]. simpl.
  destruct (p a) eqn:Ea; [exact IH|]. simpl. now rewrite Ea.
Qed.

Lemma lstrip_rstrip_by s :
  Str.lstrip_by p (Str.rstrip_by p s) = Str.rstrip_by p (Str.lstrip_by p s).
Proof.
  induction s as [|a s IH]; [reflexivity|].
  destruct (p a) eqn:Ea.
  - simpl. rewrite Ea, <- IH.
    destruct (Str.rstrip_by p s) as [|b r]; simpl; now rewrite ?Ea.
  - rewrite rstrip_by_cons_keep by assumption. simpl. rewrite Ea.
    now rewrite rstrip_by_cons_keep.
Qed.

Lemma strip_by_idemp s :
  Str.strip_by p (Str.strip_by p s) = Str.strip_by p s.
Proof.
  unfold Str.strip_by.
  now rewrite lstrip_rstrip_by, rstrip_by_idemp, lstrip_by_idemp.
Qed.

Lemma strip_by_rstrip_by s :
  Str.strip_by p (Str.rstrip_by p s) = Str.strip_by p s.
Proof.
  unfold Str.strip_by. now rewrite lstrip_rstrip_by, rstrip_by_idemp.
Qed.

Lemma strip_by_none s :
  Forall (fun a => p a = false) s -> Str.strip_by p s = s.
Proof.
  unfold Str.strip_by. induction 1 as [|a s Ha Hs IH]; [reflexivity|].
  simpl Str.lstrip_by. rewrite Ha.
  rewrite rstrip_by_cons_keep by assumption. f_equal.
  destruct s as [|b s]; [reflexivity|].
  inversion Hs as [|? ? Hb _]; subst.
  simpl Str.lstrip_by in IH. now rewrite Hb in IH.
Qed.

End StrFacts.

Lemma chr_eqb_eq a b : chr_eqb a b = true <-> a = b.
Proof. apply Ascii.eqb_eq. Qed.

Lemma chr_eqb_neq a b : chr_eqb a b = false <-> a <> b.
Proof. apply Ascii.eqb_neq. Qed.

Lemma clamp_in_range n i : 0 <= i <= n -> Str.clamp n i = i.
Proof. unfold Str.clamp. intros H. destruct (Z.ltb_spec i 0); lia. Qed.

Lemma clamp_bounds n i : 0 <= n -> 0 <= Str.clamp n i <= n.
Proof. unfold Str.clamp. intros H. destruct (Z.ltb_spec i 0); lia. Qed.

Lemma len_nonneg s : 0 <= Str.len s.
Proof. unfold Str.len. lia. Qed.

Lemma find_at_range c s i :
  Str.find_at c s i = -1 \/ i <= Str.find_at c s i < i + Str.len s.
Proof.
  revert i. induction s as [|a s IH]; intros i; simpl; [now left|].
  unfold Str.len. simpl length.
  destruct (chr_eqb a c).
  - right. lia.
  - destruct (IH (i + 1)) as [H|H]; [now left|].
    right. unfold Str.len in H. lia.
Qed.

Lemma find_at_absent c s i :
  Forall (fun a => a <> c) s -> Str.find_at c s i = -1.
Proof.
  intros H. revert i. induction H as [|a s Ha _ IH]; intros i; simpl.
  - reflexivity.
  - apply chr_eqb_neq in Ha. now rewrite Ha.
Qed.

Lemma contains_char_false c s :
  Str.contains [c] s = false -> Forall (fun a => a <> c) s.
Proof.
  induction s as [|a s IH]; intros H; [constructor|].
  simpl in H. apply orb_false_iff in H as [H1 H2].
  rewrite andb_true_r in H1. constructor; [|auto].
  now apply chr_eqb_neq.
Qed.

Lemma find_range c s i :
  i < Str.len s ->
  Str.find c s i = -1
  \/ (i <= Str.find c s i < Str.len s /\ 0 <= Str.find c s i).
Proof.
  intros Hi. unfold Str.find.
  pose proof (clamp_bounds (Str.len s) i (len_nonneg s)) as Hc.
  destruct (find_at_range c (drop (Z.to_nat (Str.clamp (Str.len s) i)) s)
              (Str.clamp (Str.len s) i)) as [H|H]; [now left|].
  right. unfold Str.len in *. rewrite length_drop in H.
  assert (i <= Str.clamp (Z.of_nat (length s)) i).
  { unfold Str.clamp. destruct (Z.ltb_spec i 0); lia. }
  lia.
Qed.

Lemma find_absent c s i :
  Str.contains [c] s = false -> Str.find c s i = -1.
Proof.
  intros H. unfold Str.find. apply find_at_absent.
  apply Forall_drop. now apply contains_char_false.
Qed.

(** ** The loop of the tokenizer ends *)

Lemma search_at_range r s pos start m :
  Re.search_at r s pos = Some (start, m) -> pos <= start <= pos + Str.len s.
Proof.
  revert pos. induction s as [|a s IH]; intros pos; simpl.
  - destruct (Re.match_ r []); intros H; inversion H; subst.
    unfold Str.len; simpl; lia.
  - destruct (Re.match_ r (a :: s)).
    + intros H; inversion H; subst. pose proof (len_nonneg (a :: s)). lia.
    + intros H. apply IH in H. unfold Str.len in *. simpl length. lia.
Qed.

Lemma search_range r s start m :
  Re.search r s = Some (start, m) -> 0 <= start <= Str.len s.
Proof. intros H. apply search_at_range in H. lia. Qed.

Lemma extract_loop_eq fuel line i :
  extract_loop fuel line i =
  if i <? Str.len line then
    match fuel with
    | O => None
    | S fuel' =>
        let eq := Str.find "="%char line i in
        if eq =? -1 then Some []
        else
          let key_start := Str.rfind " "%char line 0 eq in
          let key := Str.strip (Str.slice line (key_start + 1) eq) in
          match Re.search next_key_re (Str.slice_from line (eq + 1)) with
          | Some (start, _) =>
              let value_end := eq + 1 + start in
              let value := Str.slice line (eq + 1) value_end in
              option_map (cons (key, Str.strip value))
                         (extract_loop fuel' line value_end)
          | None =>
              let value := Str.slice_from line (eq + 1) in
              option_map (cons (key, Str.strip value))
                         (extract_loop fuel' line (Str.len line))
          end
    end
  else Some [].
Proof. destruct fuel; reflexivity. Qed.

(** With as many turns as the line has characters the loop comes to its
    end, and more turns do not change what it returns. *)
Lemma extract_loop_total fuel line i :
  Str.len line - i <= Z.of_nat fuel ->
  exists toks, extract_loop fuel line i = Some toks.
Proof.
  revert i. induction fuel as [|fuel IH]; intros i Hf;
    rewrite extract_loop_eq; destruct (Z.ltb_spec i (Str.len line)) as [Hi|Hi];
    try (eexists; reflexivity); [lia|].
  cbv zeta.
  destruct (find_range "="%char line i Hi) as [He|[He He0]].
  - rewrite He. simpl. eexists; reflexivity.
  - destruct (Z.eqb_spec (Str.find "="%char line i) (-1)) as [E|_]; [lia|].
    destruct (Re.search next_key_re _) as [[start m]|] eqn:Es.
    + apply search_range in Es.
      destruct (IH (Str.find "="%char line i + 1 + start)) as [t Ht]; [lia|].
      rewrite Ht. eexists; reflexivity.
    + destruct (IH (Str.len line)) as [t Ht]; [lia|].
      rewrite Ht. eexists; reflexivity.
Qed.

Lemma extract_loop_more fuel fuel' line i toks :
  extract_loop fuel line i = Some toks -> (fuel <= fuel')%nat ->
  extract_loop fuel' line i = Some toks.
Proof.
  revert fuel' i toks. induction fuel as [|fuel IH]; intros fuel' i toks;
    rewrite (extract_loop_eq _ line i), (extract_loop_eq fuel' line i);
    destruct (i <? Str.len line); try congruence.
  intros H Hle. destruct fuel' as [|fuel']; [lia|].
  cbv zeta in *.
  destruct (_ =? -1); [exact H|].
  destruct (Re.search next_key_re _) as [[start m]|].
  - destruct (extract_loop fuel line _) as [t|] eqn:E; [|discriminate].
    rewrite (IH fuel' _ _ E); [exact H|lia].
  - destruct (extract_loop fuel line _) as [t|] eqn:E; [|discriminate].
    rewrite (IH fuel' _ _ E); [exact H|lia].
Qed.

Lemma extract_opcodes_loop line :
  extract_loop (S (length line)) line 0 = Some (extract_opcodes line).
Proof.
  unfold extract_opcodes.
  destruct (extract_loop_total (S (length line)) line 0) as [t Ht].
  - unfold Str.len. lia.
  - rewrite Ht. reflexivity.
Qed.

(** ** Opcodes on the line of a section marker *)

Lemma strip_cons_keep a s :
  is_space a = false -> Str.strip (a :: s) = a :: Str.rstrip_by is_space s.
Proof.
  intros H. unfold Str.strip, Str.strip_by. simpl. rewrite H.
  now apply rstrip_by_cons_keep.
Qed.

Lemma rstrip_cons_keep a s :
  is_space a = false ->
  Str.rstrip_by is_space (a :: s) = a :: Str.rstrip_by is_space s.
Proof. apply rstrip_by_cons_keep. Qed.

Lemma strip_after_marker rest :
  Str.strip (after_marker rest) = Str.strip (remove_inline_comment rest).
Proof.
  unfold after_marker, remove_inline_comment.
  destruct (Str.contains (txt "//") rest); [|reflexivity].
  unfold Str.strip. now rewrite strip_by_rstrip_by, strip_by_idemp.
Qed.

Ltac marker_step :=
  first [ rewrite strip_cons_keep by reflexivity
        | rewrite rstrip_cons_keep by reflexivity ].

Ltac marker_line :=
  unfold remove_inline_comment, after_marker; simpl;
  match goal with
  | |- context [Str.contains ?sep ?rest] =>
      destruct (Str.contains sep rest); simpl; [|reflexivity];
      repeat marker_step; reflexivity
  end.

Lemma comment_after_control rest :
  remove_inline_comment (txt "<control>" ++ rest)
  = txt "<control>" ++ after_marker rest.
Proof. marker_line. Qed.

Lemma comment_after_global rest :
  remove_inline_comment (txt "<global>" ++ rest)
  = txt "<global>" ++ after_marker rest.
Proof. marker_line. Qed.

Lemma comment_after_master rest :
  remove_inline_comment (txt "<master>" ++ rest)
  = txt "<master>" ++ after_marker rest.
Proof. marker_line. Qed.

Lemma comment_after_group rest :
  remove_inline_comment (txt "<group>" ++ rest)
  = txt "<group>" ++ after_marker rest.
Proof. marker_line. Qed.

Lemma comment_after_region rest :
  remove_inline_comment (txt "<region>" ++ rest)
  = txt "<region>" ++ after_marker rest.
Proof. marker_line. Qed.

Lemma slice_from_region rest :
  Str.slice_from (txt "<region>" ++ rest) 8 = rest.
Proof.
  unfold Str.slice_from. rewrite clamp_in_range.
  - reflexivity.
  - unfold Str.len. simpl length. lia.
Qed.

(** The branch each marker takes, whatever follows it on the line. *)
Lemma marker_lines (fs : filesystem)
    (parse : parser -> pystr -> outcome parser) (st : parser)
    (rest base_path : pystr) :
  process_line fs parse st (txt "<control>" ++ rest) base_path
    = Done (set_section SecControl st)
  /\ process_line fs parse st (txt "<global>" ++ rest) base_path
    = Done (set_section SecGlobal st)
  /\ process_line fs parse st (txt "<master>" ++ rest) base_path
    = Done (open_group st)
  /\ process_line fs parse st (txt "<group>" ++ rest) base_path
    = Done (open_group st)
  /\ process_line fs parse st (txt "<region>" ++ rest) base_path
    = Done (let rest_of_line := Str.strip (remove_inline_comment rest) in
            if negb (Num.is_nil rest_of_line)
               && Str.contains (txt "=") rest_of_line
            then store_all store_in_region (open_region st)
                           (extract_opcodes rest_of_line)
            else open_region st).
Proof.
  repeat split; unfold process_line.
  - rewrite comment_after_control. reflexivity.
  - rewrite comment_after_global. reflexivity.
  - rewrite comment_after_master. reflexivity.
  - rewrite comment_after_group. reflexivity.
  - rewrite comment_after_region.
    change (Num.is_nil (txt "<region>" ++ rest)) with false.
    change (Str.startswith (txt "<region>" ++ rest) (txt "//")) with false.
    cbv iota.
    set (line := txt "<region>" ++ after_marker rest).
    change (Str.startswith line (txt "#define")) with false.
    change (Str.startswith line (txt "#include")) with false.
    change (Str.startswith line (txt "<control>")) with false.
    change (Str.startswith line (txt "<global>")) with false.
    change (Str.startswith line (txt "<master>")) with false.
    change (Str.startswith line (txt "<group>")) with false.
    change (Str.startswith line (txt "<region>")) with true.
    subst line.
    cbv iota zeta.
    rewrite slice_from_region, strip_after_marker.
    destruct (negb _ && _); reflexivity.
Qed.

(** ** The tokenizer against its description *)

Lemma rfind_at_snoc c s a i last :
  Str.rfind_at c (s ++ [a]) i last
  = if chr_eqb a c then i + Str.len s else Str.rfind_at c s i last.
Proof.
  revert i last. induction s as [|b s IH]; intros i last; simpl.
  - unfold Str.len; simpl. destruct (chr_eqb a c); [lia|reflexivity].
  - rewrite IH. unfold Str.len. simpl length.
    destruct (chr_eqb a c); [lia|reflexivity].
Qed.

Lemma rfind_at_range c s :
  -1 <= Str.rfind_at c s 0 (-1) < Str.len s.
Proof.
  induction s as [|a s IH] using rev_ind.
  - unfold Str.len; simpl; lia.
  - rewrite rfind_at_snoc. unfold Str.len in *. rewrite length_app.
    simpl length. destruct (chr_eqb a c); lia.
Qed.

Lemma run_before_snoc s a :
  run_before (s ++ [a]) = if is_space a then [] else run_before s ++ [a].
Proof. unfold run_before. rewrite fold_left_app. reflexivity. Qed.

Lemma run_before_no_space s :
  Forall (fun c => is_space c = false) (run_before s).
Proof.
  induction s as [|a s IH] using rev_ind; [constructor|].
  rewrite run_before_snoc. destruct (is_space a) eqn:E; [constructor|].
  apply Forall_app. split; [exact IH|]. repeat constructor. exact E.
Qed.

Lemma drop_after_last_space s :
  space_only s ->
  drop (Z.to_nat (Str.rfind_at " "%char s 0 (-1) + 1)) s = run_before s.
Proof.
  unfold space_only.
  induction s as [|a s IH] using rev_ind; intros Hs; [reflexivity|].
  apply Forall_app in Hs as [Hs Ha]. inversion Ha as [|? ? Ha' _]; subst.
  rewrite rfind_at_snoc, run_before_snoc.
  destruct (chr_eqb a " "%char) eqn:E.
  - apply chr_eqb_eq in E. subst a. simpl is_space. cbv iota.
    unfold Str.len. rewrite drop_ge; [reflexivity|].
    rewrite length_app. simpl. lia.
  - apply chr_eqb_neq in E.
    destruct (is_space a) eqn:Ea; [now specialize (Ha' eq_refl)|].
    pose proof (rfind_at_range " "%char s) as Hr. unfold Str.len in Hr.
    rewrite drop_app_le by lia. rewrite IH by assumption. reflexivity.
Qed.

Lemma slice_prefix line e :
  0 <= e <= Str.len line -> Str.slice line 0 e = take (Z.to_nat e) line.
Proof.
  intros H. unfold Str.slice.
  rewrite (clamp_in_range _ 0), (clamp_in_range _ e) by lia.
  simpl. f_equal. lia.
Qed.

Lemma key_is_run_before line e :
  space_only line -> 0 <= e <= Str.len line ->
  Str.strip (Str.slice line (Str.rfind " "%char line 0 e + 1) e)
  = run_before (Str.slice line 0 e).
Proof.
  intros Hs He. unfold Str.rfind.
  rewrite (clamp_in_range _ 0) by (pose proof (len_nonneg line); lia).
  set (s := Str.slice line 0 e).
  assert (Hsl : s = take (Z.to_nat e) line) by now apply slice_prefix.
  pose proof (rfind_at_range " "%char s) as Hr.
  assert (Hlen : Str.len s = e).
  { rewrite Hsl. unfold Str.len in *. rewrite length_take. lia. }
  assert (Hd : Str.slice line (Str.rfind_at " "%char s 0 (-1) + 1) e
               = drop (Z.to_nat (Str.rfind_at " "%char s 0 (-1) + 1)) s).
  { unfold Str.slice.
    rewrite !clamp_in_range by lia.
    rewrite take_drop_commute.
    replace (Z.to_nat (Str.rfind_at " "%char s 0 (-1) + 1)
             + Z.to_nat (e - (Str.rfind_at " "%char s 0 (-1) + 1)))%nat
      with (Z.to_nat e) by lia.
    now rewrite <- Hsl. }
  rewrite Hd, drop_after_last_space.
  - unfold Str.strip. apply strip_by_none, run_before_no_space.
  - rewrite Hsl. now apply Forall_take.
Qed.

Lemma spec_loop_eq fuel line i :
  spec_loop fuel line i =
  if i <? Str.len line then
    match fuel with
    | O => None
    | S fuel' =>
        let eq := Str.find "="%char line i in
        if eq =? -1 then Some []
        else
          let key := run_before (Str.slice line 0 eq) in
          match Re.search next_key_re (Str.slice_from line (eq + 1)) with
          | Some (start, _) =>
              let next := eq + 1 + start in
              option_map (cons (key, Str.slice line (eq + 1) next))
                         (spec_loop fuel' line next)
          | None =>
              option_map (cons (key, Str.slice_from line (eq + 1)))
                         (spec_loop fuel' line (Str.len line))
          end
    end
  else Some [].
Proof. destruct fuel; reflexivity. Qed.

Lemma extract_loop_refines fuel line i :
  space_only line ->
  extract_loop fuel line i
  = option_map (map strip_value) (spec_loop fuel line i).
Proof.
  intros Hs. revert i. induction fuel as [|fuel IH]; intros i;
    rewrite extract_loop_eq, spec_loop_eq;
    destruct (Z.ltb_spec i (Str.len line)) as [Hi|Hi]; try reflexivity.
  cbv zeta.
  destruct (find_range "="%char line i Hi) as [He|[He He0]].
  - rewrite He. reflexivity.
  - destruct (Z.eqb_spec (Str.find "="%char line i) (-1)) as [E|_]; [lia|].
    rewrite key_is_run_before by (assumption || lia).
    destruct (Re.search next_key_re _) as [[start m]|];
      rewrite IH; destruct (spec_loop fuel line _); reflexivity.
Qed.

(** C3, as the code has it. On a line whose only white space is the
    space, the tokenizer returns, from left to right, a pair for each [=]
    it stops at: the key is the run of characters that are not spaces right
    before the [=], and the value is the text from the [=] to the start of
    the next white space, word, [=], or to the end of the line when there is
    none, without the white space around it. On the line
    [sample=My Piano.wav lovel=0] it returns the pairs of [sample] with
    [My Piano.wav] and of [lovel] with [0]. *)
Theorem tokenizer_on_spaces :
  (forall line,
     space_only line ->
     extract_opcodes line = map strip_value (spec_opcodes line))
  /\ extract_opcodes (txt "sample=My Piano.wav lovel=0")
     = [(txt "sample", txt "My Piano.wav"); (txt "lovel", txt "0")].
Proof.
  split; [|vm_compute; reflexivity].
  intros line Hs. unfold extract_opcodes, spec_opcodes.
  rewrite extract_loop_refines by assumption.
  destruct (spec_loop _ line 0); reflexivity.
Qed.

Lemma tokenizer_on_spaces_witness :
  space_only (txt "sample=My Piano.wav lovel=0")
  /\ spec_opcodes (txt "sample=My Piano.wav lovel=0")
     = [(txt "sample", txt "My Piano.wav"); (txt "lovel", txt "0")]
  /\ extract_opcodes (txt "sample=My Piano.wav lovel=0")
     = map strip_value (spec_opcodes (txt "sample=My Piano.wav lovel=0")).
Proof.
  assert (Hs : space_only (txt "sample=My Piano.wav lovel=0")).
  { unfold space_only. repeat constructor; vm_compute; intros H;
      first [reflexivity | discriminate]. }
  split; [exact Hs|]. split; [vm_compute; reflexivity|].
  exact (proj1 tokenizer_on_spaces (txt "sample=My Piano.wav lovel=0") Hs).
Defined.

(** The claim of C3 fails on a line with a tab between two opcodes and a
    space after an [=]: the second key the tokenizer returns holds the tab and
    the value before it, and the first value has lost its space. *)
Lemma tokenizer_tab_separated :
  extract_opcodes tabbed_line
  = [(txt "a", txt "1"); (txt "1" ++ [tab] ++ txt "b", txt "2")]
  /\ spec_opcodes tabbed_line = [(txt "a", txt " 1"); (txt "b", txt "2")]
  /\ extract_opcodes tabbed_line <> spec_opcodes tabbed_line.
Proof.
  split; [vm_compute; reflexivity|].
  split; [vm_compute; reflexivity|].
  vm_compute. discriminate.
Qed.

(** ** The resolution of a value *)

Lemma endswith_char s c :
  Str.endswith s [c] = bool_decide (last s = Some c).
Proof.
  unfold Str.endswith. simpl rev.
  destruct s as [|a s] using rev_ind; [reflexivity|].
  rewrite rev_app_distr, last_snoc. simpl.
  rewrite andb_true_r.
  destruct (chr_eqb a c) eqn:E.
  - apply chr_eqb_eq in E. subst. now rewrite bool_decide_eq_true_2.
  - apply chr_eqb_neq in E. rewrite bool_decide_eq_false_2; congruence.
Qed.

Lemma slice_inner s :
  Str.slice s 1 (-1) = removelast (tail s).
Proof.
  destruct s as [|a s]; [reflexivity|]. unfold Str.slice.
  assert (Hlo : Str.clamp (Str.len (a :: s)) 1 = 1).
  { apply clamp_in_range. unfold Str.len. simpl length. lia. }
  assert (Hhi : Str.clamp (Str.len (a :: s)) (-1) = Z.of_nat (length s)).
  { unfold Str.clamp, Str.len. change (-1 <? 0) with true. cbv iota.
    simpl length. lia. }
  rewrite Hlo, Hhi. change (Z.to_nat 1) with 1%nat. simpl drop. simpl tail.
  replace (Z.to_nat (Z.of_nat (length s) - 1)) with (Nat.pred (length s))
    by lia.
  symmetry. apply removelast_firstn_len.
Qed.


(** ** What a line can do to the parser *)

Lemma process_line_effect fs parse st line base_path :
  line_effect fs parse st (process_line fs parse st line base_path).
Proof.
  unfold process_line.
  repeat match goal with
         | |- context [match ?o with Some _ => _ | None => _ end] =>
             destruct o as [?|] eqn:?
         | |- context [if ?b then _ else _] => destruct b
         | |- context [let (_, _) := ?x in _] => destruct x
         end;
    first [ constructor; fail
          | apply eff_include; eauto
          | apply (eff_region fs parse st []) ].
Qed.

(** A property that every change of state keeps is kept by the parse of a
    file, whatever it includes. A file is opened, and marked as processed,
    only when it is not yet marked. *)
Section InvariantRule.

Variable fs : filesystem.
Variable I : parser -> Prop.

Hypothesis I_define : forall st d, I st -> I (set_defines d st).
Hypothesis I_include_missing :
  forall st file, I st -> I (emit (IncludeNotFound file) st).
Hypothesis I_file_missing :
  forall st file, I st -> I (emit (FileNotFound file) st).
Hypothesis I_control : forall st, I st -> I (set_section SecControl st).
Hypothesis I_global : forall st, I st -> I (set_section SecGlobal st).
Hypothesis I_group : forall st, I st -> I (open_group st).
Hypothesis I_region :
  forall st toks, I st -> I (store_all store_in_region (open_region st) toks).
Hypothesis I_opcodes :
  forall st toks, I st -> I (store_all store_opcode st toks).
Hypothesis I_mark :
  forall st file, file ∉ processed_files st -> I st ->
                  I (add_processed file st).
Hypothesis I_open :
  forall st file, file ∉ processed_files st -> I st ->
                  I (emit (Opened file) (add_processed file st)).

Lemma process_line_keeps parse st line base_path :
  (forall st' file, I st' -> holds I (parse st' file)) ->
  I st -> holds I (process_line fs parse st line base_path).
Proof.
  intros Hp Hst.
  destruct (process_line_effect fs parse st line base_path); simpl; auto.
Qed.

Lemma for_lines_keeps step st ls :
  (forall st' line, I st' -> holds I (step st' line)) ->
  I st -> holds I (for_lines step st ls).
Proof.
  intros Hs. revert st. induction ls as [|l ls IH]; intros st Hst; simpl.
  - exact Hst.
  - specialize (Hs st (Str.strip l) Hst).
    destruct (step st (Str.strip l)); simpl in *; auto.
Qed.

Lemma parse_file_keeps fuel st filepath :
  I st -> holds I (parse_file fs fuel st filepath).
Proof.
  revert st filepath. induction fuel as [|fuel IH]; intros st filepath Hst;
    simpl; [exact Logic.I|].
  destruct (resolve_error fs filepath); [exact Hst|].
  destruct (decide (resolve fs filepath ∈ processed_files st)) as [|Hn];
    [exact Hst|].
  destruct (files fs !! resolve fs filepath) as [[ls|]|]; simpl; auto.
  - apply for_lines_keeps; auto.
    intros st' line Hst'. apply process_line_keeps; auto.
  - destruct (exists_error fs (resolve fs filepath)); simpl; auto.
Qed.

End InvariantRule.

(** ** Inclusions: each file once, and the parse ends *)

Lemma same_io_refl st : same_io st st.
Proof. split; reflexivity. Qed.

Lemma same_io_trans st1 st2 st3 :
  same_io st1 st2 -> same_io st2 st3 -> same_io st1 st3.
Proof. unfold same_io. intros [? ?] [? ?]. split; congruence. Qed.

Lemma same_io_store_opcode st key v : same_io st (store_opcode st key v).
Proof.
  unfold store_opcode.
  repeat match goal with
         | |- context [match ?x with _ => _ end] => destruct x
         end; split; reflexivity.
Qed.

Lemma same_io_store_in_region st key v :
  same_io st (store_in_region st key v).
Proof.
  unfold store_in_region. destruct (current_region st) as [[g r]|];
    split; reflexivity.
Qed.

Lemma same_io_store_all store st toks :
  (forall st key v, same_io st (store st key v)) ->
  same_io st (store_all store st toks).
Proof.
  intros Hs. unfold store_all. revert st.
  induction toks as [|kv toks IH]; intros st; simpl.
  - apply same_io_refl.
  - eapply same_io_trans; [apply Hs|apply IH].
Qed.

Lemma same_io_open_group st : same_io st (open_group st).
Proof. split; reflexivity. Qed.

Lemma same_io_open_region st : same_io st (open_region st).
Proof.
  destruct st as [c gl gs d s [g|] r pf tr]; split; reflexivity.
Qed.

Lemma same_io_region_line st toks :
  same_io st (store_all store_in_region (open_region st) toks).
Proof.
  eapply same_io_trans; [apply same_io_open_region|].
  apply same_io_store_all, same_io_store_in_region.
Qed.

Lemma same_io_opcode_line st toks :
  same_io st (store_all store_opcode st toks).
Proof. apply same_io_store_all, same_io_store_opcode. Qed.

Lemma opened_snoc tr e :
  opened (tr ++ [e])
  = opened tr ++ match e with Opened p => [p] | _ => [] end.
Proof.
  induction tr as [|e' tr IH]; simpl.
  - destruct e; reflexivity.
  - destruct e'; simpl; now rewrite IH.
Qed.

Lemma read_once_same_io st st' :
  same_io st st' -> read_once st -> read_once st'.
Proof. unfold same_io, read_once. intros [-> ->]. auto. Qed.

Lemma read_once_message st e :
  (forall p, e <> Opened p) -> read_once st -> read_once (emit e st).
Proof.
  unfold read_once. simpl. intros He. rewrite opened_snoc.
  destruct e; [now specialize (He path)| |]; now rewrite app_nil_r.
Qed.

Lemma read_once_mark st file :
  read_once st -> read_once (add_processed file st).
Proof.
  unfold read_once. simpl. intros [Hn Hs]. split; [exact Hn|].
  intros p Hp. apply elem_of_union_r. auto.
Qed.

Lemma read_once_open st file :
  file ∉ processed_files st -> read_once st ->
  read_once (emit (Opened file) (add_processed file st)).
Proof.
  unfold read_once. simpl. intros Hf [Hn Hs]. rewrite opened_snoc.
  split.
  - apply NoDup_app. repeat split.
    + exact Hn.
    + intros p Hp Hp'. apply list_elem_of_singleton in Hp'. subst. auto.
    + apply NoDup_singleton.
  - intros p Hp. apply elem_of_app in Hp as [Hp|Hp].
    + apply elem_of_union_r. auto.
    + apply list_elem_of_singleton in Hp. subst.
      apply elem_of_union_l, elem_of_singleton. reflexivity.
Qed.

Lemma parse_file_read_once fs fuel st filepath :
  read_once st -> holds read_once (parse_file fs fuel st filepath).
Proof.
  apply parse_file_keeps; intros.
  - assumption.
  - apply read_once_message; [discriminate|assumption].
  - apply read_once_message; [discriminate|assumption].
  - assumption.
  - assumption.
  - assumption.
  - eapply read_once_same_io; [apply same_io_region_line|assumption].
  - eapply read_once_same_io; [apply same_io_opcode_line|assumption].
  - now apply read_once_mark.
  - now apply read_once_open.
Qed.

Lemma marks_same_io st0 st st' :
  same_io st st' -> marks_from st0 st -> marks_from st0 st'.
Proof. unfold same_io, marks_from. intros [-> _]. auto. Qed.

Lemma marks_keeps fs st0 :
  (forall parse st line base_path,
     (forall st' file,
        marks_from st0 st' -> holds (marks_from st0) (parse st' file)) ->
     marks_from st0 st ->
     holds (marks_from st0) (process_line fs parse st line base_path))
  /\ (forall fuel st filepath,
        marks_from st0 st ->
        holds (marks_from st0) (parse_file fs fuel st filepath)).
Proof.
  assert (Hmark : forall st file, marks_from st0 st ->
                                  marks_from st0 (add_processed file st)).
  { unfold marks_from. simpl. intros st file H. set_solver. }
  split; intros.
  - apply process_line_keeps; auto; intros;
      try assumption;
      try (eapply marks_same_io; [|eassumption];
           first [apply same_io_region_line | apply same_io_opcode_line]).
  - apply parse_file_keeps; auto; intros;
      try assumption;
      try (eapply marks_same_io; [|eassumption];
           first [apply same_io_region_line | apply same_io_opcode_line]).
    apply (Hmark st1 file); assumption.
Qed.

Lemma unprocessed_mono fs st st' :
  processed_files st ⊆ processed_files st' ->
  (unprocessed fs st' <= unprocessed fs st)%nat.
Proof.
  intros Hsub. unfold unprocessed. apply subseteq_size.
  intros p Hp. apply elem_of_difference in Hp as [Hd Hn].
  apply elem_of_difference. split; [exact Hd|]. intros Hin. apply Hn.
  apply Hsub, Hin.
Qed.

Lemma unprocessed_mark fs st file :
  file ∉ processed_files st -> is_Some (files fs !! file) ->
  (unprocessed fs (add_processed file st) < unprocessed fs st)%nat.
Proof.
  intros Hn Hf. unfold unprocessed. simpl. apply subset_size.
  apply elem_of_dom in Hf. split.
  - intros p Hp. apply elem_of_difference in Hp as [Hd Hp].
    apply elem_of_difference. split; [exact Hd|]. intros Hin. apply Hp.
    apply elem_of_union_r, Hin.
  - intros Hsub. specialize (Hsub file).
    rewrite !elem_of_difference in Hsub.
    destruct Hsub as [_ Hsub]; [split; assumption|]. apply Hsub.
    apply elem_of_union_l, elem_of_singleton. reflexivity.
Qed.

(** A line runs [parse] on one file, or does not run it at all. *)
Lemma process_line_shape fs st line base_path :
  (exists r, r <> OutOfFuel
             /\ forall parse, process_line fs parse st line base_path = r)
  \/ (exists file,
        forall parse, process_line fs parse st line base_path = parse st file).
Proof.
  unfold process_line.
  repeat match goal with
         | |- context [match ?o with Some _ => _ | None => _ end] =>
             destruct o as [?|] eqn:?
         | |- context [if ?b then _ else _] => destruct b
         | |- context [let (_, _) := ?x in _] => destruct x
         end;
    first [ left; eexists; split; [|intros; reflexivity]; discriminate
          | right; eexists; intros; reflexivity ].
Qed.

Lemma process_line_finishes fs parse st line base_path :
  (forall file, parse st file <> OutOfFuel) ->
  process_line fs parse st line base_path <> OutOfFuel.
Proof.
  intros Hp.
  destruct (process_line_shape fs st line base_path) as [(r & Hr & E)|(f & E)];
    rewrite E; auto.
Qed.

Lemma process_line_more fs parse parse' st line base_path :
  (forall file, parse st file <> OutOfFuel ->
                parse' st file = parse st file) ->
  process_line fs parse st line base_path <> OutOfFuel ->
  process_line fs parse' st line base_path
  = process_line fs parse st line base_path.
Proof.
  intros Hp.
  destruct (process_line_shape fs st line base_path) as [(r & Hr & E)|(f & E)];
    rewrite !E; auto.
Qed.

Lemma for_lines_more step step' st ls :
  (forall st line, step st line <> OutOfFuel -> step' st line = step st line) ->
  for_lines step st ls <> OutOfFuel ->
  for_lines step' st ls = for_lines step st ls.
Proof.
  intros Hs. revert st. induction ls as [|l ls IH]; intros st H; simpl in *;
    [reflexivity|].
  destruct (step st (Str.strip l)) as [st'| |] eqn:E.
  - rewrite Hs, E by congruence. auto.
  - rewrite Hs, E by congruence. reflexivity.
  - congruence.
Qed.

(** More fuel does not change the outcome of a parse that has ended. *)
Lemma parse_file_more fs fuel extra st filepath :
  parse_file fs fuel st filepath <> OutOfFuel ->
  parse_file fs (fuel + extra) st filepath = parse_file fs fuel st filepath.
Proof.
  revert st filepath. induction fuel as [|fuel IH]; intros st filepath H;
    [now simpl in H|].
  simpl in *.
  destruct (resolve_error fs filepath); [reflexivity|].
  destruct (decide (resolve fs filepath ∈ processed_files st)); [reflexivity|].
  destruct (files fs !! resolve fs filepath) as [[ls|]|]; try reflexivity.
  apply for_lines_more; [|exact H].
  intros st' line. apply process_line_more. intros file. apply IH.
Qed.

Lemma for_lines_finishes step st0 st ls :
  (forall st' line, marks_from st0 st' ->
                    step st' line <> OutOfFuel
                    /\ holds (marks_from st0) (step st' line)) ->
  marks_from st0 st -> for_lines step st ls <> OutOfFuel.
Proof.
  intros Hs. revert st. induction ls as [|l ls IH]; intros st Hst; simpl;
    [discriminate|].
  destruct (Hs st (Str.strip l) Hst) as [Hn Hh].
  destruct (step st (Str.strip l)); simpl in *; auto; discriminate.
Qed.

(** A parse ends when its fuel exceeds the number of files that are not
    marked yet. *)
Lemma parse_file_finishes fs fuel st filepath :
  (unprocessed fs st < fuel)%nat ->
  parse_file fs fuel st filepath <> OutOfFuel.
Proof.
  revert st filepath. induction fuel as [|fuel IH]; intros st filepath Hf;
    [lia|].
  simpl.
  destruct (resolve_error fs filepath); [discriminate|].
  destruct (decide (resolve fs filepath ∈ processed_files st)) as [|Hn];
    [discriminate|].
  destruct (files fs !! resolve fs filepath) as [[ls|]|] eqn:E;
    try discriminate;
    [|destruct (exists_error fs (resolve fs filepath)); discriminate].
  pose proof (unprocessed_mark fs st (resolve fs filepath) Hn) as Hlt.
  rewrite E in Hlt. specialize (Hlt (ltac:(eauto))).
  set (st0 := emit (Opened (resolve fs filepath))
                   (add_processed (resolve fs filepath) st)).
  apply (for_lines_finishes _ st0); [|unfold marks_from; reflexivity].
  intros st' line Hm. split.
  - apply process_line_finishes. intros file. apply IH.
    pose proof (unprocessed_mono fs st0 st' Hm) as Hle.
    change (unprocessed fs st0)
      with (unprocessed fs (add_processed (resolve fs filepath) st)) in Hle.
    lia.
  - apply (proj1 (marks_keeps fs st0)); [|exact Hm].
    intros st'' file. apply (proj2 (marks_keeps fs st0)).
Qed.

Lemma read_once_new : read_once new_parser.
Proof. split; [constructor|]. simpl. intros p Hp. inversion Hp. Qed.

Lemma plus_match_run {R : Type} p (k : pystr -> option R) run stop rest r :
  run <> [] -> Forall (fun c => p c = true) run -> p stop = false ->
  k (stop :: rest) = Some r ->
  Re.plus_match p k (run ++ stop :: rest) = Some (run, r).
Proof.
  intros Hne Hrun Hstop Hk. induction Hrun as [|a run Ha Hrun IH];
    [congruence|].
  simpl. rewrite Ha. destruct run as [|b run].
  - simpl. rewrite Hstop, Hk. reflexivity.
  - rewrite IH by discriminate. reflexivity.
Qed.

Lemma search_include_of path :
  path <> [] -> Forall (fun c => c <> quote) path ->
  Re.search include_re (include_of path)
  = Some (9, [[quote]; path; [quote]]).
Proof.
  intros Hne Hq. unfold Re.search, include_of, include_re. simpl.
  rewrite (plus_match_run not_quote _ path quote [] [[quote]]).
  - reflexivity.
  - exact Hne.
  - eapply Forall_impl; [exact Hq|]. intros c Hc. unfold not_quote.
    apply negb_true_iff. now apply chr_eqb_neq.
  - reflexivity.
  - reflexivity.
Qed.

(** An inclusion of a file that is already marked changes nothing. *)
Lemma include_processed fs fuel st base_path path :
  path <> [] -> Forall (fun c => c <> quote) path ->
  Str.contains (txt "//") (include_of path) = false ->
  resolve_error fs (include_joined fs st base_path path) = None ->
  resolve_error fs (include_target fs st base_path path) = None ->
  is_Some (files fs !! include_target fs st base_path path) ->
  resolve fs (include_target fs st base_path path) ∈ processed_files st ->
  process_line fs (parse_file fs (S fuel)) st (include_of path) base_path
  = Done st.
Proof.
  intros Hne Hq Hc Hr1 Hr2 [nd Hf] Hin. unfold process_line.
  change (Num.is_nil (include_of path)) with false.
  change (Str.startswith (include_of path) (txt "//")) with false.
  cbv iota. unfold remove_inline_comment. rewrite Hc.
  change (Str.startswith (include_of path) (txt "#define")) with false.
  change (Str.startswith (include_of path) (txt "#include")) with true.
  cbv iota. rewrite search_include_of by assumption.
  change (Re.piece [[quote]; path; [quote]] 1) with path.
  cbv zeta. fold (include_joined fs st base_path path). rewrite Hr1.
  change (resolve fs (include_joined fs st base_path path))
    with (include_target fs st base_path path).
  rewrite Hf. simpl. rewrite Hr2.
  destruct (decide (resolve fs (include_target fs st base_path path)
                    ∈ processed_files st)); [reflexivity|contradiction].
Qed.

(** C2. Whatever the files include, a cycle or the same file twice, the
    parse of a document ends: a fuel of one more than the number of files
    is enough, and more fuel gives the same outcome. No file is opened, and
    read, a second time. The parse of a file that is already marked as
    processed returns at once and leaves the parser as it was, and so does
    the line that includes such a file: it raises nothing. *)
Theorem inclusion_terminates_once (fs : filesystem) (filepath : pystr)
    (extra : nat) :
  let fuel := S (size (files fs)) in
  parse_file fs fuel new_parser filepath <> OutOfFuel
  /\ parse_file fs (fuel + extra) new_parser filepath
     = parse_file fs fuel new_parser filepath
  /\ NoDup (opened (trace (state_of
                             (parse_file fs fuel new_parser filepath))))
  /\ (forall n st file,
        resolve_error fs file = None ->
        resolve fs file ∈ processed_files st ->
        parse_file fs (S n) st file = Done st)
  /\ (forall n st base_path path,
        path <> [] -> Forall (fun c => c <> quote) path ->
        Str.contains (txt "//") (include_of path) = false ->
        resolve_error fs (include_joined fs st base_path path) = None ->
        resolve_error fs (include_target fs st base_path path) = None ->
        is_Some (files fs !! include_target fs st base_path path) ->
        resolve fs (include_target fs st base_path path)
          ∈ processed_files st ->
        process_line fs (parse_file fs (S n)) st (include_of path) base_path
        = Done st).
Proof.
  intros fuel.
  assert (Hfin : parse_file fs fuel new_parser filepath <> OutOfFuel).
  { apply parse_file_finishes. unfold unprocessed, fuel. simpl.
    rewrite difference_empty_L, size_dom. lia. }
  split; [exact Hfin|]. split; [now apply parse_file_more|].
  split; [|split].
  - pose proof (parse_file_read_once fs fuel new_parser filepath
                  read_once_new) as H.
    destruct (parse_file fs fuel new_parser filepath); simpl in *;
      [apply H|apply H|constructor].
  - intros n st file Hr Hin. simpl. rewrite Hr.
    destruct (decide (resolve fs file ∈ processed_files st)); [reflexivity|].
    contradiction.
  - intros. now apply include_processed.
Qed.

Lemma inclusion_terminates_once_witness :
  let r := parse_file cycle_fs 5 new_parser (txt "a.sfz") in
  r <> OutOfFuel
  /\ opened (trace (state_of r))
     = [txt "a.sfz"; txt "b.sfz"; txt "d.sfz"; txt "c.sfz"]
  /\ NoDup (opened (trace (state_of r)))
  /\ map (fun region => region !! txt "sample") (all_regions (state_of r))
     = [Some (VStr (txt "d.wav")); Some (VStr (txt "b.wav"));
        Some (VStr (txt "c.wav")); Some (VStr (txt "a.wav"))]
  /\ parse_file cycle_fs 1 (state_of r) (txt "b.sfz") = Done (state_of r)
  /\ process_line cycle_fs (parse_file cycle_fs 1) (state_of r)
                  (include_line "d.sfz") []
     = Done (state_of r).
Proof.
  intros r.
  destruct (inclusion_terminates_once cycle_fs (txt "a.sfz") 0)
    as (H1 & _ & H3 & H4 & H5).
  split; [exact H1|]. split; [vm_compute; reflexivity|].
  split; [exact H3|]. split; [vm_compute; reflexivity|]. split.
  - apply (H4 0%nat (state_of r) (txt "b.sfz")); [reflexivity|].
    refine (bool_decide_unpack _ _). vm_compute. exact Logic.I.
  - apply (H5 0%nat (state_of r) [] (txt "d.sfz")).
    + discriminate.
    + repeat constructor; discriminate.
    + vm_compute. reflexivity.
    + reflexivity.
    + reflexivity.
    + vm_compute. eexists. reflexivity.
    + refine (bool_decide_unpack _ _). vm_compute. exact Logic.I.
Defined.

(** ** Regions are snapshots *)

Lemma detached_frozen g r region st :
  detached g r region st -> frozen g r region st.
Proof. intros [H1 H2]. split; [exact H1|]. intros [_ H]. auto. Qed.

Lemma region_at_alter st f g' g r :
  region_at (set_groups (alter f g') st) g r
  = if decide (g' = g)
    then match data_groups st !! g with
         | Some grp => regions (f grp) !! r
         | None => None
         end
    else region_at st g r.
Proof.
  unfold region_at. simpl. destruct (decide (g' = g)) as [->|Hne].
  - rewrite list_lookup_alter_eq. destruct (data_groups st !! g); reflexivity.
  - now rewrite list_lookup_alter_ne.
Qed.

Lemma region_at_set_opcode st key v g' g r :
  region_at (set_groups (alter (set_opcode key v) g') st) g r
  = region_at st g r.
Proof.
  rewrite region_at_alter. destruct (decide (g' = g)); [|reflexivity].
  unfold region_at. destruct (data_groups st !! g); reflexivity.
Qed.

Lemma region_at_set_region_opcode st key v g' r' g r :
  (g', r') <> (g, r) ->
  region_at (set_groups (alter (set_region_opcode r' key v) g') st) g r
  = region_at st g r.
Proof.
  intros Hne. rewrite region_at_alter.
  destruct (decide (g' = g)) as [->|]; [|reflexivity].
  unfold region_at. destruct (data_groups st !! g); [|reflexivity].
  simpl. apply list_lookup_alter_ne. congruence.
Qed.

Lemma region_at_append_region st region' g' g r region :
  region_at st g r = Some region ->
  region_at (set_groups (alter (append_region region') g') st) g r
  = Some region.
Proof.
  intros H. rewrite region_at_alter.
  destruct (decide (g' = g)) as [->|]; [|exact H].
  unfold region_at in H. destruct (data_groups st !! g); [|discriminate].
  simpl. rewrite lookup_app_l; [exact H|].
  eapply lookup_lt_Some. exact H.
Qed.

Lemma region_at_lt st g r region :
  region_at st g r = Some region ->
  exists grp, data_groups st !! g = Some grp
              /\ (r < length (regions grp))%nat.
Proof.
  unfold region_at. destruct (data_groups st !! g) as [grp|]; [|discriminate].
  intros H. exists grp. split; [reflexivity|]. eapply lookup_lt_Some, H.
Qed.

Lemma frozen_store_opcode g r region st key v :
  frozen g r region st -> frozen g r region (store_opcode st key v).
Proof.
  unfold frozen, store_opcode. intros [Hr Hc].
  destruct (current_section st) as [[| | |]|] eqn:Es.
  - simpl. rewrite Es. auto.
  - simpl. rewrite Es. auto.
  - destruct (current_group st) as [g'|]; [|rewrite Es; auto].
    simpl. rewrite Es. split; [now rewrite region_at_set_opcode|exact Hc].
  - destruct (current_region st) as [[g' r']|] eqn:Ec;
      [|rewrite Es, Ec; auto].
    destruct (region_at st g' r') as [d|]; [|rewrite Es, Ec; auto].
    destruct (is_empty_dict d); [rewrite Es, Ec; auto|].
    simpl. rewrite Es, Ec. split; [|exact Hc].
    rewrite region_at_set_region_opcode; [exact Hr|].
    intros E. apply Hc. split; [reflexivity|]. now rewrite <- E.
  - rewrite Es. auto.
Qed.

Lemma detached_store_in_region g r region st key v :
  detached g r region st -> detached g r region (store_in_region st key v).
Proof.
  unfold detached, store_in_region. intros [Hr Hc].
  destruct (current_region st) as [[g' r']|] eqn:Ec; [|rewrite Ec; auto].
  simpl. rewrite Ec. split; [|exact Hc].
  rewrite region_at_set_region_opcode; [exact Hr|congruence].
Qed.

Lemma store_all_keeps (I : parser -> Prop) store st toks :
  (forall st key v, I st -> I (store st key v)) ->
  I st -> I (store_all store st toks).
Proof.
  intros Hs. unfold store_all. revert st.
  induction toks as [|kv toks IH]; intros st Hst; simpl; auto.
Qed.

Lemma detached_open_region g r region st :
  region_at st g r = Some region -> detached g r region (open_region st).
Proof.
  intros Hr. destruct (region_at_lt _ _ _ _ Hr) as (grp & Hg & Hlt).
  pose proof (lookup_lt_Some _ _ _ Hg) as Hgl.
  destruct st as [c gl gs d s [g'|] cr pf tr]; unfold open_region; simpl in *.
  - split.
    + apply (region_at_append_region
               (MkParser c gl gs d (Some SecRegion) (Some g') cr pf tr)).
      exact Hr.
    + intros E. inversion E; subst. rewrite Hg in Hlt. simpl in Hlt. lia.
  - split.
    + rewrite region_at_alter. simpl.
      destruct (decide (length gs = g)) as [E|_]; [lia|].
      unfold region_at in *. simpl in *.
      rewrite lookup_app_l by assumption. exact Hr.
    + intros E. inversion E; subst. lia.
Qed.

Lemma frozen_open_group g r region st :
  frozen g r region st -> frozen g r region (open_group st).
Proof.
  intros [Hr _]. destruct (region_at_lt _ _ _ _ Hr) as (grp & Hg & Hlt).
  pose proof (lookup_lt_Some _ _ _ Hg) as Hgl.
  split.
  - unfold region_at in *. simpl.
    rewrite lookup_app_l by assumption. exact Hr.
  - simpl. intros [_ ?]. discriminate.
Qed.

Lemma frozen_region_line g r region st toks :
  frozen g r region st ->
  frozen g r region (store_all store_in_region (open_region st) toks).
Proof.
  intros [Hr _]. apply detached_frozen.
  apply store_all_keeps; [apply detached_store_in_region|].
  now apply detached_open_region.
Qed.

Lemma frozen_opcode_line g r region st toks :
  frozen g r region st -> frozen g r region (store_all store_opcode st toks).
Proof. apply store_all_keeps. apply frozen_store_opcode. Qed.

Lemma frozen_leave g r region st s :
  s <> SecRegion -> frozen g r region st ->
  frozen g r region (set_section s st).
Proof.
  intros Hs [Hr _]. split; [exact Hr|]. simpl. intros [E _]. congruence.
Qed.

Ltac frozen_io :=
  intros;
  match goal with
  | H : frozen _ _ _ _ |- _ => destruct H; split; assumption
  end.

(** Nothing the parser does later changes a region it has left. *)
Lemma parse_file_frozen fs g r region fuel st filepath :
  frozen g r region st ->
  holds (frozen g r region) (parse_file fs fuel st filepath).
Proof.
  apply parse_file_keeps.
  - frozen_io.
  - frozen_io.
  - frozen_io.
  - intros st'. now apply frozen_leave.
  - intros st'. now apply frozen_leave.
  - intros st'. apply frozen_open_group.
  - intros st' toks. apply frozen_region_line.
  - intros st' toks. apply frozen_opcode_line.
  - frozen_io.
  - frozen_io.
Qed.

Lemma process_line_frozen fs g r region fuel st line base_path :
  frozen g r region st ->
  holds (frozen g r region)
        (process_line fs (parse_file fs fuel) st line base_path).
Proof.
  apply process_line_keeps.
  - frozen_io.
  - frozen_io.
  - intros st'. now apply frozen_leave.
  - intros st'. now apply frozen_leave.
  - intros st'. apply frozen_open_group.
  - intros st' toks. apply frozen_region_line.
  - intros st' toks. apply frozen_opcode_line.
  - intros st' file. apply parse_file_frozen.
Qed.

Lemma overlay_lookup (glob grp : dict) k :
  dict_update (dict_update ∅ glob) grp !! k
  = match grp !! k with
    | Some v => Some v
    | None => glob !! k
    end.
Proof.
  unfold dict_update. rewrite !lookup_union, lookup_empty.
  destruct (grp !! k), (glob !! k); reflexivity.
Qed.

(** The region that [<region>] creates. *)
Lemma open_region_snapshot st :
  group_in_range st ->
  exists g r region,
    current_section (open_region st) = Some SecRegion
    /\ current_region (open_region st) = Some (g, r)
    /\ region_at st g r = None
    /\ region_at (open_region st) g r = Some region
    /\ forall k, region !! k
                 = match current_opcodes st !! k with
                   | Some v => Some v
                   | None => data_global st !! k
                   end.
Proof.
  intros Hw. unfold group_in_range in Hw.
  destruct st as [c gl gs d s [g'|] cr pf tr]; simpl in *.
  - specialize (Hw g' eq_refl).
    destruct (lookup_lt_is_Some_2 gs g' Hw) as [grp Hg].
    exists g', (length (regions grp)),
      (dict_update (dict_update ∅ gl) (opcodes grp)).
    unfold open_region, current_opcodes, region_at. simpl. rewrite Hg. simpl.
    repeat split.
    + apply lookup_ge_None. lia.
    + rewrite list_lookup_alter_eq, Hg. simpl.
      rewrite lookup_app_r by lia. now rewrite Nat.sub_diag.
    + intros k. apply overlay_lookup.
  - exists (length gs), 0%nat, (dict_update (dict_update ∅ gl) ∅).
    unfold open_region, current_opcodes, region_at. simpl.
    rewrite list_lookup_alter_eq.
    rewrite (list_lookup_middle gs [] new_group (length gs) eq_refl).
    rewrite (lookup_ge_None_2 gs (length gs)) by lia. simpl.
    repeat split. intros k. apply overlay_lookup.
Qed.

Lemma group_in_range_store_opcode st key v :
  group_in_range st -> group_in_range (store_opcode st key v).
Proof.
  unfold group_in_range, store_opcode. intros H.
  destruct (current_section st) as [[| | |]|]; simpl; auto.
  - destruct (current_group st) as [g'|] eqn:E; simpl; [|now rewrite E].
    rewrite E, length_alter. auto.
  - destruct (current_region st) as [[g' r']|]; auto.
    destruct (region_at st g' r') as [d|]; auto.
    destruct (is_empty_dict d); auto.
    simpl. rewrite length_alter. auto.
Qed.

Lemma group_in_range_store_in_region st key v :
  group_in_range st -> group_in_range (store_in_region st key v).
Proof.
  unfold group_in_range, store_in_region. intros H.
  destruct (current_region st) as [[g r]|]; simpl;
    try rewrite length_alter; auto.
Qed.

Lemma group_in_range_open_group st :
  group_in_range (open_group st).
Proof.
  unfold group_in_range, open_group. simpl. intros g E. inversion E.
  rewrite length_app. simpl. lia.
Qed.

Lemma group_in_range_open_region st :
  group_in_range st -> group_in_range (open_region st).
Proof.
  unfold group_in_range. intros H.
  destruct st as [c gl gs d s [g'|] cr pf tr]; unfold open_region;
    simpl in *; intros g E; inversion E; subst;
    rewrite length_alter.
  - auto.
  - rewrite length_app. simpl. lia.
Qed.

Lemma parse_file_group_in_range fs fuel st filepath :
  group_in_range st -> holds group_in_range (parse_file fs fuel st filepath).
Proof.
  apply parse_file_keeps; auto.
  - intros st' _. apply group_in_range_open_group.
  - intros st' toks H. apply store_all_keeps.
    + apply group_in_range_store_in_region.
    + now apply group_in_range_open_region.
  - intros st' toks. apply store_all_keeps.
    apply group_in_range_store_opcode.
Qed.

Lemma process_line_group_in_range fs fuel st line base_path :
  group_in_range st ->
  holds group_in_range
        (process_line fs (parse_file fs fuel) st line base_path).
Proof.
  apply process_line_keeps; auto.
  - intros st' _. apply group_in_range_open_group.
  - intros st' toks H. apply store_all_keeps.
    + apply group_in_range_store_in_region.
    + now apply group_in_range_open_region.
  - intros st' toks. apply store_all_keeps.
    apply group_in_range_store_opcode.
  - intros st' file. apply parse_file_group_in_range.
Qed.

Lemma group_in_range_new : group_in_range new_parser.
Proof. intros g E. discriminate. Qed.

Lemma store_opcode_outside_regions st key v g r :
  current_section st = Some SecGlobal \/ current_section st = Some SecGroup ->
  region_at (store_opcode st key v) g r = region_at st g r.
Proof.
  unfold store_opcode. intros [E|E]; rewrite E.
  - reflexivity.
  - destruct (current_group st); [|reflexivity].
    apply region_at_set_opcode.
Qed.

(** C1. The reference to the current group is sound in a new parser
    and stays so line after line, so it is in every parser a parse goes
    through. In such a parser the region that a [<region>] line creates is
    a new region whose mapping holds, under each key, the opcode of the
    current group under that key when the group has one, and the opcode of
    the global scope under that key otherwise. An opcode stored while the
    section is the global scope or a group changes no region; and once the
    parser has left the section of a region no line, whatever it includes,
    changes the mapping of that region. *)
Theorem snapshot_inheritance (fs : filesystem) :
  (group_in_range new_parser
   /\ forall fuel st line base_path,
        group_in_range st ->
        holds group_in_range
              (process_line fs (parse_file fs fuel) st line base_path))
  /\ (forall st,
        group_in_range st ->
        exists g r region,
          current_section (open_region st) = Some SecRegion
          /\ current_region (open_region st) = Some (g, r)
          /\ region_at st g r = None
          /\ region_at (open_region st) g r = Some region
          /\ forall k, region !! k
                       = match current_opcodes st !! k with
                         | Some v => Some v
                         | None => data_global st !! k
                         end)
  /\ (forall st key v g r,
        current_section st = Some SecGlobal
        \/ current_section st = Some SecGroup ->
        region_at (store_opcode st key v) g r = region_at st g r)
  /\ (forall fuel st line base_path g r region,
        frozen g r region st ->
        holds (frozen g r region)
              (process_line fs (parse_file fs fuel) st line base_path)).
Proof.
  split; [|split; [|split]].
  - split; [apply group_in_range_new|].
    intros. now apply process_line_group_in_range.
  - apply open_region_snapshot.
  - apply store_opcode_outside_regions.
  - intros. now apply process_line_frozen.
Qed.

Lemma snapshot_inheritance_witness :
  let fs := lines_fs snapshot_lines in
  let st := state_of (parsed snapshot_lines) in
  let st' := state_of (process_line fs (parse_file fs 1) st
                                    (txt "volume=-6") []) in
  region_at st 0 0 = Some snapshot_region
  /\ data_global st' !! txt "volume" = Some (VInt (-6))
  /\ region_at st' 0 0 = Some snapshot_region.
Proof.
  intros fs st st'.
  assert (Hr : region_at st 0 0 = Some snapshot_region).
  { vm_compute. reflexivity. }
  split; [exact Hr|]. split; [vm_compute; reflexivity|].
  destruct (snapshot_inheritance fs) as (_ & _ & _ & H).
  specialize (H 1%nat st (txt "volume=-6") [] 0%nat 0%nat snapshot_region).
  assert (Hf : frozen 0 0 snapshot_region st).
  { split; [exact Hr|]. vm_compute. intros [E _]. discriminate. }
  specialize (H Hf).
  assert (E : process_line fs (parse_file fs 1) st (txt "volume=-6") []
              = Done st') by (vm_compute; reflexivity).
  rewrite E in H. exact (proj1 H).
Defined.

(** ** The ranges of a descriptor *)

(** C7. Every descriptor of the document [normalize] returns has a key
    range and a velocity range: they are the [lokey] and [hikey], and the
    [lovel] and [hivel], of its region, with 0 for a low bound and 127 for a
    high bound the region does not have; for a region with neither bound the
    range is 0 to 127. And a key that a region does not have when it is
    created is, at that time, neither in the global scope nor in the opcodes
    of its group. *)
Theorem range_defaulting (fs : filesystem) :
  (forall st doc,
     normalize fs st = Ok doc ->
     Forall2 ranges_of (all_regions st) (doc_regions doc))
  /\ (forall st,
        group_in_range st ->
        exists g r region,
          current_region (open_region st) = Some (g, r)
          /\ region_at (open_region st) g r = Some region
          /\ forall k, region !! k = None ->
                       data_global st !! k = None
                       /\ current_opcodes st !! k = None).
Proof.
  split.
  - intros st doc H. apply normalize_regions in H.
    eapply Forall2_impl; [exact H|].
    intros region norm Hn. apply normalize_region_fields in Hn.
    destruct Hn as (Hk & Hv & _). unfold ranges_of, get in *.
    repeat split; try assumption.
    + intros H1 H2. rewrite Hk, H1, H2. reflexivity.
    + intros H1 H2. rewrite Hv, H1, H2. reflexivity.
  - intros st Hw.
    destruct (open_region_snapshot st Hw)
      as (g & r & region & _ & Hc & _ & Hr & Hl).
    exists g, r, region. split; [exact Hc|]. split; [exact Hr|].
    intros k Hk. rewrite Hl in Hk.
    destruct (current_opcodes st !! k); [discriminate|]. auto.
Qed.

Lemma range_defaulting_witness :
  let st := state_of (parsed two_ranges) in
  let doc := document_of (normalize (lines_fs two_ranges) st) in
  normalize (lines_fs two_ranges) st = Ok doc
  /\ map key_range (doc_regions doc)
     = [(VInt 0, VInt 127); (VInt 36, VInt 127)]
  /\ map vel_range (doc_regions doc)
     = [(VInt 0, VInt 127); (VInt 0, VInt 100)]
  /\ Forall2 ranges_of (all_regions st) (doc_regions doc)
  /\ exists g r region,
       current_region (open_region st) = Some (g, r)
       /\ region_at (open_region st) g r = Some region
       /\ forall k, region !! k = None ->
                    data_global st !! k = None
                    /\ current_opcodes st !! k = None.
Proof.
  intros st doc.
  assert (H : normalize (lines_fs two_ranges) st = Ok doc)
    by (vm_compute; reflexivity).
  split; [exact H|]. split; [vm_compute; reflexivity|].
  split; [vm_compute; reflexivity|].
  destruct (range_defaulting (lines_fs two_ranges)) as [H1 H2].
  split; [exact (H1 st doc H)|].
  apply H2. intros g E. vm_compute in E. inversion E; subst.
  vm_compute. lia.
Defined.

(** * Further properties *)

Arguments chr_eqb : simpl never.

(** ** The shape of what the tokenizer returns *)

Section StripKeeps.

Variable p : ascii -> bool.
Variable Q : ascii -> Prop.

Lemma Forall_lstrip_by s : Forall Q s -> Forall Q (Str.lstrip_by p s).
Proof.
  induction 1 as [|a s Ha Hs IH]; simpl; [constructor|].
  destruct (p a); [exact IH|]. now constructor.
Qed.

Lemma Forall_rstrip_by s : Forall Q s -> Forall Q (Str.rstrip_by p s).
Proof.
  induction 1 as [|a s Ha Hs IH]; simpl; [constructor|].
  destruct (Str.rstrip_by p s) as [|b r].
  - destruct (p a); repeat constructor. exact Ha.
  - now constructor.
Qed.

Lemma Forall_strip_by s : Forall Q s -> Forall Q (Str.strip_by p s).
Proof. intros H. now apply Forall_rstrip_by, Forall_lstrip_by. Qed.

End StripKeeps.

Lemma no_char_after_last c s :
  Forall (fun a => a <> c)
         (drop (Z.to_nat (Str.rfind_at c s 0 (-1) + 1)) s).
Proof.
  induction s as [|a s IH] using rev_ind; [constructor|].
  rewrite rfind_at_snoc. destruct (chr_eqb a c) eqn:E.
  - unfold Str.len. rewrite drop_ge; [constructor|].
    rewrite length_app. simpl. lia.
  - apply chr_eqb_neq in E.
    pose proof (rfind_at_range c s) as Hr. unfold Str.len in Hr.
    rewrite drop_app_le by lia. apply Forall_app. split; [exact IH|].
    repeat constructor. exact E.
Qed.

(** The text the tokenizer takes for the key of the [=] at [e]. *)
Lemma key_slice c line e :
  0 <= e <= Str.len line ->
  Str.slice line (Str.rfind c line 0 e + 1) e
  = drop (Z.to_nat (Str.rfind_at c (take (Z.to_nat e) line) 0 (-1) + 1))
         (take (Z.to_nat e) line).
Proof.
  intros He. unfold Str.rfind.
  rewrite (clamp_in_range _ 0) by (pose proof (len_nonneg line); lia).
  rewrite (slice_prefix line e He).
  set (s := take (Z.to_nat e) line).
  pose proof (rfind_at_range c s) as Hr.
  assert (Hlen : Str.len s = e).
  { unfold s, Str.len in *. rewrite length_take. lia. }
  unfold Str.slice. rewrite !clamp_in_range by lia.
  rewrite take_drop_commute.
  replace (Z.to_nat (Str.rfind_at c s 0 (-1) + 1)
           + Z.to_nat (e - (Str.rfind_at c s 0 (-1) + 1)))%nat
    with (Z.to_nat e) by lia.
  reflexivity.
Qed.

Lemma key_has_no_space line e :
  0 <= e <= Str.len line ->
  Forall (fun a => a <> " "%char)
         (Str.strip (Str.slice line (Str.rfind " "%char line 0 e + 1) e)).
Proof.
  intros He. rewrite key_slice by assumption.
  apply Forall_strip_by, no_char_after_last.
Qed.

(** A property of every pair the loop of the tokenizer builds holds of
    every pair it returns. *)
Lemma extract_loop_Forall (P : pystr * pystr -> Prop) line :
  (forall e v,
     0 <= e < Str.len line ->
     P (Str.strip (Str.slice line (Str.rfind " "%char line 0 e + 1) e),
        Str.strip v)) ->
  forall fuel i toks,
    extract_loop fuel line i = Some toks -> Forall P toks.
Proof.
  intros HP. induction fuel as [|fuel IH]; intros i toks;
    rewrite extract_loop_eq;
    destruct (Z.ltb_spec i (Str.len line)) as [Hi|Hi].
  - discriminate.
  - intros H. inversion H. apply Forall_nil_2.
  - cbv zeta.
    destruct (find_range "="%char line i Hi) as [He|[He He0]].
    + rewrite He. simpl. intros H. inversion H. apply Forall_nil_2.
    + destruct (Z.eqb_spec (Str.find "="%char line i) (-1)) as [E|_]; [lia|].
      destruct (Re.search next_key_re _) as [[start m]|];
        destruct (extract_loop fuel line _) as [t|] eqn:Et; simpl;
        try discriminate; intros H; inversion H; subst;
        (apply Forall_cons_2; [apply HP; lia|eapply IH; exact Et]).
  - intros H. inversion H. apply Forall_nil_2.
Qed.

Lemma find_at_none c s i :
  0 <= i -> Str.find_at c s i = -1 -> Forall (fun a => a <> c) s.
Proof.
  revert i. induction s as [|a s IH]; intros i Hi; simpl; [constructor|].
  destruct (chr_eqb a c) eqn:E; [lia|].
  intros H. constructor; [now apply chr_eqb_neq|].
  apply (IH (i + 1)); [lia|exact H].
Qed.

Lemma contains_char_absent c s :
  Forall (fun a => a <> c) s -> Str.contains [c] s = false.
Proof.
  induction 1 as [|a s Ha Hs IH]; [reflexivity|].
  simpl. rewrite IH, andb_true_r, orb_false_r. now apply chr_eqb_neq.
Qed.

Lemma find_present c s :
  Str.contains [c] s = true -> Str.find c s 0 <> -1.
Proof.
  intros H E. unfold Str.find in E.
  rewrite clamp_in_range in E by (pose proof (len_nonneg s); lia).
  apply find_at_none in E; [|lia].
  change (Z.to_nat 0) with 0%nat in E. rewrite drop_0 in E.
  apply contains_char_absent in E. congruence.
Qed.

(** X1. The tokenizer returns no pair exactly when the line has no [=].
    Every key it returns is free of spaces and of white space at its ends,
    and every value is free of white space at its ends. *)
Theorem tokenizer_output_shape (line : pystr) :
  (extract_opcodes line = [] <-> Str.contains (txt "=") line = false)
  /\ Forall (fun kv => Forall (fun a => a <> " "%char) (fst kv)
                       /\ Str.strip (fst kv) = fst kv
                       /\ Str.strip (snd kv) = snd kv)
            (extract_opcodes line).
Proof.
  pose proof (extract_opcodes_loop line) as E. split.
  - split.
    + intros H0. rewrite H0 in E. rewrite extract_loop_eq in E.
      destruct (Str.contains (txt "=") line) eqn:Hc; [|reflexivity].
      exfalso. pose proof (find_present _ _ Hc) as Hf.
      destruct line as [|a line]; [discriminate|].
      assert (Hl : (0 <? Str.len (a :: line)) = true).
      { apply Z.ltb_lt. unfold Str.len. simpl length. lia. }
      rewrite Hl in E. cbv zeta in E.
      destruct (Z.eqb_spec (Str.find "="%char (a :: line) 0) (-1));
        [contradiction|].
      destruct (Re.search next_key_re _) as [[start m]|];
        destruct (extract_loop _ _ _); simpl in E; discriminate.
    + intros Hc. rewrite extract_loop_eq in E. cbv zeta in E.
      rewrite (find_absent _ _ _ Hc) in E. simpl in E.
      destruct (0 <? Str.len line); congruence.
  - eapply extract_loop_Forall; [|exact E].
    intros e v He. simpl. repeat split.
    + apply key_has_no_space. lia.
    + apply strip_by_idemp.
    + apply strip_by_idemp.
Qed.

Lemma tokenizer_output_shape_witness :
  extract_opcodes (txt "  pitch_keycenter=60  sample=a b.wav ")
  = [(txt "pitch_keycenter", txt "60"); (txt "sample", txt "a b.wav")]
  /\ extract_opcodes (txt "no opcode") = [].
Proof.
  split; [vm_compute; reflexivity|].
  apply (proj1 (tokenizer_output_shape (txt "no opcode"))).
  vm_compute. reflexivity.
Defined.

(** ** Writing opcodes and reading them back *)

Lemma word_not_space c : is_word c = true -> is_space c = false.
Proof.
  destruct c as [[] [] [] [] [] [] [] []]; vm_compute; congruence.
Qed.

Lemma word_not_equals c : is_word c = true -> c <> "="%char.
Proof.
  destruct c as [[] [] [] [] [] [] [] []]; vm_compute; congruence.
Qed.

Lemma space_not_equals c : is_space c = true -> c <> "="%char.
Proof.
  destruct c as [[] [] [] [] [] [] [] []]; vm_compute; congruence.
Qed.

Lemma len_app a b : Str.len (a ++ b) = Str.len a + Str.len b.
Proof. unfold Str.len. rewrite length_app. lia. Qed.

Lemma len_cons c a : Str.len (c :: a) = 1 + Str.len a.
Proof. unfold Str.len. simpl length. lia. Qed.

Lemma slice_from_app a b : Str.slice_from (a ++ b) (Str.len a) = b.
Proof.
  unfold Str.slice_from. rewrite clamp_in_range.
  - replace (Z.to_nat (Str.len a)) with (length a) by (unfold Str.len; lia).
    apply drop_app_length.
  - rewrite len_app. pose proof (len_nonneg a). pose proof (len_nonneg b). lia.
Qed.

Lemma slice_mid a b c :
  Str.slice (a ++ b ++ c) (Str.len a) (Str.len a + Str.len b) = b.
Proof.
  pose proof (len_nonneg a). pose proof (len_nonneg b).
  pose proof (len_nonneg c).
  unfold Str.slice. rewrite !clamp_in_range by (rewrite !len_app; lia).
  replace (Z.to_nat (Str.len a)) with (length a) by (unfold Str.len; lia).
  replace (Z.to_nat (Str.len a + Str.len b - Str.len a)) with (length b)
    by (unfold Str.len; lia).
  rewrite drop_app_length. apply take_app_length.
Qed.

Lemma find_at_skip c b d i :
  Forall (fun a => a <> c) b ->
  Str.find_at c (b ++ c :: d) i = i + Str.len b.
Proof.
  intros Hb. revert i. induction Hb as [|a b Ha Hb IH]; intros i; simpl.
  - unfold chr_eqb. rewrite Ascii.eqb_refl. unfold Str.len. simpl. lia.
  - apply chr_eqb_neq in Ha. rewrite Ha, IH, len_cons. lia.
Qed.

Lemma find_app c a b d :
  Forall (fun x => x <> c) b ->
  Str.find c (a ++ b ++ c :: d) (Str.len a) = Str.len a + Str.len b.
Proof.
  intros Hb. unfold Str.find.
  pose proof (len_nonneg a). pose proof (len_nonneg b).
  pose proof (len_nonneg d).
  rewrite clamp_in_range by (rewrite !len_app, len_cons; lia).
  replace (Z.to_nat (Str.len a)) with (length a) by (unfold Str.len; lia).
  rewrite drop_app_length. now apply find_at_skip.
Qed.

Lemma rfind_at_absent c s i last :
  Forall (fun a => a <> c) s -> Str.rfind_at c s i last = last.
Proof.
  intros Hs. revert i last. induction Hs as [|a s Ha Hs IH]; intros i last;
    simpl; [reflexivity|].
  apply chr_eqb_neq in Ha. now rewrite Ha, IH.
Qed.

Lemma rfind_at_app c a b i last :
  Str.rfind_at c (a ++ b) i last
  = Str.rfind_at c b (i + Str.len a) (Str.rfind_at c a i last).
Proof.
  revert i last. induction a as [|x a IH]; intros i last; simpl.
  - f_equal. unfold Str.len. simpl. lia.
  - rewrite IH, len_cons. f_equal. lia.
Qed.

Lemma rfind_prefix c a b :
  Str.rfind c (a ++ b) 0 (Str.len a) = Str.rfind_at c a 0 (-1).
Proof.
  pose proof (len_nonneg a). pose proof (len_nonneg b).
  unfold Str.rfind. rewrite slice_prefix by (rewrite len_app; lia).
  rewrite (clamp_in_range _ 0) by (rewrite len_app; lia).
  replace (Z.to_nat (Str.len a)) with (length a) by (unfold Str.len; lia).
  rewrite take_app_length. reflexivity.
Qed.

(** What a match of the pattern of the next key looks like. *)
Lemma plus_match_inv {R : Type} p (k : pystr -> option R) s m r :
  Re.plus_match p k s = Some (m, r) ->
  m <> [] /\ Forall (fun c => p c = true) m
  /\ exists s', s = m ++ s' /\ k s' = Some r.
Proof.
  revert m r. induction s as [|a s IH]; intros m r; simpl; [discriminate|].
  destruct (p a) eqn:Ea; [|discriminate].
  destruct (Re.plus_match p k s) as [[m' r']|] eqn:E.
  - destruct (IH m' r' eq_refl) as (_ & Hm & s' & Hs & Hk).
    intros H. inversion H; subst.
    split; [discriminate|]. split; [now constructor|].
    exists s'. split; [reflexivity|exact Hk].
  - destruct (k s) as [r'|] eqn:Ek; [|discriminate].
    intros H. inversion H; subst.
    split; [discriminate|]. split; [repeat constructor; exact Ea|].
    exists s. split; [reflexivity|exact Ek].
Qed.

Lemma match_next_key_inv s m :
  Re.match_ next_key_re s = Some m ->
  exists ws w r,
    s = ws ++ w ++ "="%char :: r
    /\ ws <> [] /\ Forall (fun c => is_space c = true) ws
    /\ w <> [] /\ Forall (fun c => is_word c = true) w.
Proof.
  unfold next_key_re. simpl Re.match_.
  destruct (Re.plus_match is_space _ s) as [[ws r1]|] eqn:E1; [|discriminate].
  intros _. apply plus_match_inv in E1 as (Hws & Fws & s1 & -> & E2).
  destruct (Re.plus_match is_word _ s1) as [[w r2]|] eqn:E3; [|discriminate].
  apply plus_match_inv in E3 as (Hw & Fw & s2 & -> & E4).
  destruct s2 as [|c s2]; [discriminate|].
  cbn [Re.match_ Re.lit] in E4.
  destruct (chr_eqb "="%char c) eqn:Ec; [|discriminate].
  apply chr_eqb_eq in Ec. subst c.
  exists ws, w, s2. auto.
Qed.

Lemma app_first_char (c : ascii) a b a' b' :
  Forall (fun x => x <> c) a -> Forall (fun x => x <> c) a' ->
  a ++ c :: b = a' ++ c :: b' -> a = a'.
Proof.
  intros Ha. revert a'. induction Ha as [|x a Hx Ha IH]; intros a' Ha' E.
  - destruct a' as [|y a']; [reflexivity|].
    inversion Ha'; subst. inversion E; subst. congruence.
  - destruct a' as [|y a'].
    + inversion E; subst. congruence.
    + inversion Ha'; subst. inversion E; subst. f_equal. now apply IH.
Qed.

(** White space then a word cannot hold a character that is not white
    space right before one that is not of a word. *)
Lemma spaces_word_order ws w x z y rest :
  Forall (fun c => is_space c = true) ws ->
  Forall (fun c => is_word c = true) w ->
  is_space z = false -> is_word y = false ->
  ws ++ w <> x ++ z :: y :: rest.
Proof.
  intros Hws Hw Hz Hy. revert x. induction Hws as [|s ws Hs Hws IH];
    intros x E; simpl in E.
  - subst w. apply Forall_app in Hw as [_ Hw].
    inversion Hw as [|? ? _ Hw']; subst. inversion Hw'; subst. congruence.
  - destruct x as [|x0 x]; simpl in E; inversion E; subst.
    + congruence.
    + now apply (IH x).
Qed.

Lemma strip_last_not_space v' z :
  Str.rstrip_by is_space (v' ++ [z]) = v' ++ [z] -> is_space z = false.
Proof.
  induction v' as [|a v' IH]; simpl.
  - destruct (is_space z); [discriminate|reflexivity].
  - destruct (Str.rstrip_by is_space (v' ++ [z])) as [|b r] eqn:E.
    + destruct (is_space a); intros H; [discriminate|].
      inversion H as [H1]. destruct v'; discriminate.
    + intros H. inversion H as [H1]. apply IH. exact H1.
Qed.

Lemma rstrip_by_fixed p s : Str.strip_by p s = s -> Str.rstrip_by p s = s.
Proof.
  unfold Str.strip_by. intros H. rewrite <- H at 1.
  rewrite rstrip_by_idemp. exact H.
Qed.

Lemma rstrip_by_suffix p a s :
  Str.rstrip_by p (a :: s) = a :: s -> s <> [] -> Str.rstrip_by p s = s.
Proof.
  simpl. destruct (Str.rstrip_by p s) as [|b r].
  - destruct (p a); intros H; inversion H; subst; congruence.
  - intros H. now inversion H.
Qed.

(** No next key starts inside a value that has no [=] and ends on a
    character that is not white space. *)
Lemma no_match_in_value v k t :
  v <> [] -> Forall (fun c => c <> "="%char) v ->
  Str.rstrip_by is_space v = v ->
  Forall (fun c => is_word c = true) k ->
  Re.match_ next_key_re (v ++ " "%char :: k ++ "="%char :: t) = None.
Proof.
  intros Hne Hv Hs Hk.
  destruct (Re.match_ next_key_re _) as [m|] eqn:E; [|reflexivity].
  exfalso. apply match_next_key_inv in E
    as (ws & w & r & E & _ & Fws & _ & Fw).
  destruct v as [|a v0] using rev_ind; [congruence|]. clear IHv0.
  apply strip_last_not_space in Hs.
  assert (E' : (v0 ++ [a] ++ " "%char :: k) ++ "="%char :: t
               = (ws ++ w) ++ "="%char :: r).
  { rewrite <- !app_assoc. simpl. rewrite <- app_assoc in E. exact E. }
  apply app_first_char in E'.
  - symmetry in E'. revert E'. simpl.
    apply spaces_word_order; auto.
  - apply Forall_app. split.
    + apply Forall_app in Hv as [Hv _]. exact Hv.
    + apply Forall_app in Hv as [_ Hv]. inversion Hv; subst.
      constructor; [assumption|]. constructor; [discriminate|].
      eapply Forall_impl; [exact Hk|]. apply word_not_equals.
  - apply Forall_app. split.
    + eapply Forall_impl; [exact Fws|]. apply space_not_equals.
    + eapply Forall_impl; [exact Fw|]. apply word_not_equals.
Qed.

Lemma match_next_key_here k t :
  k <> [] -> Forall (fun c => is_word c = true) k ->
  exists m, Re.match_ next_key_re (" "%char :: k ++ "="%char :: t) = Some m.
Proof.
  intros Hne Hk. unfold next_key_re. cbn [Re.match_].
  destruct k as [|k0 k]; [congruence|].
  pose proof Hk as Hk0. apply Forall_cons in Hk0 as [Hk0 _].
  change (" "%char :: (k0 :: k) ++ "="%char :: t)
    with ([" "%char] ++ k0 :: (k ++ "="%char :: t)).
  rewrite (plus_match_run is_space _ [" "%char] k0 (k ++ "="%char :: t)
             [k0 :: k; ["="%char]]).
  - eexists. reflexivity.
  - discriminate.
  - repeat constructor.
  - now apply word_not_space.
  - change (k0 :: k ++ "="%char :: t) with ((k0 :: k) ++ "="%char :: t).
    rewrite (plus_match_run is_word _ (k0 :: k) "="%char t [["="%char]]).
    + reflexivity.
    + discriminate.
    + exact Hk.
    + reflexivity.
    + reflexivity.
Qed.

Lemma search_at_skip r v X pos m :
  (forall v1 v2, v = v1 ++ v2 -> v2 <> [] -> Re.match_ r (v2 ++ X) = None) ->
  Re.match_ r X = Some m ->
  Re.search_at r (v ++ X) pos = Some (pos + Str.len v, m).
Proof.
  revert pos. induction v as [|a v IH]; intros pos Hno Hm.
  - destruct X; simpl; rewrite Hm; unfold Str.len; simpl; f_equal; f_equal; lia.
  - assert (H0 : Re.match_ r (a :: v ++ X) = None).
    { apply (Hno [] (a :: v) eq_refl). discriminate. }
    change ((a :: v) ++ X) with (a :: v ++ X). cbn [Re.search_at].
    rewrite H0, IH.
    + rewrite len_cons. f_equal. f_equal. lia.
    + intros v1 v2 -> Hv2. apply (Hno (a :: v1) v2); auto.
    + exact Hm.
Qed.

Lemma search_no_equals s :
  Forall (fun c => c <> "="%char) s -> Re.search next_key_re s = None.
Proof.
  unfold Re.search. generalize 0. intros pos Hs. revert pos.
  induction Hs as [|a s Ha Hs IH]; intros pos.
  - reflexivity.
  - cbn [Re.search_at].
    destruct (Re.match_ next_key_re (a :: s)) as [m|] eqn:E; [|apply IH].
    exfalso. apply match_next_key_inv in E as (ws & w & r & E & _).
    assert (H : Forall (fun c => c <> "="%char) (a :: s)) by now constructor.
    rewrite E in H. apply Forall_app in H as [_ H].
    apply Forall_app in H as [_ H]. inversion H; congruence.
Qed.

Lemma rstrip_by_app_suffix p v1 v2 :
  Str.rstrip_by p (v1 ++ v2) = v1 ++ v2 -> v2 <> [] ->
  Str.rstrip_by p v2 = v2.
Proof.
  induction v1 as [|a v1 IH]; intros H Hne; [exact H|].
  apply IH; [|exact Hne].
  apply (rstrip_by_suffix p a); [exact H|].
  destruct v1; [exact Hne|discriminate].
Qed.

Lemma opcodes_line_cons kv rest :
  opcodes_line (kv :: rest)
  = fst kv ++ "="%char :: snd kv
    ++ match rest with
       | [] => []
       | _ :: _ => " "%char :: opcodes_line rest
       end.
Proof.
  destruct rest as [|kv' rest]; simpl; unfold opcode_text.
  - now rewrite app_nil_r.
  - now rewrite <- app_assoc.
Qed.

(** One turn of the loop of the tokenizer on a line that goes on with a
    plain opcode. *)
Lemma extract_step pre sep k v T fuel :
  (sep = [] /\ pre = [] \/ sep = [" "%char]) ->
  plain_opcode (k, v) ->
  (T = [] \/ exists k' t, T = " "%char :: k' ++ "="%char :: t
                          /\ k' <> []
                          /\ Forall (fun c => is_word c = true) k') ->
  extract_loop (S fuel) (pre ++ sep ++ k ++ "="%char :: v ++ T) (Str.len pre)
  = option_map (cons (k, v))
      (extract_loop fuel (pre ++ sep ++ k ++ "="%char :: v ++ T)
         (Str.len (pre ++ sep ++ k ++ "="%char :: v))).
Proof.
  intros Hsep (Hkne & Hk & Hv & Hvs) HT. simpl in Hkne, Hk, Hv, Hvs.
  set (line := pre ++ sep ++ k ++ "="%char :: v ++ T).
  pose proof (len_nonneg pre) as Hp0. pose proof (len_nonneg sep) as Hs0.
  pose proof (len_nonneg k) as Hk0. pose proof (len_nonneg v) as Hv0.
  pose proof (len_nonneg T) as HT0.
  assert (Hlen : Str.len line
                 = Str.len pre + Str.len sep + Str.len k + 1
                   + Str.len v + Str.len T).
  { unfold line. rewrite !len_app, len_cons, len_app. lia. }
  assert (Hksp : Forall (fun c => c <> " "%char) k).
  { eapply Forall_impl; [exact Hk|]. intros c Hc E. subst c.
    apply word_not_space in Hc. discriminate. }
  assert (Hsepeq : Forall (fun c => c <> "="%char) (sep ++ k)).
  { apply Forall_app. split.
    - destruct Hsep as [[-> _]| ->]; repeat constructor. discriminate.
    - eapply Forall_impl; [exact Hk|]. apply word_not_equals. }
  assert (Heq : Str.find "="%char line (Str.len pre)
                = Str.len pre + Str.len sep + Str.len k).
  { replace line with (pre ++ (sep ++ k) ++ "="%char :: (v ++ T))
      by (unfold line; now rewrite <- !app_assoc).
    rewrite find_app by assumption. rewrite len_app. lia. }
  assert (Hks : Str.rfind " "%char line 0
                  (Str.len pre + Str.len sep + Str.len k) + 1
                = Str.len pre + Str.len sep).
  { replace line with ((pre ++ sep ++ k) ++ ("="%char :: v ++ T))
      by (unfold line; now rewrite <- !app_assoc).
    replace (Str.len pre + Str.len sep + Str.len k)
      with (Str.len (pre ++ sep ++ k)) by (rewrite !len_app; lia).
    rewrite rfind_prefix.
    destruct Hsep as [[-> ->]| ->].
    - simpl. rewrite rfind_at_absent by assumption. reflexivity.
    - rewrite app_assoc, rfind_at_app, rfind_at_absent by assumption.
      rewrite rfind_at_snoc. unfold chr_eqb. rewrite Ascii.eqb_refl.
      unfold Str.len. simpl. lia. }
  assert (Hkey : Str.slice line (Str.len pre + Str.len sep)
                   (Str.len pre + Str.len sep + Str.len k) = k).
  { replace line with ((pre ++ sep) ++ k ++ ("="%char :: v ++ T))
      by (unfold line; now rewrite <- !app_assoc).
    replace (Str.len pre + Str.len sep) with (Str.len (pre ++ sep))
      by (rewrite len_app; lia).
    apply slice_mid. }
  assert (Hstrip : Str.strip k = k).
  { apply strip_by_none. eapply Forall_impl; [exact Hk|].
    apply word_not_space. }
  set (head := pre ++ sep ++ k ++ ["="%char]).
  assert (Hhead : Str.len head
                  = Str.len pre + Str.len sep + Str.len k + 1).
  { unfold head. rewrite !len_app. unfold Str.len at 4. simpl. lia. }
  assert (Hline : line = head ++ v ++ T).
  { unfold line, head. rewrite <- !app_assoc. reflexivity. }
  assert (Hfrom : Str.slice_from line
                    (Str.len pre + Str.len sep + Str.len k + 1) = v ++ T).
  { rewrite Hline, <- Hhead. apply slice_from_app. }
  assert (Hval : Str.slice line
                   (Str.len pre + Str.len sep + Str.len k + 1)
                   (Str.len pre + Str.len sep + Str.len k + 1 + Str.len v)
                 = v).
  { rewrite Hline, <- Hhead. apply slice_mid. }
  assert (Hnext : Str.len (pre ++ sep ++ k ++ "="%char :: v)
                  = Str.len pre + Str.len sep + Str.len k + 1 + Str.len v).
  { rewrite !len_app, len_cons. lia. }
  rewrite extract_loop_eq.
  destruct (Z.ltb_spec (Str.len pre) (Str.len line)) as [_|Hge]; [|lia].
  cbv zeta. rewrite Heq.
  destruct (Z.eqb_spec (Str.len pre + Str.len sep + Str.len k) (-1));
    [lia|].
  rewrite Hks, Hkey, Hstrip, Hfrom, Hnext.
  destruct HT as [->|(k' & t & -> & Hk'ne & Hk')].
  - rewrite app_nil_r. rewrite (search_no_equals v Hv), Hvs.
    replace (Str.len line)
      with (Str.len pre + Str.len sep + Str.len k + 1 + Str.len v)
      by (rewrite Hlen; change (Str.len []) with 0; lia).
    reflexivity.
  - destruct (match_next_key_here k' t Hk'ne Hk') as [m Hm].
    unfold Re.search.
    rewrite (search_at_skip next_key_re v _ 0 m).
    + replace (Str.len pre + Str.len sep + Str.len k + 1 + (0 + Str.len v))
        with (Str.len pre + Str.len sep + Str.len k + 1 + Str.len v) by lia.
      rewrite Hval, Hvs. reflexivity.
    + intros v1 v2 E Hv2. apply no_match_in_value.
      * exact Hv2.
      * rewrite E in Hv. now apply Forall_app in Hv as [_ Hv].
      * apply (rstrip_by_app_suffix is_space v1); [|exact Hv2].
        rewrite <- E. apply rstrip_by_fixed. exact Hvs.
      * exact Hk'.
    + exact Hm.
Qed.

Lemma extract_loop_roundtrip kvs :
  Forall plain_opcode kvs -> kvs <> [] ->
  forall pre sep fuel,
    (sep = [] /\ pre = [] \/ sep = [" "%char]) ->
    (length kvs <= fuel)%nat ->
    extract_loop fuel (pre ++ sep ++ opcodes_line kvs) (Str.len pre)
    = Some kvs.
Proof.
  induction 1 as [|[k v] rest Hkv Hrest IH]; intros Hne pre sep fuel Hsep Hf;
    [congruence|].
  destruct fuel as [|fuel]; [simpl in Hf; lia|].
  rewrite opcodes_line_cons. cbn [fst snd].
  rewrite extract_step; [| exact Hsep | exact Hkv |].
  - destruct rest as [|kv' rest'].
    + rewrite app_nil_r. rewrite extract_loop_eq.
      destruct (Z.ltb_spec (Str.len (pre ++ sep ++ k ++ "="%char :: v))
                           (Str.len (pre ++ sep ++ k ++ "="%char :: v)));
        [lia|reflexivity].
    + replace (pre ++ sep ++ k ++ "="%char :: v
               ++ " "%char :: opcodes_line (kv' :: rest'))
        with ((pre ++ sep ++ k ++ "="%char :: v)
              ++ [" "%char] ++ opcodes_line (kv' :: rest')).
      * rewrite IH; [reflexivity|discriminate|now right|simpl in *; lia].
      * rewrite <- !app_assoc. simpl. rewrite <- ?app_assoc. reflexivity.
  - destruct rest as [|[k' v'] rest']; [now left|right].
    rewrite opcodes_line_cons. cbn [fst snd].
    inversion Hrest as [|? ? (Hk'ne & Hk' & _) _]; subst.
    eexists k', _. split; [reflexivity|]. split; assumption.
Qed.

(** X2. A line written from plain opcodes, each a key of word characters,
    [=] and a value that has no [=] and no white space at its ends, one
    space between two of them, is read back by the tokenizer as the same
    pairs in the same order; the values may hold spaces. *)
Theorem tokenizer_roundtrip (kvs : list (pystr * pystr)) :
  Forall plain_opcode kvs ->
  extract_opcodes (opcodes_line kvs) = kvs.
Proof.
  intros H. destruct kvs as [|kv kvs]; [reflexivity|].
  pose proof (extract_loop_roundtrip (kv :: kvs) H ltac:(discriminate)
                [] [] (length (kv :: kvs)) (or_introl (conj eq_refl eq_refl))
                (le_n _)) as E.
  change ([] ++ [] ++ opcodes_line (kv :: kvs))
    with (opcodes_line (kv :: kvs)) in E.
  change (Str.len []) with 0 in E.
  pose proof (extract_opcodes_loop (opcodes_line (kv :: kvs))) as E'.
  set (f := Nat.max (length (kv :: kvs))
                    (S (length (opcodes_line (kv :: kvs))))).
  apply (extract_loop_more _ f) in E; [|unfold f; lia].
  apply (extract_loop_more _ f) in E'; [|unfold f; lia].
  congruence.
Qed.

Lemma tokenizer_roundtrip_witness :
  extract_opcodes (txt "sample=My Piano.wav lokey=36 hikey=48")
  = [(txt "sample", txt "My Piano.wav"); (txt "lokey", txt "36");
     (txt "hikey", txt "48")].
Proof.
  apply (tokenizer_roundtrip
           [(txt "sample", txt "My Piano.wav"); (txt "lokey", txt "36");
            (txt "hikey", txt "48")]).
  repeat constructor; try discriminate; vm_compute; reflexivity.
Defined.

(** ** A rule for what a parse does from its start to its end *)

Lemma process_line_step fs parse st line base_path :
  (exists st', process_line fs parse st line base_path = Done st'
               /\ local_step fs st st')
  \/ (exists file, is_Some (files fs !! file)
                   /\ process_line fs parse st line base_path
                      = parse st file)
  \/ (exists e, process_line fs parse st line base_path = Raised e st).
Proof.
  unfold process_line.
  repeat match goal with
         | |- context [match ?o with Some _ => _ | None => _ end] =>
             destruct o as [?|] eqn:?
         | |- context [if ?b then _ else _] => destruct b
         | |- context [let (_, _) := ?x in _] => destruct x
         end;
    first [ left; eexists; split; [reflexivity|];
            first [ constructor; (assumption || fail)
                  | apply (step_region fs st []) ]
          | right; left; eexists; split; [|reflexivity]; eauto
          | right; right; eexists; reflexivity ].
Qed.

(** A relation between the parser a parse starts from and its outcome
    holds of every parse when it holds of each step and is kept by
    sequencing. *)
Section OutcomeRule.

Variable fs : filesystem.
Variable R : parser -> outcome parser -> Prop.

Hypothesis R_fuel : forall st, R st OutOfFuel.
Hypothesis R_local : forall st st', local_step fs st st' -> R st (Done st').
Hypothesis R_seq :
  forall st st1 r, R st (Done st1) -> R st1 r -> R st r.
Hypothesis R_raise : forall st e, R st (Raised e st).
Hypothesis R_missing :
  forall st file, files fs !! file = None ->
                  R st (Done (emit (FileNotFound file) st)).
Hypothesis R_unreadable :
  forall st file, file ∉ processed_files st ->
                  files fs !! file = Some Unreadable ->
                  R st (Raised OSError (add_processed file st)).
Hypothesis R_open :
  forall st file ls, file ∉ processed_files st ->
                     files fs !! file = Some (Lines ls) ->
                     R st (Done (emit (Opened file) (add_processed file st))).

Lemma for_lines_rel step st ls :
  (forall st' line, R st' (step st' line)) -> R st (for_lines step st ls).
Proof.
  intros Hs. revert st. induction ls as [|l ls IH]; intros st; simpl.
  - apply R_local. constructor.
  - pose proof (Hs st (Str.strip l)) as H.
    destruct (step st (Str.strip l)) as [st'| |]; auto.
    apply (R_seq st st'); auto.
Qed.

Lemma parse_file_rel fuel st filepath :
  R st (parse_file fs fuel st filepath).
Proof.
  revert st filepath. induction fuel as [|fuel IH]; intros st filepath;
    simpl; [apply R_fuel|].
  destruct (resolve_error fs filepath); [apply R_raise|].
  destruct (decide (resolve fs filepath ∈ processed_files st)) as [|Hn];
    [apply R_local; constructor|].
  destruct (files fs !! resolve fs filepath) as [[ls|]|] eqn:E; auto.
  - eapply R_seq; [apply (R_open st _ ls Hn E)|].
    apply for_lines_rel. intros st' line.
    destruct (process_line_step fs (parse_file fs fuel) st' line
                (parent fs (resolve fs filepath)))
      as [(st'' & -> & Hl)|[(file & _ & ->)|(e & ->)]]; auto.
  - destruct (exists_error fs (resolve fs filepath)); auto.
Qed.

End OutcomeRule.

(** ** The files a parse marks *)

Lemma defines_store_all store st toks :
  (forall st key v, defines (store st key v) = defines st) ->
  defines (store_all store st toks) = defines st.
Proof.
  intros Hs. unfold store_all. rewrite <- (fold_left_rev_right _ toks).
  generalize (rev toks) as l. induction l as [|kv l IH]; simpl;
    [reflexivity|].
  rewrite Hs. exact IH.
Qed.

Lemma defines_store_opcode st key v :
  defines (store_opcode st key v) = defines st.
Proof.
  unfold store_opcode.
  repeat match goal with
         | |- context [match ?o with _ => _ end] => destruct o
         end; reflexivity.
Qed.

Lemma defines_store_in_region st key v :
  defines (store_in_region st key v) = defines st.
Proof.
  unfold store_in_region. destruct (current_region st) as [[g r]|];
    reflexivity.
Qed.

Lemma defines_open_region st : defines (open_region st) = defines st.
Proof. destruct st as [? ? ? ? ? [g|] ? ? ?]; reflexivity. Qed.

(** A line that includes no file leaves the marks and the opened files as
    they are, and the table of macros too unless it defines one. *)
Lemma local_step_io fs st st' :
  local_step fs st st' ->
  processed_files st' = processed_files st
  /\ opened (trace st') = opened (trace st)
  /\ (defines st' = defines st
      \/ exists key value, defines st' = dict_set (defines st) key value).
Proof.
  intros H. destruct H.
  - split; [reflexivity|]. split; [reflexivity|]. now left.
  - split; [reflexivity|]. split; [reflexivity|]. right. eauto.
  - split; [reflexivity|]. split; [|now left]. simpl.
    rewrite opened_snoc, app_nil_r. reflexivity.
  - split; [reflexivity|]. split; [reflexivity|]. now left.
  - split; [reflexivity|]. split; [reflexivity|]. now left.
  - split; [reflexivity|]. split; [reflexivity|]. now left.
  - destruct (same_io_region_line st toks) as [-> ->].
    split; [reflexivity|]. split; [reflexivity|]. left.
    rewrite defines_store_all by apply defines_store_in_region.
    apply defines_open_region.
  - destruct (same_io_opcode_line st toks) as [-> ->].
    split; [reflexivity|]. split; [reflexivity|]. left.
    apply defines_store_all, defines_store_opcode.
Qed.

Lemma parse_file_marks_opened fs fuel st filepath st' :
  marks_opened st -> parse_file fs fuel st filepath = Done st' ->
  marks_opened st'.
Proof.
  intros Hst Hp.
  assert (H : (fun st r => marks_opened st ->
                           match r with
                           | Done st' => marks_opened st'
                           | _ => True
                           end) st (parse_file fs fuel st filepath)).
  { apply (parse_file_rel fs); clear; simpl.
    - intros st _. exact Logic.I.
    - intros st st' Hl Hm p. apply local_step_io in Hl as (-> & -> & _).
      apply Hm.
    - intros st st1 r H1 H2 Hm. exact (H2 (H1 Hm)).
    - intros st e _. exact Logic.I.
    - intros st file _ Hm p. unfold emit; simpl.
      rewrite opened_snoc, app_nil_r. apply Hm.
    - intros st file _ _ _. exact Logic.I.
    - intros st file ls _ _ Hm p. simpl. rewrite opened_snoc.
      intros [Hp|Hp]%elem_of_union.
      + apply elem_of_singleton in Hp as ->. apply elem_of_app. right.
        apply list_elem_of_singleton. reflexivity.
      + apply elem_of_app. left. now apply Hm. }
  simpl in H. rewrite Hp in H. now apply H.
Qed.

Lemma parse_file_marks_exist fs fuel st filepath :
  processed_files st ⊆ dom (files fs) ->
  holds (fun st' => processed_files st' ⊆ dom (files fs))
        (parse_file fs fuel st filepath).
Proof.
  intros Hst.
  assert (H : (fun st r => processed_files st ⊆ dom (files fs) ->
                           holds (fun st' => processed_files st'
                                             ⊆ dom (files fs)) r)
                st (parse_file fs fuel st filepath)).
  { apply (parse_file_rel fs); clear; simpl.
    - intros st _. exact Logic.I.
    - intros st st' Hl Hm. apply local_step_io in Hl as (-> & _). exact Hm.
    - intros st st1 r H1 H2 Hm. exact (H2 (H1 Hm)).
    - intros st e Hm. exact Hm.
    - intros st file _ Hm. exact Hm.
    - intros st file _ E Hm p [Hp|Hp]%elem_of_union; [|now apply Hm].
      apply elem_of_singleton in Hp as ->. apply elem_of_dom. eauto.
    - intros st file ls _ E Hm p [Hp|Hp]%elem_of_union; [|now apply Hm].
      apply elem_of_singleton in Hp as ->. apply elem_of_dom. eauto. }
  now apply H.
Qed.

(** X4. When the parse of a document returns, the files marked as
    processed are files of the disk and are exactly the files that were
    opened and read, each of them once: the number of files processed that
    the script prints is the number of files it has read. *)
Theorem processed_files_are_read (fs : filesystem) (fuel : nat)
    (filepath : pystr) (st : parser) :
  parse_file fs fuel new_parser filepath = Done st ->
  processed_files st ⊆ dom (files fs)
  /\ (forall p, p ∈ processed_files st <-> p ∈ opened (trace st))
  /\ NoDup (opened (trace st))
  /\ size (processed_files st) = length (opened (trace st)).
Proof.
  intros Hp.
  pose proof (parse_file_marks_exist fs fuel new_parser filepath) as He.
  pose proof (parse_file_read_once fs fuel new_parser filepath read_once_new)
    as Hr.
  pose proof (parse_file_marks_opened fs fuel new_parser filepath st) as Hm.
  rewrite Hp in *. simpl in *. destruct Hr as [Hn Ho].
  assert (Hiff : forall p, p ∈ processed_files st <-> p ∈ opened (trace st)).
  { intros p. split; [|apply Ho]. apply Hm; [|reflexivity].
    intros q Hq. simpl in Hq. set_solver. }
  split; [apply He; set_solver|]. split; [exact Hiff|]. split; [exact Hn|].
  assert (Heq : processed_files st = list_to_set (opened (trace st))).
  { apply set_eq. intros p. rewrite elem_of_list_to_set. apply Hiff. }
  rewrite Heq. now apply size_list_to_set.
Qed.

Lemma processed_files_are_read_witness :
  let st := state_of (parse_file cycle_fs 5 new_parser (txt "a.sfz")) in
  processed_files st ⊆ dom (files cycle_fs)
  /\ (forall p, p ∈ processed_files st <-> p ∈ opened (trace st))
  /\ NoDup (opened (trace st))
  /\ size (processed_files st) = length (opened (trace st)).
Proof.
  intros st.
  apply (processed_files_are_read cycle_fs 5 (txt "a.sfz")).
  vm_compute. reflexivity.
Defined.

(** ** The table of macros *)

Lemma dict_set_names d key val :
  map fst (dict_set d key val)
  = if decide (key ∈ map fst d) then map fst d else map fst d ++ [key].
Proof.
  induction d as [|[k v] d IH]; simpl.
  - destruct (decide (key ∈ [])) as [H|_]; [inversion H|reflexivity].
  - destruct (decide (k = key)) as [->|Hn]; simpl.
    + destruct (decide (key ∈ key :: map fst d)) as [_|H];
        [reflexivity|]. exfalso. apply H. constructor.
    + rewrite IH.
      destruct (decide (key ∈ map fst d)) as [Hin|Hin];
        destruct (decide (key ∈ k :: map fst d)) as [Hin'|Hin'];
        try reflexivity.
      * exfalso. apply Hin'. now constructor.
      * apply elem_of_cons in Hin' as [->|Hin']; contradiction.
Qed.

Lemma dict_set_prefix d key val :
  map fst d `prefix_of` map fst (dict_set d key val).
Proof.
  rewrite dict_set_names. destruct (decide (key ∈ map fst d)).
  - reflexivity.
  - now apply prefix_app_r.
Qed.

Lemma dict_set_NoDup d key val :
  NoDup (map fst d) -> NoDup (map fst (dict_set d key val)).
Proof.
  intros H. rewrite dict_set_names. destruct (decide (key ∈ map fst d)).
  - exact H.
  - apply NoDup_app. split; [exact H|]. split.
    + intros x Hx Hx'. apply list_elem_of_singleton in Hx' as ->.
      contradiction.
    + apply NoDup_singleton.
Qed.

(** X5. A parse never removes a macro and never moves one: in every parser
    it goes through, whatever it includes and also when it ends with an
    exception, the names of the macros start with the names there were
    before, in the same order, which is the order the substitution takes
    them in; a name is in the table once. *)
Theorem macros_only_grow (fs : filesystem) (fuel : nat) (st : parser)
    (filepath : pystr) :
  NoDup (macro_names st) ->
  holds (fun st' => macro_names st `prefix_of` macro_names st'
                    /\ NoDup (macro_names st'))
        (parse_file fs fuel st filepath).
Proof.
  intros Hst.
  assert (H : (fun st r =>
                 NoDup (macro_names st) ->
                 holds (fun st' => macro_names st `prefix_of` macro_names st'
                                   /\ NoDup (macro_names st')) r)
                st (parse_file fs fuel st filepath)).
  { apply (parse_file_rel fs); clear; simpl.
    - intros st _. exact Logic.I.
    - intros st st' Hl Hn. unfold macro_names in *.
      apply local_step_io in Hl as (_ & _ & [->|(key & value & ->)]).
      + split; [reflexivity|exact Hn].
      + split; [apply dict_set_prefix|now apply dict_set_NoDup].
    - intros st st1 r H1 H2 Hn. destruct (H1 Hn) as [Hp Hn1].
      specialize (H2 Hn1). destruct r; simpl in *; [| |exact Logic.I].
      + destruct H2 as [Hp' Hn']. split; [|exact Hn']. now transitivity
          (macro_names st1).
      + destruct H2 as [Hp' Hn']. split; [|exact Hn']. now transitivity
          (macro_names st1).
    - intros st e Hn. split; [reflexivity|exact Hn].
    - intros st file _ Hn. split; [reflexivity|exact Hn].
    - intros st file _ _ Hn. split; [reflexivity|exact Hn].
    - intros st file ls _ _ Hn. split; [reflexivity|exact Hn]. }
  now apply H.
Qed.

Lemma macros_only_grow_witness :
  let r := parse_file (lines_fs macro_lines) 2 new_parser (txt "a.sfz") in
  defines (state_of r) = [(txt "A", txt "3"); (txt "B", txt "2")]
  /\ holds (fun st' => macro_names new_parser `prefix_of` macro_names st'
                       /\ NoDup (macro_names st')) r.
Proof.
  intros r. split; [vm_compute; reflexivity|].
  apply (macros_only_grow (lines_fs macro_lines) 2 new_parser (txt "a.sfz")).
  simpl. constructor.
Defined.

(** ** The [#define] line *)

Lemma match_lit c r s :
  Re.match_ (Re.lit c :: r) (c :: s) = option_map (cons [c]) (Re.match_ r s).
Proof.
  cbn [Re.match_ Re.lit]. now rewrite (proj2 (chr_eqb_eq c c) eq_refl).
Qed.

Lemma plus_match_all {R : Type} p (k : pystr -> option R) run r :
  run <> [] -> Forall (fun c => p c = true) run -> k [] = Some r ->
  Re.plus_match p k run = Some (run, r).
Proof.
  intros Hne Hp Hk. induction Hp as [|a run Ha Hp IH]; [congruence|].
  cbn [Re.plus_match]. rewrite Ha. destruct run as [|b run].
  - cbn [Re.plus_match]. now rewrite Hk.
  - rewrite IH by discriminate. reflexivity.
Qed.

Lemma space_not_word c : is_space c = true -> is_word c = false.
Proof.
  intros H. destruct (is_word c) eqn:E; [|reflexivity].
  apply word_not_space in E. congruence.
Qed.

Lemma space_is_newline_free c : is_space c = false -> any_char c = true.
Proof.
  destruct c as [[] [] [] [] [] [] [] []]; vm_compute; congruence.
Qed.

Lemma match_plus p r s :
  Re.match_ (Re.Plus p :: r) s
  = option_map (fun mr => fst mr :: snd mr)
               (Re.plus_match p (Re.match_ r) s).
Proof. reflexivity. Qed.

Lemma match_define_line sp1 name sp2 c text :
  sp1 <> [] -> Forall (fun a => is_space a = true) sp1 ->
  name <> [] -> Forall (fun a => is_word a = true) name ->
  sp2 <> [] -> Forall (fun a => is_space a = true) sp2 ->
  is_space c = false -> Forall (fun a => a <> newline) text ->
  Re.match_ define_re (define_line sp1 name sp2 (c :: text))
  = Some (map (fun a => [a]) (txt "#define")
          ++ [sp1; ["$"%char]; name; sp2; c :: text]).
Proof.
  intros Hs1 Hf1 Hn Hfn Hs2 Hf2 Hc Ht.
  assert (A3 : Re.match_ [Re.Plus any_char] (c :: text) = Some [c :: text]).
  { rewrite match_plus.
    rewrite (plus_match_all any_char _ (c :: text) []);
      [reflexivity|discriminate| |reflexivity].
    constructor; [now apply space_is_newline_free|].
    eapply Forall_impl; [exact Ht|]. intros a Ha. unfold any_char.
    apply negb_true_iff. now apply chr_eqb_neq. }
  assert (A2 : Re.match_ [Re.Plus is_space; Re.Plus any_char]
                         (sp2 ++ c :: text) = Some [sp2; c :: text]).
  { rewrite match_plus.
    rewrite (plus_match_run is_space _ sp2 c text [c :: text]);
      [reflexivity|assumption|assumption|assumption|exact A3]. }
  assert (A1 : Re.match_ [Re.Plus is_word; Re.Plus is_space;
                          Re.Plus any_char]
                         (name ++ sp2 ++ c :: text)
               = Some [name; sp2; c :: text]).
  { destruct sp2 as [|s sp2']; [congruence|].
    rewrite match_plus, <- app_comm_cons.
    rewrite (plus_match_run is_word _ name s (sp2' ++ c :: text)
               [s :: sp2'; c :: text]);
      [reflexivity|assumption|assumption| |exact A2].
    apply space_not_word. now inversion Hf2. }
  unfold define_re, define_line, Re.lits.
  cbn [txt list_ascii_of_string map app].
  rewrite !match_lit, match_plus.
  rewrite (plus_match_run is_space _ sp1 "$"%char (name ++ sp2 ++ c :: text)
             [["$"%char]; name; sp2; c :: text]);
    [reflexivity|assumption|assumption|reflexivity|].
  rewrite match_lit, A1. reflexivity.
Qed.

(** X6. A line [#define], white space, [$] and a name of word characters,
    white space and a text that goes to the end of the line binds the name
    to the text without the white space at its end: a name that is in the
    table keeps its place and takes the new text, a new name goes last.
    Nothing else of the parser changes. The line must hold no [//], which
    would cut it. *)
Theorem define_line_registers (fs : filesystem)
    (parse : parser -> pystr -> outcome parser) (st : parser)
    (sp1 name sp2 : pystr) (c : ascii) (text base_path : pystr) :
  sp1 <> [] -> Forall (fun a => is_space a = true) sp1 ->
  name <> [] -> Forall (fun a => is_word a = true) name ->
  sp2 <> [] -> Forall (fun a => is_space a = true) sp2 ->
  is_space c = false -> Forall (fun a => a <> newline) text ->
  Str.contains (txt "//") (define_line sp1 name sp2 (c :: text)) = false ->
  process_line fs parse st (define_line sp1 name sp2 (c :: text)) base_path
  = Done (set_defines
            (dict_set (defines st) name (Str.strip (c :: text))) st).
Proof.
  intros Hs1 Hf1 Hn Hfn Hs2 Hf2 Hc Ht Hno. unfold process_line.
  change (Num.is_nil (define_line sp1 name sp2 (c :: text))) with false.
  change (Str.startswith (define_line sp1 name sp2 (c :: text)) (txt "//"))
    with false.
  cbv iota. unfold remove_inline_comment. rewrite Hno.
  change (Str.startswith (define_line sp1 name sp2 (c :: text))
                         (txt "#define")) with true.
  cbv iota. rewrite match_define_line by assumption. reflexivity.
Qed.

Lemma define_line_registers_witness :
  process_line (lines_fs []) (fun st _ => Done st)
    (set_defines [(txt "EXT", txt "wav"); (txt "ROOT", txt "old")] new_parser)
    (txt "#define  $ROOT C:/my samples  ") []
  = Done (set_defines [(txt "EXT", txt "wav"); (txt "ROOT", txt "C:/my samples")]
                      new_parser).
Proof.
  apply (define_line_registers (lines_fs []) (fun st _ => Done st)
           (set_defines [(txt "EXT", txt "wav"); (txt "ROOT", txt "old")]
                        new_parser)
           (txt "  ") (txt "ROOT") (txt " ") "C"%char (txt ":/my samples  ")
           []).
  - discriminate.
  - repeat constructor.
  - discriminate.
  - repeat constructor.
  - discriminate.
  - repeat constructor.
  - reflexivity.
  - repeat (constructor; [discriminate|]). constructor.
  - vm_compute. reflexivity.
Defined.

(** ** The [#include] line *)

(** X7. An [#include] line with a quoted path names the file at that path,
    macros replaced and backslashes turned into slashes, taken from the
    directory of the including file. The line raises what [resolve] raises
    on that path, a [ValueError] when the path holds a NUL. Otherwise, when
    the file exists, it is handed to [parse_file]; when it does not, the
    line raises what the test of existence raises, an [OSError] on a name
    that is too long, and when the test answers no it only prints its
    message: the parser is otherwise unchanged and the parse goes on. The
    line must hold no [//], which would cut it. *)
Theorem include_line_target (fs : filesystem)
    (parse : parser -> pystr -> outcome parser) (st : parser)
    (base_path path : pystr) :
  path <> [] -> Forall (fun c => c <> quote) path ->
  Str.contains (txt "//") (include_of path) = false ->
  process_line fs parse st (include_of path) base_path
  = match resolve_error fs (include_joined fs st base_path path) with
    | Some e => Raised e st
    | None =>
        match files fs !! include_target fs st base_path path with
        | Some _ => parse st (include_target fs st base_path path)
        | None =>
            match exists_error fs (include_target fs st base_path path) with
            | Some e => Raised e st
            | None =>
                Done (emit (IncludeNotFound
                              (include_target fs st base_path path)) st)
            end
        end
    end.
Proof.
  intros Hne Hq Hc. unfold process_line.
  change (Num.is_nil (include_of path)) with false.
  change (Str.startswith (include_of path) (txt "//")) with false.
  cbv iota. unfold remove_inline_comment. rewrite Hc.
  change (Str.startswith (include_of path) (txt "#define")) with false.
  change (Str.startswith (include_of path) (txt "#include")) with true.
  cbv iota. rewrite search_include_of by assumption.
  change (Re.piece [[quote]; path; [quote]] 1) with path.
  cbv zeta. reflexivity.
Qed.

Lemma include_line_target_witness :
  let fs := posix_fs [("a.sfz", [txt "<region> sample=a.wav"])] in
  let st := set_defines [(txt "DIR", txt "kit")] new_parser in
  include_target fs st [] (txt "$DIR\snare.sfz") = txt "kit/snare.sfz"
  /\ process_line fs (parse_file fs 1) st (include_line "$DIR\snare.sfz") []
     = Done (emit (IncludeNotFound (txt "kit/snare.sfz")) st)
  /\ process_line fs (parse_file fs 1) st
                  (include_of (txt "kit" ++ [nul] ++ txt ".sfz")) []
     = Raised ValueError st
  /\ process_line fs (parse_file fs 1) st
                  (include_of (repeat "x"%char 300)) []
     = Raised OSError st
  /\ exists st',
       process_line fs (parse_file fs 1) st (include_line "a.sfz") []
       = Done st'
       /\ opened (trace st') = [txt "a.sfz"].
Proof.
  intros fs st. split; [vm_compute; reflexivity|]. split; [|split; [|split]].
  - unfold include_line.
    rewrite (include_line_target fs (parse_file fs 1) st []
               (txt "$DIR\snare.sfz")).
    + vm_compute. reflexivity.
    + discriminate.
    + repeat (constructor; [discriminate|]). constructor.
    + vm_compute. reflexivity.
  - rewrite (include_line_target fs (parse_file fs 1) st []
               (txt "kit" ++ [nul] ++ txt ".sfz")).
    + vm_compute. reflexivity.
    + discriminate.
    + repeat (constructor; [discriminate|]). constructor.
    + vm_compute. reflexivity.
  - rewrite (include_line_target fs (parse_file fs 1) st []
               (repeat "x"%char 300)).
    + vm_compute. reflexivity.
    + discriminate.
    + apply List.Forall_forall. intros c Hc. apply repeat_spec in Hc.
      subst c. discriminate.
    + vm_compute. reflexivity.
  - eexists. unfold include_line.
    rewrite (include_line_target fs (parse_file fs 1) st [] (txt "a.sfz")).
    + split; vm_compute; reflexivity.
    + discriminate.
    + repeat (constructor; [discriminate|]). constructor.
    + vm_compute. reflexivity.
Defined.

(** ** Opcodes that are dropped *)

Lemma store_all_dropped st toks :
  (forall key v, store_opcode st key v = st) ->
  store_all store_opcode st toks = st.
Proof.
  intros H. unfold store_all. induction toks as [|kv toks IH]; simpl.
  - reflexivity.
  - rewrite H. exact IH.
Qed.

Lemma startswith_cons_ne a s b p :
  a <> b -> Str.startswith (a :: s) (b :: p) = false.
Proof.
  intros H. cbn [Str.startswith].
  now rewrite (proj2 (chr_eqb_neq a b) H).
Qed.

(** The removal of a comment keeps the first character of a line that
    does not start with white space or with the comment itself. *)
Lemma remove_inline_comment_head a rest :
  is_space a = false -> Str.startswith (a :: rest) (txt "//") = false ->
  exists t, remove_inline_comment (a :: rest) = a :: t.
Proof.
  intros Ha Hs. unfold remove_inline_comment.
  destruct (Str.contains (txt "//") (a :: rest)); [|eauto].
  cbn [Str.split_head]. rewrite Hs. rewrite strip_cons_keep by exact Ha.
  eauto.
Qed.

(** X8. Opcodes with no place to go are dropped without a message. Before
    the first section marker, and while the current region is an empty
    mapping (a [<region>] line with no opcode of its own and nothing to
    inherit), a line that starts with none of white space, [#] and [<]
    leaves the parser exactly as it was, whatever opcodes it holds. *)
Theorem homeless_opcodes_are_dropped (fs : filesystem)
    (parse : parser -> pystr -> outcome parser) (st : parser)
    (a : ascii) (rest base_path : pystr) :
  current_section st = None \/ in_empty_region st ->
  is_space a = false -> a <> "#"%char -> a <> "<"%char ->
  process_line fs parse st (a :: rest) base_path = Done st.
Proof.
  intros Hst Ha Hh Hl. unfold process_line.
  change (Num.is_nil (a :: rest)) with false. cbv iota.
  destruct (Str.startswith (a :: rest) (txt "//")) eqn:Hs; [reflexivity|].
  destruct (remove_inline_comment_head a rest Ha Hs) as [t ->].
  change (txt "#define") with ("#"%char :: txt "define").
  change (txt "#include") with ("#"%char :: txt "include").
  change (txt "<control>") with ("<"%char :: txt "control>").
  change (txt "<global>") with ("<"%char :: txt "global>").
  change (txt "<master>") with ("<"%char :: txt "master>").
  change (txt "<group>") with ("<"%char :: txt "group>").
  change (txt "<region>") with ("<"%char :: txt "region>").
  rewrite !startswith_cons_ne by assumption.
  destruct (Str.contains (txt "=") (a :: t)); [|reflexivity].
  f_equal. apply store_all_dropped. intros key v. unfold store_opcode.
  destruct Hst as [->|(-> & g & r & -> & ->)]; reflexivity.
Qed.

Lemma homeless_opcodes_are_dropped_witness :
  let fs := lines_fs bare_region in
  let st := state_of (parsed bare_region) in
  all_regions st = [∅]
  /\ process_line fs (parse_file fs 1) st (txt "sample=a.wav lokey=36") []
     = Done st
  /\ process_line fs (parse_file fs 1) new_parser (txt "volume=-3") []
     = Done new_parser.
Proof.
  intros fs st. split; [vm_compute; reflexivity|]. split.
  - apply (homeless_opcodes_are_dropped fs (parse_file fs 1) st "s"%char
             (txt "ample=a.wav lokey=36") []);
      [|reflexivity|discriminate|discriminate].
    right. split; [vm_compute; reflexivity|].
    exists 0%nat, 0%nat. split; vm_compute; reflexivity.
  - apply (homeless_opcodes_are_dropped fs (parse_file fs 1) new_parser
             "v"%char (txt "olume=-3") []);
      [|reflexivity|discriminate|discriminate].
    left. reflexivity.
Defined.

(** ** Inline comments *)

Lemma startswith_app s t p :
  Str.startswith s p = true -> Str.startswith (s ++ t) p = true.
Proof.
  revert s. induction p as [|b p IH]; intros s H; [reflexivity|].
  destruct s as [|a s]; [discriminate|]. cbn [Str.startswith app] in *.
  apply andb_true_iff in H as [H1 H2]. rewrite H1. now apply IH.
Qed.


Lemma contains_cons p a s :
  Str.contains p (a :: s) = Str.startswith (a :: s) p || Str.contains p s.
Proof. reflexivity. Qed.

Lemma contains_app_l p s t :
  Str.contains p s = true -> Str.contains p (s ++ t) = true.
Proof.
  induction s as [|a s IH]; intros H.
  - destruct p; [destruct t; reflexivity|]. discriminate.
  - rewrite <- app_comm_cons, contains_cons. rewrite contains_cons in H.
    apply orb_true_iff in H as [H|H].
    + pose proof (startswith_app (a :: s) t p H) as H'.
      rewrite <- app_comm_cons in H'. now rewrite H'.
    + rewrite (IH H). apply orb_true_r.
Qed.

Lemma contains_app_r p s t :
  Str.contains p t = true -> Str.contains p (s ++ t) = true.
Proof.
  intros H. induction s as [|a s IH]; [exact H|].
  rewrite <- app_comm_cons, contains_cons, IH. apply orb_true_r.
Qed.

Lemma contains_starts p s :
  Str.contains p s = false -> Str.startswith s p = false.
Proof.
  destruct s; simpl; intros H.
  - now apply orb_false_iff in H as [H _].
  - now apply orb_false_iff in H as [H _].
Qed.

Lemma contains_lstrip_by f p s :
  Str.contains p s = false -> Str.contains p (Str.lstrip_by f s) = false.
Proof.
  induction s as [|a s IH]; intros H; [exact H|].
  cbn [Str.lstrip_by]. destruct (f a); [|exact H].
  apply IH. rewrite contains_cons in H. now apply orb_false_iff in H as [_ H].
Qed.

Lemma rstrip_by_prefix f s : exists t, s = Str.rstrip_by f s ++ t.
Proof.
  induction s as [|a s [t IH]]; [now exists []|].
  cbn [Str.rstrip_by]. destruct (Str.rstrip_by f s) as [|b r] eqn:E.
  - destruct (f a); [now exists (a :: s)|]. exists s. reflexivity.
  - exists t. rewrite IH at 1. reflexivity.
Qed.

Lemma contains_rstrip_by f p s :
  Str.contains p s = false -> Str.contains p (Str.rstrip_by f s) = false.
Proof.
  intros H. destruct (Str.contains p (Str.rstrip_by f s)) eqn:E;
    [|reflexivity].
  destruct (rstrip_by_prefix f s) as [t Ht].
  apply (contains_app_l _ _ t) in E. rewrite <- Ht in E. congruence.
Qed.

Lemma contains_strip p s :
  Str.contains p s = false -> Str.contains p (Str.strip s) = false.
Proof.
  intros H. unfold Str.strip, Str.strip_by.
  now apply contains_rstrip_by, contains_lstrip_by.
Qed.

(** The text before the first [//] of a line. *)
Lemma split_head_comment code comment :
  Str.contains (txt "//") (code ++ txt "/") = false ->
  Str.split_head (code ++ txt "//" ++ comment) (txt "//") = code
  /\ (code <> [] ->
      Str.startswith (code ++ txt "//" ++ comment) (txt "//") = false).
Proof.
  induction code as [|a code IH]; intros H.
  - split; [reflexivity|congruence].
  - rewrite <- app_comm_cons, contains_cons in H.
    apply orb_false_iff in H as [H1 H2].
    assert (Hs : Str.startswith ((a :: code) ++ txt "//" ++ comment)
                                (txt "//") = false).
    { destruct code as [|b code]; cbn [Str.startswith app txt
                                        list_ascii_of_string] in *.
      - apply andb_false_iff in H1 as [H1|H1]; [now rewrite H1|].
        discriminate.
      - exact H1. }
    split; [|intros _; exact Hs].
    rewrite <- app_comm_cons in *. cbn [Str.split_head]. rewrite Hs.
    f_equal. now apply IH.
Qed.

(** X9. A comment at the end of a line is not seen by the line processor:
    a line made of a text, [//] and anything after it is processed as the
    text alone, without the white space around it. The text is what comes
    before the first [//]: it holds none and does not end with [/]. *)
Theorem inline_comment_is_ignored (fs : filesystem)
    (parse : parser -> pystr -> outcome parser) (st : parser)
    (code comment base_path : pystr) :
  Str.contains (txt "//") (code ++ txt "/") = false ->
  process_line fs parse st (code ++ txt "//" ++ comment) base_path
  = process_line fs parse st (Str.strip code) base_path.
Proof.
  intros H. destruct (split_head_comment code comment H) as [Hh Hs].
  assert (Hc : Str.contains (txt "//") code = false).
  { destruct (Str.contains (txt "//") code) eqn:E; [|reflexivity].
    apply (contains_app_l _ _ (txt "/")) in E. congruence. }
  pose proof (contains_strip _ _ Hc) as Hc'.
  assert (Hr : remove_inline_comment (code ++ txt "//" ++ comment)
               = Str.strip code).
  { unfold remove_inline_comment.
    rewrite (contains_app_r (txt "//") code (txt "//" ++ comment))
      by (apply contains_app_l with (s := txt "//"); reflexivity).
    now rewrite Hh. }
  destruct code as [|a code]; [reflexivity|].
  specialize (Hs ltac:(discriminate)).
  unfold process_line at 1.
  change (Num.is_nil ((a :: code) ++ txt "//" ++ comment)) with false.
  cbv iota. rewrite Hs, Hr.
  destruct (Str.strip (a :: code)) as [|b line] eqn:E; [reflexivity|].
  unfold process_line. change (Num.is_nil (b :: line)) with false.
  cbv iota. rewrite (contains_starts _ _ Hc').
  assert (Hr' : remove_inline_comment (b :: line) = b :: line)
    by (unfold remove_inline_comment; now rewrite Hc').
  rewrite Hr'. reflexivity.
Qed.

Lemma inline_comment_is_ignored_witness :
  let fs := lines_fs [] in
  let st := set_section SecGlobal new_parser in
  process_line fs (parse_file fs 1) st (txt "volume=-3  // quieter") []
  = process_line fs (parse_file fs 1) st (txt "volume=-3") []
  /\ data_global (state_of (process_line fs (parse_file fs 1) st
                              (txt "volume=-3  // quieter") []))
     = {[ txt "volume" := VInt (-3) ]}.
Proof.
  intros fs st. split; [|vm_compute; reflexivity].
  apply (inline_comment_is_ignored fs (parse_file fs 1) st
           (txt "volume=-3  ") (txt " quieter") []).
  vm_compute. reflexivity.
Defined.

(** ** When [normalize] returns *)

Section NormalizeReturns.

Variable fs : filesystem.

Lemma normalize_sample_ok dp region :
  (exists smp, normalize_sample fs dp region = Ok smp)
  <-> sample_is_path dp region.
Proof.
  unfold normalize_sample, sample_is_path.
  destruct (region !! txt "sample") as [smp|];
    [|split; [intros _ v Hv; discriminate Hv|eauto]].
  transitivity (truthy smp = true ->
                is_number smp = false
                /\ (truthy dp = true -> is_number dp = false)).
  - destruct (truthy smp) eqn:Hs; cbn [andb]; [|split; [congruence|eauto]].
    destruct (truthy dp) eqn:Hd; (split; [intros [x Hx] _|intros H]).
    + destruct dp, smp; try discriminate Hx; (split; reflexivity).
    + destruct (H eq_refl) as [H1 H2]. specialize (H2 eq_refl).
      destruct dp, smp; try discriminate H1; try discriminate H2. eauto.
    + destruct smp; try discriminate Hx. split; [reflexivity|congruence].
    + destruct (H eq_refl) as [H1 _].
      destruct smp; try discriminate H1. eauto.
  - split; intros H.
    + intros v Hv. inversion Hv; subst. exact H.
    + apply H. reflexivity.
Qed.

Lemma normalize_region_ok dp region :
  (exists norm, normalize_region fs dp region = Ok norm)
  <-> sample_is_path dp region.
Proof.
  rewrite <- normalize_sample_ok. unfold normalize_region.
  destruct (normalize_sample fs dp region) as [smp|e]; split; eauto.
  - intros [? H]. discriminate.
  - intros [? H]. discriminate.
Qed.

Lemma normalize_all_ok dp rs :
  (exists ns, normalize_all fs dp rs = Ok ns)
  <-> Forall (sample_is_path dp) rs.
Proof.
  induction rs as [|region rs IH]; simpl.
  - split; [constructor|eauto].
  - rewrite Forall_cons, <- IH, <- normalize_region_ok.
    destruct (normalize_region fs dp region) as [norm|e];
      [destruct (normalize_all fs dp rs) as [ns|e']|];
      (split; intros H;
       first [ destruct H as [? H]; discriminate H
             | destruct H as [[? H1] [? H2]];
               first [discriminate H1|discriminate H2]
             | eauto ]).
Qed.

End NormalizeReturns.

(** X10. [normalize] returns a document exactly when no sample makes it
    raise: for every region, the sample is absent, or false as a condition
    (an empty string, a zero), or a string, and in the last case the
    default path of the control scope, when it is set to something true
    as a condition, is a string too. The document then carries the control
    scope as it is and one descriptor for each region. *)
Theorem normalize_returns_iff (fs : filesystem) (st : parser) :
  let default_path := get (data_control st) "default_path" (VStr []) in
  ((exists doc, normalize fs st = Ok doc)
   <-> Forall (sample_is_path default_path) (all_regions st))
  /\ forall doc, normalize fs st = Ok doc ->
                 doc_control doc = data_control st
                 /\ length (doc_regions doc) = length (all_regions st).
Proof.
  intros dp. split.
  - rewrite <- (normalize_all_ok fs). unfold normalize. fold dp.
    destruct (normalize_all fs dp (all_regions st)) as [ns|e]; split; eauto.
    + intros [? H]. discriminate.
    + intros [? H]. discriminate.
  - intros doc H. pose proof (normalize_regions fs st doc H) as HF.
    apply Forall2_length in HF. split; [|now symmetry].
    unfold normalize in H.
    destruct (normalize_all fs _ (all_regions st)); [|discriminate].
    now inversion H.
Qed.

Lemma normalize_returns_iff_witness :
  let fs := lines_fs windows_paths in
  let st := state_of (parsed windows_paths) in
  (exists doc, normalize fs st = Ok doc)
  /\ Forall (sample_is_path (VStr [])) (all_regions st)
  /\ length (doc_regions (document_of (normalize fs st))) = 2%nat.
Proof.
  intros fs st.
  destruct (normalize_returns_iff fs st) as [Hiff Hdoc].
  assert (H : normalize fs st = Ok (document_of (normalize fs st)))
    by (vm_compute; reflexivity).
  split; [eauto|]. split.
  - apply Hiff. eauto.
  - rewrite (proj2 (Hdoc _ H)). vm_compute. reflexivity.
Defined.

(** ** The separators of the samples *)

Lemma replace_char_absent c new s :
  Forall (fun a => a <> c) new ->
  Forall (fun a => a <> c) (Str.replace s [c] new).
Proof.
  intros Hn. unfold Str.replace. induction s as [|a s IH]; [constructor|].
  cbn [Str.replace_from Str.startswith length Nat.pred].
  rewrite andb_true_r. destruct (chr_eqb a c) eqn:E.
  - apply Forall_app. split; [exact Hn|exact IH].
  - constructor; [now apply chr_eqb_neq|exact IH].
Qed.

Lemma normalize_sample_slashes fs dp region s :
  normalize_sample fs dp region = Ok (Some (VStr s)) ->
  Forall (fun a => a <> backslash) s.
Proof.
  unfold normalize_sample.
  destruct (region !! txt "sample") as [smp|]; [|discriminate].
  assert (Hslash : Forall (fun a => a <> backslash) (txt "/"))
    by (repeat constructor; discriminate).
  destruct (truthy smp) eqn:Hs; cbn [andb].
  - destruct (truthy dp).
    + destruct dp, smp; try discriminate. intros H. inversion H; subst.
      now apply replace_char_absent.
    + destruct smp; try discriminate. intros H. inversion H; subst.
      now apply replace_char_absent.
  - intros H. inversion H; subst. cbn [truthy] in Hs.
    apply negb_false_iff, Z.eqb_eq in Hs. destruct s; [constructor|].
    unfold Str.len in Hs. simpl in Hs. lia.
Qed.

(** X11. No sample of the document [normalize] returns holds a backslash:
    every sample that is a string, joined to the default path or not, has
    had its backslashes replaced by slashes. *)
Theorem samples_use_slashes (fs : filesystem) (st : parser) (doc : document) :
  normalize fs st = Ok doc ->
  Forall (fun norm => forall s, sample norm = Some (VStr s) ->
                                Forall (fun a => a <> backslash) s)
         (doc_regions doc).
Proof.
  intros H. apply normalize_regions in H.
  induction H as [|region norm rs ns Hn _ IH]; constructor; [|exact IH].
  intros s Hs. unfold normalize_region in Hn.
  destruct (normalize_sample fs _ region) as [smp|e] eqn:E; [|discriminate].
  inversion Hn; subst. simpl in Hs. subst smp.
  now apply normalize_sample_slashes in E.
Qed.

Lemma samples_use_slashes_witness :
  let fs := lines_fs windows_paths in
  let st := state_of (parsed windows_paths) in
  let doc := document_of (normalize fs st) in
  map sample (doc_regions doc) = [Some (VStr (txt "drums/kick.wav")); None]
  /\ Forall (fun norm => forall s, sample norm = Some (VStr s) ->
                                   Forall (fun a => a <> backslash) s)
            (doc_regions doc).
Proof.
  intros fs st doc. split; [vm_compute; reflexivity|].
  apply (samples_use_slashes fs st doc). vm_compute. reflexivity.
Defined.

(** ** One region for each [<region>] line *)

Lemma length_regions_alter f g gs :
  (forall grp, length (regions (f grp)) = length (regions grp)) ->
  length (flat_map regions (alter f g gs)) = length (flat_map regions gs).
Proof.
  intros Hf. revert g. induction gs as [|grp gs IH]; intros g;
    [reflexivity|].
  destruct g as [|g]; simpl; rewrite !length_app.
  - now rewrite Hf.
  - f_equal. apply IH.
Qed.

Lemma length_regions_append region g gs :
  (g < length gs)%nat ->
  length (flat_map regions (alter (append_region region) g gs))
  = S (length (flat_map regions gs)).
Proof.
  revert g. induction gs as [|grp gs IH]; intros g Hg; simpl in Hg; [lia|].
  destruct g as [|g]; simpl; rewrite !length_app.
  - simpl. lia.
  - change (list_alter (append_region region) g gs)
      with (alter (append_region region) g gs).
    rewrite IH by lia. lia.
Qed.

Lemma length_regions_new_group gs :
  length (flat_map regions (gs ++ [new_group])) = length (flat_map regions gs).
Proof. rewrite flat_map_app, length_app. simpl. lia. Qed.

Lemma count_store_opcode st key v :
  length (all_regions (store_opcode st key v)) = length (all_regions st).
Proof.
  unfold store_opcode, all_regions.
  repeat match goal with
         | |- context [match ?o with _ => _ end] => destruct o
         end; try reflexivity; simpl; apply length_regions_alter;
    intros grp; simpl; try reflexivity. apply length_alter.
Qed.

Lemma count_store_in_region st key v :
  length (all_regions (store_in_region st key v)) = length (all_regions st).
Proof.
  unfold store_in_region, all_regions.
  destruct (current_region st) as [[g r]|]; [|reflexivity]. simpl.
  apply length_regions_alter. intros grp. simpl. apply length_alter.
Qed.

Lemma count_store_all store st toks :
  (forall st key v, group_in_range st -> group_in_range (store st key v)) ->
  (forall st key v,
     length (all_regions (store st key v)) = length (all_regions st)) ->
  group_in_range st ->
  group_in_range (store_all store st toks)
  /\ length (all_regions (store_all store st toks))
     = length (all_regions st).
Proof.
  intros Hg Hc Hst.
  apply (store_all_keeps
           (fun st' => group_in_range st'
                       /\ length (all_regions st')
                          = length (all_regions st))); [|now split].
  intros st' key v [H1 H2]. split; [now apply Hg|]. now rewrite Hc.
Qed.

Lemma count_open_group st :
  length (all_regions (open_group st)) = length (all_regions st).
Proof. unfold open_group, all_regions. simpl. apply length_regions_new_group. Qed.

Lemma count_open_region st :
  group_in_range st ->
  length (all_regions (open_region st)) = S (length (all_regions st)).
Proof.
  unfold group_in_range, all_regions. intros H.
  destruct st as [c gl gs d s [g|] cr pf tr]; unfold open_region;
    simpl in *.
  - apply length_regions_append. now apply H.
  - rewrite length_regions_append by (rewrite length_app; simpl; lia).
    now rewrite length_regions_new_group.
Qed.

(** A line that starts with [//] is empty once its comment is gone. *)
Lemma comment_line_is_empty line :
  Str.startswith line (txt "//") = true -> remove_inline_comment line = [].
Proof.
  intros H. unfold remove_inline_comment.
  destruct line as [|a line]; [discriminate H|].
  rewrite contains_cons, H. cbn [orb Str.split_head]. rewrite H.
  reflexivity.
Qed.

(** Two prefixes of a line agree on their first two characters. *)
Lemma startswith_agree s x y p x' y' q :
  Str.startswith s (x :: y :: p) = true ->
  Str.startswith s (x' :: y' :: q) = true -> x = x' /\ y = y'.
Proof.
  destruct s as [|a [|b s]]; cbn [Str.startswith]; intros H1 H2;
    try discriminate.
  - apply andb_true_iff in H1 as [_ H1]. discriminate.
  - apply andb_true_iff in H1 as [H1a H1]. apply andb_true_iff in H1 as [H1b _].
    apply andb_true_iff in H2 as [H2a H2]. apply andb_true_iff in H2 as [H2b _].
    apply chr_eqb_eq in H1a, H1b, H2a, H2b. subst. now split.
Qed.

Lemma not_region_line s x y p :
  Str.startswith s (x :: y :: p) = true ->
  (x, y) <> ("<"%char, "r"%char) ->
  Str.startswith s (txt "<region>") = false.
Proof.
  intros H1 Hn. destruct (Str.startswith s (txt "<region>")) eqn:H2;
    [|reflexivity].
  destruct (startswith_agree _ _ _ _ _ _ _ H1 H2) as [-> ->]. congruence.
Qed.

(** What a line that includes nothing does to the number of regions. *)
Lemma process_line_count fs parse st line base_path :
  group_in_range st ->
  Str.startswith (remove_inline_comment line) (txt "#include") = false ->
  exists st',
    process_line fs parse st line base_path = Done st'
    /\ group_in_range st'
    /\ length (all_regions st')
       = (length (all_regions st)
          + if Str.startswith (remove_inline_comment line) (txt "<region>")
            then 1 else 0)%nat.
Proof.
  intros Hg Hinc. unfold process_line.
  destruct line as [|a l].
  { exists st. split; [reflexivity|]. split; [exact Hg|]. unfold all_regions; simpl; lia. }
  change (Num.is_nil (a :: l)) with false. cbv iota.
  destruct (Str.startswith (a :: l) (txt "//")) eqn:Hs.
  { rewrite (comment_line_is_empty _ Hs). exists st.
    split; [reflexivity|]. split; [exact Hg|]. unfold all_regions; simpl; lia. }
  cbv zeta. revert Hinc. generalize (remove_inline_comment (a :: l)).
  intros line Hinc.
  destruct (Str.startswith line (txt "#define")) eqn:Hd.
  { rewrite (not_region_line _ _ _ _ Hd) by discriminate.
    destruct (Re.match_ define_re line); eexists;
      (split; [reflexivity|]); (split; [exact Hg|]); unfold all_regions; simpl; lia. }
  rewrite Hinc.
  destruct (Str.startswith line (txt "<control>")) eqn:H1.
  { rewrite (not_region_line _ _ _ _ H1) by discriminate.
    eexists. split; [reflexivity|]. split; [exact Hg|]. unfold all_regions; simpl; lia. }
  destruct (Str.startswith line (txt "<global>")) eqn:H2.
  { rewrite (not_region_line _ _ _ _ H2) by discriminate.
    eexists. split; [reflexivity|]. split; [exact Hg|]. unfold all_regions; simpl; lia. }
  destruct (Str.startswith line (txt "<master>")) eqn:H3.
  { rewrite (not_region_line _ _ _ _ H3) by discriminate.
    eexists. split; [reflexivity|].
    split; [apply group_in_range_open_group|].
    rewrite count_open_group. lia. }
  destruct (Str.startswith line (txt "<group>")) eqn:H4.
  { rewrite (not_region_line _ _ _ _ H4) by discriminate.
    eexists. split; [reflexivity|].
    split; [apply group_in_range_open_group|].
    rewrite count_open_group. lia. }
  pose proof (group_in_range_open_region st Hg) as Hg'.
  pose proof (count_open_region st Hg) as Hc'.
  destruct (Str.startswith line (txt "<region>")).
  - match goal with
    | |- context [if ?b then _ else _] => destruct b
    end; eexists; (split; [reflexivity|]).
    + destruct (count_store_all store_in_region (open_region st)
                  (extract_opcodes (Str.strip (Str.slice_from line 8)))
                  group_in_range_store_in_region count_store_in_region Hg')
        as [G C].
      split; [exact G|]. rewrite C. lia.
    + split; [exact Hg'|]. lia.
  - destruct (Str.contains (txt "=") line); eexists;
      (split; [reflexivity|]).
    + destruct (count_store_all store_opcode st (extract_opcodes line)
                  group_in_range_store_opcode count_store_opcode Hg)
        as [G C].
      split; [exact G|]. rewrite C. lia.
    + split; [exact Hg|]. lia.
Qed.

Lemma for_lines_count fs parse base_path st ls :
  group_in_range st ->
  Forall (fun l => is_include_line l = false) ls ->
  exists st',
    for_lines (fun st line => process_line fs parse st line base_path) st ls
    = Done st'
    /\ length (all_regions st')
       = (length (all_regions st) + region_lines ls)%nat.
Proof.
  intros Hg Hf. revert st Hg.
  induction Hf as [|raw ls Hraw Hf IH]; intros st Hg; simpl.
  - exists st. split; [reflexivity|lia].
  - destruct (process_line_count fs parse st (Str.strip raw) base_path Hg Hraw)
      as (st1 & -> & Hg1 & Hc1).
    destruct (IH st1 Hg1) as (st' & -> & Hc).
    exists st'. split; [reflexivity|]. rewrite Hc, Hc1.
    unfold is_region_line.
    destruct (Str.startswith (remove_inline_comment (Str.strip raw))
                             (txt "<region>")); lia.
Qed.

(** X12. The parse of a file that includes no other file returns, and the
    document it leaves has one region for each line of the file that opens
    one, no more and no fewer: a line that, without the white space around
    it and without its comment, starts with [<region>]. No other line adds
    a region and none removes one. The file is one of the disk: its path
    resolves and names it. *)
Theorem one_region_per_region_line (fs : filesystem) (fuel : nat)
    (filepath : pystr) (ls : list pystr) :
  resolve_error fs filepath = None ->
  files fs !! resolve fs filepath = Some (Lines ls) ->
  Forall (fun l => is_include_line l = false) ls ->
  exists st,
    parse_file fs (S fuel) new_parser filepath = Done st
    /\ length (all_regions st) = region_lines ls.
Proof.
  intros Hres Hfile Hinc. simpl. rewrite Hres.
  destruct (decide (resolve fs filepath ∈ processed_files new_parser))
    as [Hin|_]; [simpl in Hin; set_solver|].
  rewrite Hfile.
  destruct (for_lines_count fs (parse_file fs fuel)
              (parent fs (resolve fs filepath))
              (emit (Opened (resolve fs filepath))
                    (add_processed (resolve fs filepath) new_parser))
              ls) as (st & Hst & Hc); [|exact Hinc|].
  - intros g Hgr. discriminate.
  - exists st. split; [exact Hst|]. rewrite Hc. reflexivity.
Qed.

Lemma one_region_per_region_line_witness :
  region_lines (map txt kit_lines) = 3%nat
  /\ exists st,
       parse_file (lines_fs kit_lines) 1 new_parser (txt "a.sfz") = Done st
       /\ length (all_regions st) = region_lines (map txt kit_lines).
Proof.
  split; [vm_compute; reflexivity|].
  apply (one_region_per_region_line (lines_fs kit_lines) 0 (txt "a.sfz")
           (map txt kit_lines)).
  - reflexivity.
  - vm_compute. reflexivity.
  - repeat (constructor; [vm_compute; reflexivity|]). constructor.
Defined.

(** ** Integers are read back *)

Lemma digit_facts c :
  is_digit c = true ->
  is_space c = false /\ Num.blank c = false /\ c <> "."%char
  /\ c <> "_"%char /\ c <> "-"%char /\ c <> "+"%char /\ c <> quote.
Proof.
  destruct c as [[] [] [] [] [] [] [] []]; vm_compute; intros H;
    try discriminate H; repeat split; discriminate.
Qed.

Lemma drop_underscores_digits prev d :
  prev <> "_"%char -> Forall (fun c => is_digit c = true) d ->
  Num.drop_underscores prev d = Some d.
Proof.
  intros Hp Hd. revert prev Hp.
  induction Hd as [|a d Ha Hd IH]; intros prev Hp; cbn [Num.drop_underscores].
  - now rewrite (proj2 (chr_eqb_neq prev "_") Hp).
  - destruct (digit_facts a Ha) as (_ & _ & _ & Hu & _).
    rewrite (proj2 (chr_eqb_neq a "_") Hu), Ha, andb_false_r.
    now rewrite (IH a Hu).
Qed.

Lemma forallb_digits d :
  Forall (fun c => is_digit c = true) d -> forallb is_digit d = true.
Proof. induction 1 as [|a d Ha _ IH]; simpl; [reflexivity|]. now rewrite Ha. Qed.

(** A run of digits, after a [-] or not, is read as the integer the
    digits write when they are not too many, and is kept as it is when
    they are. *)
Lemma parse_value_digits (neg : bool) d :
  d <> [] -> Forall (fun c => is_digit c = true) d ->
  parse_value ((if neg then ["-"%char] else []) ++ d)
  = if (Num.max_str_digits <? length d)%nat
    then VStr ((if neg then ["-"%char] else []) ++ d)
    else VInt (Num.signed neg (Num.digits_value d 0)).
Proof.
  intros Hne Hd.
  set (s := (if neg then ["-"%char] else []) ++ d).
  assert (Hs : Forall (fun c => is_digit c = true \/ c = "-"%char) s).
  { unfold s. apply Forall_app. split.
    - destruct neg; [apply Forall_cons_2; [now right|]|]; apply Forall_nil_2.
    - eapply Forall_impl; [exact Hd|]. intros c Hc. now left. }
  assert (Hstrip : Str.strip s = s).
  { apply strip_by_none. eapply Forall_impl; [exact Hs|].
    intros c [Hc| ->]; [apply (digit_facts c Hc)|reflexivity]. }
  assert (Hblank : Str.strip_by Num.blank s = s).
  { apply strip_by_none. eapply Forall_impl; [exact Hs|].
    intros c [Hc| ->]; [apply (digit_facts c Hc)|reflexivity]. }
  assert (Hdot : Str.contains (txt ".") s = false).
  { apply contains_char_absent. eapply Forall_impl; [exact Hs|].
    intros c [Hc| ->]; [apply (digit_facts c Hc)|discriminate]. }
  assert (Hq : Str.startswith s [quote] = false).
  { unfold s. destruct neg; [reflexivity|]. destruct d as [|a d]; [congruence|].
    apply startswith_cons_ne. apply (digit_facts a). now inversion Hd. }
  assert (Hsign : Num.take_sign s = (neg, d)).
  { unfold s. destruct neg; [reflexivity|]. destruct d as [|a d]; [congruence|].
    cbn [app Num.take_sign]. inversion Hd as [|? ? Ha _]; subst.
    destruct (digit_facts a Ha) as (_ & _ & _ & _ & Hm & Hp & _).
    now rewrite (proj2 (chr_eqb_neq a "-") Hm),
                (proj2 (chr_eqb_neq a "+") Hp). }
  unfold parse_value. cbv zeta. rewrite Hstrip, Hq. cbn [andb].
  rewrite Hdot. unfold Num.py_int. cbv zeta. rewrite Hblank, Hsign.
  rewrite drop_underscores_digits by (discriminate || assumption).
  rewrite forallb_digits by assumption.
  destruct d as [|a d]; [congruence|]. cbn [Num.is_nil negb orb].
  destruct (Num.max_str_digits <? length (a :: d))%nat; reflexivity.
Qed.

Lemma uint_digits u :
  Forall (fun c => is_digit c = true)
         (txt (DecimalString.NilEmpty.string_of_uint u)).
Proof. induction u; simpl; constructor; auto. Qed.

Lemma uint_value_acc u acc :
  Num.digits_value (txt (DecimalString.NilEmpty.string_of_uint u)) (Z.pos acc)
  = Z.pos (Pos.of_uint_acc u acc).
Proof.
  revert acc. induction u; intros acc; cbn [DecimalString.NilEmpty.string_of_uint
    txt list_ascii_of_string Num.digits_value Pos.of_uint_acc];
    [reflexivity|..];
    match goal with
    | |- Num.digits_value _ (10 * _ + Num.digit_value ?c) = _ =>
        let v := eval vm_compute in (Num.digit_value c) in
        change (Num.digit_value c) with v
    end;
    rewrite <- IHu; f_equal; lia.
Qed.

Lemma uint_value u :
  Num.digits_value (txt (DecimalString.NilEmpty.string_of_uint u)) 0
  = Z.of_uint u.
Proof.
  unfold Z.of_uint.
  induction u; cbn [DecimalString.NilEmpty.string_of_uint txt
    list_ascii_of_string Num.digits_value Pos.of_uint];
    [reflexivity|exact IHu|..];
    match goal with
    | |- Num.digits_value _ (10 * 0 + Num.digit_value ?c) = _ =>
        let v := eval vm_compute in (10 * 0 + Num.digit_value c) in
        change (10 * 0 + Num.digit_value c) with v
    end;
    apply uint_value_acc.
Qed.

Lemma uint_text_nonnil u :
  u <> Decimal.Nil ->
  DecimalString.NilZero.string_of_uint u
  = DecimalString.NilEmpty.string_of_uint u
  /\ txt (DecimalString.NilEmpty.string_of_uint u) <> [].
Proof. destruct u; intros H; try congruence; split; (reflexivity || discriminate). Qed.

Lemma rstrip_by_snoc_keep p s z :
  p z = false -> Str.rstrip_by p (s ++ [z]) = s ++ [z].
Proof.
  intros Hz. induction s as [|a s IH]; cbn [app Str.rstrip_by].
  - now rewrite Hz.
  - rewrite IH. destruct (s ++ [z]) eqn:E; [|reflexivity].
    destruct s; discriminate.
Qed.

(** Quotes around a text that has no white space at its ends and does
    not start with a quote are taken off before the text is read. *)
Lemma parse_value_between_quotes s :
  Str.strip s = s -> Str.startswith s [quote] = false ->
  parse_value (quote :: s ++ [quote]) = parse_value s.
Proof.
  intros Hs Hnq.
  assert (Hstrip : Str.strip (quote :: s ++ [quote]) = quote :: s ++ [quote]).
  { rewrite strip_cons_keep by reflexivity. f_equal.
    now apply rstrip_by_snoc_keep. }
  assert (Hq : Str.startswith (quote :: s ++ [quote]) [quote]
               && Str.endswith (quote :: s ++ [quote]) [quote] = true).
  { rewrite endswith_char. apply andb_true_iff. split; [reflexivity|].
    apply bool_decide_eq_true_2.
    change (quote :: s ++ [quote]) with ((quote :: s) ++ [quote]).
    apply last_snoc. }
  unfold parse_value. cbv zeta.
  rewrite Hstrip, Hq, slice_inner. cbn [tail]. rewrite removelast_last.
  rewrite Hs, Hnq. reflexivity.
Qed.

Lemma parse_value_decimal (n : Z) :
  let read :=
    if (Num.max_str_digits <? length (decimal (Z.abs n)))%nat
    then VStr (decimal n) else VInt n in
  parse_value (decimal n) = read
  /\ parse_value (quote :: decimal n ++ [quote]) = read.
Proof.
  assert (H : exists (neg : bool) d,
             decimal n = (if neg then ["-"%char] else []) ++ d
             /\ d = decimal (Z.abs n)
             /\ d <> [] /\ Forall (fun c => is_digit c = true) d
             /\ Num.signed neg (Num.digits_value d 0) = n).
  { unfold decimal. destruct n as [|p|p].
    - exists false, (txt "0"). repeat split; try discriminate.
      repeat constructor.
    - change (Z.abs (Z.pos p)) with (Z.pos p).
      change (Z.to_int (Z.pos p)) with (Decimal.Pos (Pos.to_uint p)).
      change (DecimalString.NilZero.string_of_int
                (Decimal.Pos (Pos.to_uint p)))
        with (DecimalString.NilZero.string_of_uint (Pos.to_uint p)).
      destruct (uint_text_nonnil (Pos.to_uint p)
                  (DecimalPos.Unsigned.to_uint_nonnil p)) as [-> Hne].
      exists false, (txt (DecimalString.NilEmpty.string_of_uint
                            (Pos.to_uint p))).
      split; [reflexivity|]. split; [reflexivity|]. split; [exact Hne|].
      split; [apply uint_digits|]. rewrite uint_value.
      exact (DecimalZ.of_to (Z.pos p)).
    - change (Z.abs (Z.neg p)) with (Z.pos p).
      change (Z.to_int (Z.pos p)) with (Decimal.Pos (Pos.to_uint p)).
      change (Z.to_int (Z.neg p)) with (Decimal.Neg (Pos.to_uint p)).
      change (DecimalString.NilZero.string_of_int
                (Decimal.Pos (Pos.to_uint p)))
        with (DecimalString.NilZero.string_of_uint (Pos.to_uint p)).
      change (DecimalString.NilZero.string_of_int
                (Decimal.Neg (Pos.to_uint p)))
        with (String "-"
                (DecimalString.NilZero.string_of_uint (Pos.to_uint p))).
      destruct (uint_text_nonnil (Pos.to_uint p)
                  (DecimalPos.Unsigned.to_uint_nonnil p)) as [-> Hne].
      exists true, (txt (DecimalString.NilEmpty.string_of_uint
                           (Pos.to_uint p))).
      split; [reflexivity|]. split; [reflexivity|]. split; [exact Hne|].
      split; [apply uint_digits|]. rewrite uint_value.
      exact (DecimalZ.of_to (Z.neg p)). }
  destruct H as (neg & d & Hdec & Habs & Hne & Hd & Hval).
  pose proof (parse_value_digits neg d Hne Hd) as Hp.
  rewrite <- Hdec, Hval, Habs in Hp. intros read. split; [exact Hp|].
  fold read in Hp. rewrite <- Hp.
  apply parse_value_between_quotes; rewrite Hdec.
  - apply strip_by_none. apply Forall_app. split.
    + destruct neg; repeat constructor.
    + eapply Forall_impl; [exact Hd|]. intros c Hc.
      apply (digit_facts c Hc).
  - destruct neg; [reflexivity|]. destruct d as [|a d']; [congruence|].
    apply startswith_cons_ne. apply (digit_facts a). now inversion Hd.
Qed.

(** X13. An integer written in decimal is read back as that integer by
    [parse_value], never as a float, as long as it has no more digits than
    [int] reads, 4300; with more digits the conversion fails and the text
    is kept as a string. It is the same when the digits stand between two
    quotes: quoting a number does not keep it a string. *)
Theorem parse_value_reads_integers (n : Z) :
  let read :=
    if (Num.max_str_digits <? length (decimal (Z.abs n)))%nat
    then VStr (decimal n) else VInt n in
  parse_value (decimal n) = read
  /\ parse_value (quote :: decimal n ++ [quote]) = read.
Proof. exact (parse_value_decimal n). Qed.

(** ** Values without a macro *)

Lemma replace_absent c old new s :
  Forall (fun a => a <> c) s -> Str.replace s (c :: old) new = s.
Proof.
  unfold Str.replace. induction 1 as [|a s Ha _ IH]; [reflexivity|].
  cbn [Str.replace_from Str.startswith].
  rewrite (proj2 (chr_eqb_neq a c) Ha). cbn [andb]. now rewrite IH.
Qed.

(** X14. Macros touch nothing but the places where a [$] stands: a value
    that holds no [$] is stored as [parse_value] reads it, whatever macros
    are defined. *)
Theorem values_without_dollar (defs : list (pystr * pystr)) (value : pystr) :
  Forall (fun a => a <> "$"%char) value ->
  substitute defs value = value
  /\ resolve_value defs value = parse_value value.
Proof.
  intros H.
  assert (Hs : substitute defs value = value).
  { unfold substitute. induction defs as [|[m v] defs IH]; [reflexivity|].
    cbn [fold_left fst snd]. now rewrite replace_absent. }
  split; [exact Hs|]. unfold resolve_value. now rewrite Hs.
Qed.

Lemma values_without_dollar_witness :
  let defs := [(txt "a", txt "X"); (txt "wav", txt "flac")] in
  substitute defs (txt "piano a.wav") = txt "piano a.wav"
  /\ resolve_value defs (txt "piano a.wav") = VStr (txt "piano a.wav").
Proof.
  intros defs.
  destruct (values_without_dollar defs (txt "piano a.wav")) as [H1 H2].
  - repeat (constructor; [discriminate|]). constructor.
  - split; [exact H1|]. rewrite H2. vm_compute. reflexivity.
Defined.

(** ** What a region line leaves in its region *)

Lemma extract_opcodes_no_equals line :
  Str.contains (txt "=") line = false -> extract_opcodes line = [].
Proof.
  intros H. pose proof (extract_opcodes_loop line) as E.
  rewrite extract_loop_eq in E. cbv zeta in E.
  rewrite (find_absent _ _ _ H) in E. simpl in E.
  destruct (0 <? Str.len line); congruence.
Qed.

Lemma store_in_region_lookup st g r region0 key v :
  current_region st = Some (g, r) -> region_at st g r = Some region0 ->
  current_region (store_in_region st key v) = Some (g, r)
  /\ region_at (store_in_region st key v) g r = Some (<[key := v]> region0).
Proof.
  intros Hc Hr. unfold store_in_region. rewrite Hc. split; [exact Hc|].
  rewrite region_at_alter. destruct (decide (g = g)); [|congruence].
  unfold region_at in Hr. destruct (data_groups st !! g) as [grp|];
    [|discriminate].
  simpl. rewrite list_lookup_alter_eq, Hr. reflexivity.
Qed.

Lemma store_all_in_region_lookup toks st g r region0 :
  current_region st = Some (g, r) -> region_at st g r = Some region0 ->
  exists region,
    current_region (store_all store_in_region st toks) = Some (g, r)
    /\ region_at (store_all store_in_region st toks) g r = Some region
    /\ forall k, region !! k
                 = match last_value k toks with
                   | Some v => Some (resolve_value (defines st) v)
                   | None => region0 !! k
                   end.
Proof.
  revert st region0. induction toks as [|[key v] toks IH];
    intros st region0 Hc Hr.
  - exists region0. repeat split; assumption.
  - unfold store_all. cbn [fold_left fst snd].
    destruct (store_in_region_lookup st g r region0 key
                (resolve_value (defines st) v) Hc Hr) as [Hc' Hr'].
    destruct (IH _ _ Hc' Hr') as (region & Hc2 & Hr2 & Hk).
    exists region. split; [exact Hc2|]. split; [exact Hr2|].
    intros k. rewrite Hk, defines_store_in_region. cbn [last_value fst snd].
    destruct (last_value k toks); [reflexivity|].
    destruct (decide (key = k)) as [->|Hne].
    + apply lookup_insert_eq.
    + now apply lookup_insert_ne.
Qed.

(** X15. On a [<region>] line the opcodes of the line win over what the
    region inherits. The region the line creates holds, under each key,
    the resolved value of the last opcode of the line with that key when
    there is one; otherwise the opcode of the current group under that
    key; otherwise the opcode of the global scope. *)
Theorem region_line_precedence (fs : filesystem)
    (parse : parser -> pystr -> outcome parser) (st : parser)
    (rest base_path : pystr) :
  group_in_range st ->
  let toks := extract_opcodes (Str.strip (remove_inline_comment rest)) in
  exists st' g r region,
    process_line fs parse st (txt "<region>" ++ rest) base_path = Done st'
    /\ current_region st' = Some (g, r)
    /\ region_at st' g r = Some region
    /\ forall k,
         region !! k
         = match last_value k toks with
           | Some v => Some (resolve_value (defines st) v)
           | None =>
               match current_opcodes st !! k with
               | Some v => Some v
               | None => data_global st !! k
               end
           end.
Proof.
  intros Hg toks.
  assert (Hp : process_line fs parse st (txt "<region>" ++ rest) base_path
               = Done (store_all store_in_region (open_region st) toks)).
  { unfold process_line. rewrite comment_after_region.
    change (Num.is_nil (txt "<region>" ++ rest)) with false.
    change (Str.startswith (txt "<region>" ++ rest) (txt "//")) with false.
    cbv iota.
    set (line := txt "<region>" ++ after_marker rest).
    change (Str.startswith line (txt "#define")) with false.
    change (Str.startswith line (txt "#include")) with false.
    change (Str.startswith line (txt "<control>")) with false.
    change (Str.startswith line (txt "<global>")) with false.
    change (Str.startswith line (txt "<master>")) with false.
    change (Str.startswith line (txt "<group>")) with false.
    change (Str.startswith line (txt "<region>")) with true.
    subst line. cbv iota zeta.
    rewrite slice_from_region, strip_after_marker. fold toks.
    destruct (Str.strip (remove_inline_comment rest)) as [|a l] eqn:E.
    - reflexivity.
    - cbn [Num.is_nil negb andb].
      destruct (Str.contains (txt "=") (a :: l)) eqn:Hc; [reflexivity|].
      unfold toks. now rewrite (extract_opcodes_no_equals _ Hc). }
  destruct (open_region_snapshot st Hg) as (g & r & region0 & _ & Hc & _ & Hr
                                            & Hk0).
  destruct (store_all_in_region_lookup toks _ g r region0 Hc Hr)
    as (region & Hc' & Hr' & Hk).
  exists (store_all store_in_region (open_region st) toks), g, r, region.
  split; [exact Hp|]. split; [exact Hc'|]. split; [exact Hr'|].
  intros k. rewrite Hk, defines_open_region, Hk0. reflexivity.
Qed.

Lemma region_line_precedence_witness :
  let fs := lines_fs precedence_lines in
  let st := state_of (parsed precedence_lines) in
  exists st',
    process_line fs (parse_file fs 1) st
      (txt "<region> pan=1 sample=a.wav pan=2") [] = Done st'
    /\ all_regions st'
       = [ {[ txt "volume" := VInt (-6); txt "tune" := VInt 5;
              txt "pan" := VInt 2; txt "sample" := VStr (txt "a.wav") ]} ].
Proof.
  intros fs st.
  destruct (region_line_precedence fs (parse_file fs 1) st
              (txt " pan=1 sample=a.wav pan=2") [])
    as (st' & g & r & region & Hp & _).
  - intros g Hgr. vm_compute in Hgr. inversion Hgr. vm_compute. lia.
  - exists st'. split; [exact Hp|].
    assert (Hst : Done st'
                  = process_line fs (parse_file fs 1) st
                      (txt "<region> pan=1 sample=a.wav pan=2") [])
      by (symmetry; exact Hp).
    vm_compute in Hst. inversion Hst. vm_compute. reflexivity.
Defined.

(** ** Lines without an opcode, and an [=] without a key *)

Lemma slice_empty s a : Str.slice s a a = [].
Proof. unfold Str.slice. now rewrite Z.sub_diag. Qed.

(** The tokenizer on a line whose only [=] has no key before it. *)
Lemma extract_keyless pre value :
  keyless pre ->
  Forall (fun c => c <> "="%char) pre ->
  Forall (fun c => c <> "="%char) value ->
  extract_opcodes (pre ++ "="%char :: value) = [([], Str.strip value)].
Proof.
  intros Hk Hpre Hval.
  set (line := pre ++ "="%char :: value).
  pose proof (extract_opcodes_loop line) as E.
  rewrite extract_loop_eq in E.
  pose proof (len_nonneg pre) as Hp0. pose proof (len_nonneg value) as Hv0.
  assert (Hlen : Str.len line = Str.len pre + 1 + Str.len value).
  { unfold line. rewrite len_app, len_cons. lia. }
  assert (Hl : (0 <? Str.len line) = true) by (apply Z.ltb_lt; lia).
  rewrite Hl in E. cbv zeta in E.
  assert (Hfind : Str.find "="%char line 0 = Str.len pre).
  { pose proof (find_app "="%char [] pre value Hpre) as H.
    simpl app in H. change (Str.len []) with 0 in H. exact H. }
  rewrite Hfind in E.
  destruct (Z.eqb_spec (Str.len pre) (-1)) as [Hm|_]; [lia|].
  assert (Hkey : Str.strip (Str.slice line
                   (Str.rfind " "%char line 0 (Str.len pre) + 1)
                   (Str.len pre)) = []).
  { unfold line. rewrite rfind_prefix.
    destruct Hk as [->|[w ->]].
    - reflexivity.
    - rewrite rfind_at_snoc. change (chr_eqb " " " ") with true. cbv iota.
      rewrite len_app. change (Str.len [" "%char]) with 1.
      replace (0 + Str.len w + 1) with (Str.len w + 1) by lia.
      now rewrite slice_empty. }
  rewrite Hkey in E.
  assert (Hrest : Str.slice_from line (Str.len pre + 1) = value).
  { unfold line.
    replace (pre ++ "="%char :: value) with ((pre ++ ["="%char]) ++ value)
      by (now rewrite <- app_assoc).
    replace (Str.len pre + 1) with (Str.len (pre ++ ["="%char]))
      by (rewrite len_app; reflexivity).
    apply slice_from_app. }
  rewrite Hrest, (search_no_equals value Hval) in E.
  rewrite extract_loop_eq, Z.ltb_irrefl in E. simpl in E.
  now inversion E.
Qed.

(** The first pair the tokenizer returns on a line whose first [=] has no
    key before it, whatever follows. *)
Lemma extract_keyless_first pre rest :
  keyless pre ->
  Forall (fun c => c <> "="%char) pre ->
  exists v more, extract_opcodes (pre ++ "="%char :: rest) = ([], v) :: more.
Proof.
  intros Hk Hpre.
  set (line := pre ++ "="%char :: rest).
  pose proof (extract_opcodes_loop line) as E.
  rewrite extract_loop_eq in E.
  pose proof (len_nonneg pre) as Hp0. pose proof (len_nonneg rest) as Hv0.
  assert (Hlen : Str.len line = Str.len pre + 1 + Str.len rest).
  { unfold line. rewrite len_app, len_cons. lia. }
  assert (Hl : (0 <? Str.len line) = true) by (apply Z.ltb_lt; lia).
  rewrite Hl in E. cbv zeta in E.
  assert (Hfind : Str.find "="%char line 0 = Str.len pre).
  { pose proof (find_app "="%char [] pre rest Hpre) as H.
    simpl app in H. change (Str.len []) with 0 in H. exact H. }
  rewrite Hfind in E.
  destruct (Z.eqb_spec (Str.len pre) (-1)) as [Hm|_]; [lia|].
  assert (Hkey : Str.strip (Str.slice line
                   (Str.rfind " "%char line 0 (Str.len pre) + 1)
                   (Str.len pre)) = []).
  { unfold line. rewrite rfind_prefix.
    destruct Hk as [->|[w ->]].
    - reflexivity.
    - rewrite rfind_at_snoc. change (chr_eqb " " " ") with true. cbv iota.
      rewrite len_app. change (Str.len [" "%char]) with 1.
      replace (0 + Str.len w + 1) with (Str.len w + 1) by lia.
      now rewrite slice_empty. }
  rewrite Hkey in E.
  destruct (Re.search next_key_re _) as [[start m]|];
    destruct (extract_loop _ _ _) as [t|]; simpl in E; try discriminate;
    inversion E; eauto.
Qed.

Lemma word_first a :
  is_word a = true ->
  a <> "/"%char /\ a <> "#"%char /\ a <> "<"%char.
Proof.
  destruct a as [[] [] [] [] [] [] [] []]; vm_compute; intros H;
    try discriminate H; repeat split; discriminate.
Qed.

(** A line that starts with none of [/], [#] and [<] and holds no comment
    is a line of opcodes. *)
Lemma plain_line_is_opcodes fs parse st b rest base_path :
  b <> "/"%char -> b <> "#"%char -> b <> "<"%char ->
  Str.contains (txt "//") (b :: rest) = false ->
  process_line fs parse st (b :: rest) base_path
  = if Str.contains (txt "=") (b :: rest)
    then Done (store_all store_opcode st (extract_opcodes (b :: rest)))
    else Done st.
Proof.
  intros Hs Hh Hl Hc. unfold process_line.
  change (Num.is_nil (b :: rest)) with false. cbv iota.
  change (txt "//") with ("/"%char :: txt "/") at 1.
  rewrite (startswith_cons_ne b rest "/"%char (txt "/") Hs).
  unfold remove_inline_comment. rewrite Hc. cbv zeta.
  change (txt "#define") with ("#"%char :: txt "define").
  change (txt "#include") with ("#"%char :: txt "include").
  change (txt "<control>") with ("<"%char :: txt "control>").
  change (txt "<global>") with ("<"%char :: txt "global>").
  change (txt "<master>") with ("<"%char :: txt "master>").
  change (txt "<group>") with ("<"%char :: txt "group>").
  change (txt "<region>") with ("<"%char :: txt "region>").
  rewrite !startswith_cons_ne by assumption. reflexivity.
Qed.

Lemma keyless_line_first pre value :
  keyless_line pre ->
  keyless pre
  /\ exists b rest, pre ++ "="%char :: value = b :: rest
                    /\ b <> "/"%char /\ b <> "#"%char /\ b <> "<"%char.
Proof.
  intros [->|(a & w & -> & Ha)].
  - split; [now left|]. exists "="%char, value.
    repeat split; discriminate.
  - split; [right; now exists (a :: w)|].
    exists a, ((w ++ [" "%char]) ++ "="%char :: value).
    split; [reflexivity|]. now apply word_first.
Qed.

(** The line processor stores the pair with the empty key as it stores
    any pair. *)
Lemma keyless_line_stored fs parse st pre value base_path :
  keyless_line pre ->
  Forall (fun c => c <> "="%char) pre ->
  Forall (fun c => c <> "="%char) value ->
  Str.contains (txt "//") (pre ++ "="%char :: value) = false ->
  process_line fs parse st (pre ++ "="%char :: value) base_path
  = Done (store_opcode st []
            (resolve_value (defines st) (Str.strip value))).
Proof.
  intros Hk Hpre Hval Hc.
  destruct (keyless_line_first pre value Hk)
    as (Hk' & b & rest & Hline & Hs & Hh & Hl).
  pose proof (extract_keyless pre value Hk' Hpre Hval) as He.
  assert (Heq : Str.contains (txt "=") (pre ++ "="%char :: value) = true).
  { apply contains_app_r. reflexivity. }
  rewrite Hline in *.
  rewrite (plain_line_is_opcodes fs parse st b rest base_path Hs Hh Hl Hc).
  rewrite Heq, He. reflexivity.
Qed.

Lemma store_opcode_in_group st key v g :
  current_section st = Some SecGroup -> current_group st = Some g ->
  (g < length (data_groups st))%nat ->
  current_opcodes (store_opcode st key v) !! key = Some v.
Proof.
  intros Hs Hg Hlt. unfold store_opcode. rewrite Hs, Hg.
  unfold current_opcodes. simpl. rewrite Hg.
  destruct (lookup_lt_is_Some_2 _ _ Hlt) as [grp Hgrp].
  rewrite list_lookup_alter_eq, Hgrp. simpl. apply lookup_insert_eq.
Qed.

Lemma store_opcode_in_region st key v g r region :
  current_section st = Some SecRegion -> current_region st = Some (g, r) ->
  region_at st g r = Some region -> region <> ∅ ->
  region_at (store_opcode st key v) g r = Some (<[key := v]> region).
Proof.
  intros Hs Hc Hr Hne. unfold store_opcode. rewrite Hs, Hc, Hr.
  unfold is_empty_dict. rewrite bool_decide_eq_false_2 by exact Hne.
  pose proof (store_in_region_lookup st g r region key v Hc Hr) as [_ H].
  unfold store_in_region in H. rewrite Hc in H. exact H.
Qed.

Lemma store_opcode_dropped st key v :
  current_section st = None \/ in_empty_region st ->
  store_opcode st key v = st.
Proof.
  intros Hst. unfold store_opcode.
  destruct Hst as [->|(-> & g & r & -> & ->)]; reflexivity.
Qed.

(** C8, as the code has it. On a line with no [=] the tokenizer returns no
    pair. An [=] with no key before it is not skipped: when nothing, or a
    text that ends with a space, stands before the only [=] of a line, as
    in [=5] and in [sample = 5], the tokenizer returns one pair, with the
    empty key and the text after the [=] without the white space around
    it; and when other opcodes follow, the first pair it returns still has
    the empty key. The line processor stores that pair as it stores any
    pair, its value resolved: in the control scope, in the global scope,
    in the current group or in the current region, according to the
    section. It is dropped only where every opcode is: before the first
    section marker, and while the current region is an empty mapping. *)
Theorem tokenizer_edge_cases :
  (forall line,
     Str.contains (txt "=") line = false -> extract_opcodes line = [])
  /\ (forall pre value,
        keyless pre ->
        Forall (fun c => c <> "="%char) pre ->
        Forall (fun c => c <> "="%char) value ->
        extract_opcodes (pre ++ "="%char :: value) = [([], Str.strip value)])
  /\ (forall pre rest,
        keyless pre ->
        Forall (fun c => c <> "="%char) pre ->
        exists v more,
          extract_opcodes (pre ++ "="%char :: rest) = ([], v) :: more)
  /\ (forall fs parse st pre value base_path,
        keyless_line pre ->
        Forall (fun c => c <> "="%char) pre ->
        Forall (fun c => c <> "="%char) value ->
        Str.contains (txt "//") (pre ++ "="%char :: value) = false ->
        process_line fs parse st (pre ++ "="%char :: value) base_path
        = Done (store_opcode st []
                  (resolve_value (defines st) (Str.strip value))))
  /\ (forall st v,
        current_section st = Some SecControl ->
        data_control (store_opcode st [] v) !! ([] : pystr) = Some v)
  /\ (forall st v,
        current_section st = Some SecGlobal ->
        data_global (store_opcode st [] v) !! ([] : pystr) = Some v)
  /\ (forall st v g,
        current_section st = Some SecGroup -> current_group st = Some g ->
        (g < length (data_groups st))%nat ->
        current_opcodes (store_opcode st [] v) !! ([] : pystr) = Some v)
  /\ (forall st v g r region,
        current_section st = Some SecRegion ->
        current_region st = Some (g, r) ->
        region_at st g r = Some region -> region <> ∅ ->
        region_at (store_opcode st [] v) g r = Some (<[ [] := v ]> region))
  /\ (forall st v,
        current_section st = None \/ in_empty_region st ->
        store_opcode st [] v = st).
Proof.
  split; [exact extract_opcodes_no_equals|].
  split; [exact extract_keyless|].
  split; [exact extract_keyless_first|].
  split; [exact keyless_line_stored|].
  split.
  { intros st v Hs. unfold store_opcode. rewrite Hs. simpl.
    apply lookup_insert_eq. }
  split.
  { intros st v Hs. unfold store_opcode. rewrite Hs. simpl.
    apply lookup_insert_eq. }
  split; [intros st v g; apply store_opcode_in_group|].
  split; [intros st v g r region; apply store_opcode_in_region|].
  intros st v; apply store_opcode_dropped.
Qed.

Lemma tokenizer_edge_cases_witness :
  let fs := lines_fs spaced_equals in
  let st := set_section SecGlobal new_parser in
  extract_opcodes (txt "no opcode here") = []
  /\ extract_opcodes (txt "sample = 5") = [([], txt "5")]
  /\ process_line fs (parse_file fs 1) st (txt "sample = 5") []
     = Done (store_opcode st [] (VInt 5))
  /\ data_global (store_opcode st [] (VInt 5)) !! ([] : pystr)
     = Some (VInt 5)
  /\ store_opcode new_parser [] (VInt 5) = new_parser.
Proof.
  intros fs st.
  destruct tokenizer_edge_cases
    as (H1 & H2 & _ & H3 & _ & H5 & _ & _ & H8).
  split; [apply (H1 (txt "no opcode here")); vm_compute; reflexivity|].
  split.
  { apply (H2 (txt "sample ") (txt " 5")).
    - right. now exists (txt "sample").
    - repeat (constructor; [discriminate|]). constructor.
    - repeat (constructor; [discriminate|]). constructor. }
  split.
  { apply (H3 fs (parse_file fs 1) st (txt "sample ") (txt " 5") []).
    - right. exists "s"%char, (txt "ample"). now split.
    - repeat (constructor; [discriminate|]). constructor.
    - repeat (constructor; [discriminate|]). constructor.
    - vm_compute. reflexivity. }
  split; [apply (H5 st (VInt 5)); reflexivity|].
  apply (H8 new_parser (VInt 5)). now left.
Defined.

(** The claim of C8 fails on an [=] with no key, at the start of the line
    and after a space: the tokenizer returns a pair with the empty key,
    and the line processor stores its value under the empty key of the
    scope of the section. *)
Lemma dangling_equals_is_stored :
  extract_opcodes (txt "=5") = [([], txt "5")]
  /\ data_global (state_of (parsed dangling_equals)) = {[ [] := VInt 5 ]}
  /\ extract_opcodes (txt "sample = 5") = [([], txt "5")]
  /\ data_global (state_of (parsed spaced_equals)) = {[ [] := VInt 5 ]}.
Proof. repeat split; vm_compute; reflexivity. Qed.

(** ** Opcodes after a section marker *)

Lemma extract_opcodes_line kvs :
  Forall plain_opcode kvs -> extract_opcodes (opcodes_line kvs) = kvs.
Proof.
  intros H. destruct kvs as [|kv kvs]; [reflexivity|].
  pose proof (extract_loop_roundtrip (kv :: kvs) H ltac:(discriminate)
                [] [] (length (kv :: kvs)) (or_introl (conj eq_refl eq_refl))
                (le_n _)) as E.
  change ([] ++ [] ++ opcodes_line (kv :: kvs))
    with (opcodes_line (kv :: kvs)) in E.
  change (Str.len []) with 0 in E.
  pose proof (extract_opcodes_loop (opcodes_line (kv :: kvs))) as E'.
  set (f := Nat.max (length (kv :: kvs))
                    (S (length (opcodes_line (kv :: kvs))))).
  apply (extract_loop_more _ f) in E; [|unfold f; lia].
  apply (extract_loop_more _ f) in E'; [|unfold f; lia].
  congruence.
Qed.

Lemma rstrip_by_app_keep p a b :
  Str.rstrip_by p b = b -> b <> [] -> Str.rstrip_by p (a ++ b) = a ++ b.
Proof.
  intros Hb Hne. induction a as [|x a IH]; [exact Hb|].
  cbn [app Str.rstrip_by]. rewrite IH.
  destruct (a ++ b) eqn:E; [|reflexivity].
  exfalso. destruct a; [simpl in E; congruence|discriminate].
Qed.

(** A line of plain opcodes has no white space at its ends. *)
Lemma strip_opcodes_line kvs :
  Forall plain_opcode kvs -> Str.strip (opcodes_line kvs) = opcodes_line kvs.
Proof.
  intros H.
  assert (Hr : kvs <> [] ->
               Str.rstrip_by is_space (opcodes_line kvs) = opcodes_line kvs
               /\ opcodes_line kvs <> []).
  { induction H as [|[k v] rest (Hkne & Hk & Hv & Hvs) Hrest IH];
      [congruence|]. intros _. cbn [fst snd] in *.
    rewrite opcodes_line_cons. cbn [fst snd].
    split; [|destruct k; [congruence|discriminate]].
    destruct rest as [|kv' rest'].
    - rewrite app_nil_r. destruct v as [|c v'].
      + apply rstrip_by_app_keep; [reflexivity|discriminate].
      + change (k ++ "="%char :: c :: v')
          with (k ++ ["="%char] ++ c :: v').
        rewrite app_assoc.
        apply rstrip_by_app_keep; [|discriminate].
        now apply rstrip_by_fixed.
    - destruct (IH ltac:(discriminate)) as [IH1 IH2].
      replace (k ++ "="%char :: v ++ " "%char :: opcodes_line (kv' :: rest'))
        with ((k ++ "="%char :: v ++ [" "%char])
                ++ opcodes_line (kv' :: rest')).
      + now apply rstrip_by_app_keep.
      + rewrite <- !app_assoc. cbn [app]. rewrite <- app_assoc. reflexivity. }
  destruct kvs as [|[k v] rest]; [reflexivity|].
  destruct (Hr ltac:(discriminate)) as [Hr1 _].
  unfold Str.strip, Str.strip_by.
  assert (Hl : Str.lstrip_by is_space (opcodes_line ((k, v) :: rest))
               = opcodes_line ((k, v) :: rest)).
  { rewrite opcodes_line_cons. cbn [fst snd].
    inversion H as [|? ? (Hkne & Hk & _) _]; subst. cbn [fst] in *.
    destruct k as [|a k']; [congruence|]. cbn [app Str.lstrip_by].
    inversion Hk; subst. now rewrite word_not_space. }
  rewrite Hl. exact Hr1.
Qed.

(** What a [<region>] line does, whatever follows the marker. *)
Lemma region_line_stores fs parse st rest base_path :
  process_line fs parse st (txt "<region>" ++ rest) base_path
  = Done (store_all store_in_region (open_region st)
            (extract_opcodes (Str.strip (remove_inline_comment rest)))).
Proof.
  destruct (marker_lines fs parse st rest base_path) as (_ & _ & _ & _ & ->).
  cbv zeta.
  destruct (Str.strip (remove_inline_comment rest)) as [|a l] eqn:E;
    [reflexivity|].
  cbn [Num.is_nil negb andb].
  destruct (Str.contains (txt "=") (a :: l)) eqn:Hc; [reflexivity|].
  now rewrite (extract_opcodes_no_equals _ Hc).
Qed.

(** The opcodes written after [<region>] and a space, in the region the
    line creates. *)
Lemma region_line_opcodes fs parse st kvs base_path :
  group_in_range st -> Forall plain_opcode kvs ->
  Str.contains (txt "//") (opcodes_line kvs) = false ->
  exists st' g r region,
    process_line fs parse st (txt "<region> " ++ opcodes_line kvs) base_path
    = Done st'
    /\ current_region st' = Some (g, r)
    /\ region_at st g r = None
    /\ region_at st' g r = Some region
    /\ forall k,
         region !! k
         = match last_value k kvs with
           | Some v => Some (resolve_value (defines st) v)
           | None =>
               match current_opcodes st !! k with
               | Some v => Some v
               | None => data_global st !! k
               end
           end.
Proof.
  intros Hg Hkvs Hno.
  assert (Hp : process_line fs parse st (txt "<region> " ++ opcodes_line kvs)
                            base_path
               = Done (store_all store_in_region (open_region st) kvs)).
  { change (txt "<region> " ++ opcodes_line kvs)
      with (txt "<region>" ++ " "%char :: opcodes_line kvs).
    rewrite region_line_stores. do 2 f_equal.
    assert (Hc : remove_inline_comment (" "%char :: opcodes_line kvs)
                 = " "%char :: opcodes_line kvs).
    { unfold remove_inline_comment. rewrite contains_cons, Hno.
      change (txt "//") with ("/"%char :: txt "/") at 1.
      rewrite startswith_cons_ne by discriminate. reflexivity. }
    rewrite Hc.
    assert (Hs : Str.strip (" "%char :: opcodes_line kvs)
                 = Str.strip (opcodes_line kvs)) by reflexivity.
    rewrite Hs, strip_opcodes_line by assumption.
    now apply extract_opcodes_line. }
  destruct (open_region_snapshot st Hg)
    as (g & r & region0 & _ & Hc & Hnew & Hr & Hk0).
  destruct (store_all_in_region_lookup kvs _ g r region0 Hc Hr)
    as (region & Hc' & Hr' & Hk).
  exists (store_all store_in_region (open_region st) kvs), g, r, region.
  split; [exact Hp|]. split; [exact Hc'|]. split; [exact Hnew|].
  split; [exact Hr'|].
  intros k. rewrite Hk, defines_open_region, Hk0. reflexivity.
Qed.

(** C9. Whatever follows [<control>], [<global>], [<master>] or [<group>]
    on its line is dropped: the line only switches the section (and, for
    the last two, opens a new empty group), and the resulting parser does
    not depend on the rest of the line. Only a [<region>] line has the
    opcodes that follow the marker tokenized, resolved and stored, in the
    region it has just created: after [<region>], a space and plain
    opcodes, the new region holds under each key the resolved value of
    the last opcode of the line with that key, and what it inherits under
    the other keys. *)
Theorem marker_line_opcodes (fs : filesystem)
    (parse : parser -> pystr -> outcome parser) (st : parser)
    (base_path : pystr) :
  (forall rest,
     process_line fs parse st (txt "<control>" ++ rest) base_path
     = Done (set_section SecControl st))
  /\ (forall rest,
        process_line fs parse st (txt "<global>" ++ rest) base_path
        = Done (set_section SecGlobal st))
  /\ (forall rest,
        process_line fs parse st (txt "<master>" ++ rest) base_path
        = Done (open_group st))
  /\ (forall rest,
        process_line fs parse st (txt "<group>" ++ rest) base_path
        = Done (open_group st))
  /\ (forall kvs,
        group_in_range st -> Forall plain_opcode kvs ->
        Str.contains (txt "//") (opcodes_line kvs) = false ->
        exists st' g r region,
          process_line fs parse st (txt "<region> " ++ opcodes_line kvs)
                       base_path
          = Done st'
          /\ current_region st' = Some (g, r)
          /\ region_at st g r = None
          /\ region_at st' g r = Some region
          /\ forall k,
               region !! k
               = match last_value k kvs with
                 | Some v => Some (resolve_value (defines st) v)
                 | None =>
                     match current_opcodes st !! k with
                     | Some v => Some v
                     | None => data_global st !! k
                     end
                 end).
Proof.
  split; [intros rest; apply (marker_lines fs parse st rest base_path)|].
  split; [intros rest; apply (marker_lines fs parse st rest base_path)|].
  split; [intros rest; apply (marker_lines fs parse st rest base_path)|].
  split; [intros rest; apply (marker_lines fs parse st rest base_path)|].
  intros kvs. apply region_line_opcodes.
Qed.

Lemma marker_line_opcodes_witness :
  let fs := lines_fs [] in
  let st := set_global (insert (txt "volume") (VInt (-3))) new_parser in
  process_line fs (parse_file fs 1) st (txt "<group> volume=-6 pan=10") []
  = Done (open_group st)
  /\ exists st',
       process_line fs (parse_file fs 1) st
                    (txt "<region> sample=My Piano.wav lokey=36 lokey=40") []
       = Done st'
       /\ all_regions st'
          = [ {[ txt "volume" := VInt (-3);
                 txt "sample" := VStr (txt "My Piano.wav");
                 txt "lokey" := VInt 40 ]} ].
Proof.
  intros fs st.
  destruct (marker_line_opcodes fs (parse_file fs 1) st [])
    as (_ & _ & _ & H4 & H5).
  split; [apply (H4 (txt " volume=-6 pan=10"))|].
  destruct (H5 [(txt "sample", txt "My Piano.wav"); (txt "lokey", txt "36");
                (txt "lokey", txt "40")])
    as (st' & g & r & region & Hp & _).
  - intros g Hgr. discriminate.
  - repeat constructor; try discriminate; vm_compute; reflexivity.
  - vm_compute. reflexivity.
  - exists st'. split; [exact Hp|].
    assert (Hst : Done st'
                  = process_line fs (parse_file fs 1) st
                      (txt "<region> sample=My Piano.wav lokey=36 lokey=40")
                      [])
      by (symmetry; exact Hp).
    vm_compute in Hst. inversion Hst. vm_compute. reflexivity.
Defined.

(** ** The resolution of a value, step by step *)




(** *** Floats *)





(** *** Texts that are no numbers *)












